(** * dagrt / leap: expression layer, kind inference and numpy interpreter

    A shallow embedding of
    - [src/leap/vm/codegen/data.py]  (kinds, [unify], [SymbolKindTable],
      [KindInferenceMapper], [SymbolKindFinder]),
    - [src/leap/vm/exec_numpy.py]    ([NumpyInterpreter.set_up], [run]),
    - [src/dagrt/expression.py]      ([EvaluationMapper], [collapse_constants]),
    together with the properties the specification states about them.

    Python exceptions are modelled by an explicit result type, Python
    dictionaries by stdpp's [gmap], and Python numbers by their rational
    values: the operators of [int] and [Fraction] are exact, those of
    [float] round to binary64. *)

From Stdlib Require Import QArith Qround Qabs Lqa.
From stdpp Require Import gmap strings pretty list fin_maps.

Local Open Scope string_scope.
Local Open Scope list_scope.
Local Open Scope nat_scope.

(** ** Exceptions *)

(** The exception classes the modelled code raises; the string is the
    constant part of the message. *)
Inductive exception : Type :=
| ValueError (msg : string)
| RuntimeError (msg : string)
| AssertionError
| NotImplementedError
| KeyError (key : string)
| AttributeError (attr : string)
| TypeError
| ZeroDivisionError
| TODO
| UnableToInferKind
| FailStepException
| UserError (msg : string).

(** A computation that returns or raises. *)
Inductive result (A : Type) : Type :=
| Ok (a : A)
| Raise (e : exception).
Arguments Ok {A} a.
Arguments Raise {A} e.

Definition rbind {A B} (r : result A) (k : A → result B) : result B :=
  match r with
  | Ok a => k a
  | Raise e => Raise e
  end.

Definition is_raise {A} (r : result A) : Prop :=
  match r with Raise _ => True | Ok _ => False end.

(** Python's [name.startswith(p)]. *)
Definition startswith (name p : string) : bool := String.prefix p name.

(** ** Numbers

    A Python number is given by its rational value.  The operators of
    [int] and [Fraction] are exact; those of [float] round the exact
    result to binary64. *)

(** The integer nearest to a rational, the even one of two that are
    equally near. *)
Definition round_half_even (q : Q) : Z :=
  let f := Qfloor q in
  match Qcompare (q - inject_Z f) (1 # 2) with
  | Lt => f
  | Gt => (f + 1)%Z
  | Eq => if Z.even f then f else (f + 1)%Z
  end.

(** [floor (log2 q)] for a positive rational. *)
Definition Qlog2 (q : Q) : Z :=
  let k := (Z.log2 (Qnum q) - Z.log2 (Z.pos (Qden q)))%Z in
  if Qle_bool (Qpower 2 k) q then k else (k - 1)%Z.

(** The binary64 number nearest to a rational, ties to even: a
    significand of 53 bits.  Overflow and subnormal numbers are left
    out. *)
Definition binary64 (q : Q) : Q :=
  match Qcompare q 0 with
  | Eq => 0%Q
  | c =>
      let a := Qabs q in
      let e := (Qlog2 a - 52)%Z in
      let m := round_half_even (a / Qpower 2 e) in
      Qred ((match c with Lt => -1 | _ => 1 end) * inject_Z m * Qpower 2 e)
  end.

(** ** Kinds ([src/leap/vm/codegen/data.py]) *)

Module Data.

(** [SymbolKind] and its four subclasses; [__eq__] compares the class and
    the init arguments, which is structural equality here. *)
Inductive SymbolKind : Type :=
| Boolean
| Scalar (is_real_valued : bool)
| Array (is_real_valued : bool)
| ODEComponent (component_id : string).

#[global] Instance SymbolKind_eq_dec : EqDecision SymbolKind.
Proof. solve_decision. Defined.

(** A kind-valued Python variable may hold [None]. *)
Abbreviation kind := (option SymbolKind).

(** [unify(kind_a, kind_b)], lines 155-194. *)
Definition unify (kind_a kind_b : kind) : result kind :=
  match kind_a, kind_b with
  | None, _ => Ok kind_b
  | _, None => Ok kind_a
  | Some Boolean, Some _ =>
      Raise (ValueError "arithmetic with flags is not permitted")
  | Some _, Some Boolean =>
      Raise (ValueError "arithmetic with flags is not permitted")
  | Some (ODEComponent ca), Some b =>
      match b with
      | ODEComponent cb =>
          if bool_decide (ca ≠ cb)
          then Raise (ValueError
                 "encountered arithmetic with mismatched ODE components")
          else Ok kind_a
      | Scalar _ => Ok kind_a
      | _ => Raise AssertionError
      end
  | Some (Array ra), Some b =>
      match b with
      | Array rb | Scalar rb => Ok (Some (Array (negb (negb ra || negb rb))))
      | _ => Raise AssertionError
      end
  | Some (Scalar ra), Some b =>
      match b with
      | ODEComponent _ => Ok kind_b
      | Array rb => Ok (Some (Array (negb (negb ra || negb rb))))
      | Scalar rb => Ok (Some (Scalar (negb (negb ra || negb rb))))
      | Boolean => Raise AssertionError
      end
  end.

Definition is_scalar_or_array (k : SymbolKind) : bool :=
  match k with
  | Scalar _ | Array _ => true
  | _ => false
  end.


(** *** pymbolic expressions

    The node types of [pymbolic.primitives] for which
    [KindInferenceMapper] has a method.  [C] is the type of numeric
    literals.  A call is [Call f ps] for the pymbolic node whose [function]
    is the variable [f]; calls with keyword arguments are not modelled. *)
#[local] Set Warnings "-register-all".
Inductive expr (C : Type) : Type :=
| Constant (c : C)
| Var (name : string)
| Sum (children : list (expr C))
| Product (children : list (expr C))
| Quotient (numerator denominator : expr C)
| Power (base exponent : expr C)
| Call (function : string) (parameters : list (expr C))
| Comparison (left : expr C) (operator : string) (right : expr C)
| LogicalOr (children : list (expr C))
| LogicalAnd (children : list (expr C))
| LogicalNot (child : expr C)
| Max (children : list (expr C))
| Min (children : list (expr C))
| Subscript (aggregate index : expr C).
Arguments Constant {C} c.
Arguments Var {C} name.
Arguments Sum {C} children.
Arguments Product {C} children.
Arguments Quotient {C} numerator denominator.
Arguments Power {C} base exponent.
Arguments Call {C} function parameters.
Arguments Comparison {C} left operator right.
Arguments LogicalOr {C} children.
Arguments LogicalAnd {C} children.
Arguments LogicalNot {C} child.
Arguments Max {C} children.
Arguments Min {C} children.
Arguments Subscript {C} aggregate index.

(** *** [SymbolKindTable] *)

(** The two dictionaries of a [SymbolKindTable]; a recorded kind may be
    [None], which is what [map_power] returns. *)
Record SymbolKindTable : Type := mkSymbolKindTable {
  global_table : gmap string kind;
  per_function_table : gmap string (gmap string kind)
}.

(** [SymbolKindTable.__init__]. *)
Definition SymbolKindTable_init : SymbolKindTable :=
  {| global_table := <["<dt>" := Some (Scalar true)]>
                       (<["<t>" := Some (Scalar true)]> ∅);
     per_function_table := ∅ |}.

(** [d.setdefault(key, {})]: the dictionary after the call and the entry
    it returns. *)
Definition setdefault_empty (d : gmap string (gmap string kind)) (key : string)
  : gmap string (gmap string kind) * gmap string kind :=
  match d !! key with
  | Some tbl => (d, tbl)
  | None => (<[key := ∅]> d, ∅)
  end.

Section Tables.

(** [leap.vm.utils.is_state_variable] is not part of the sources at hand;
    it is a parameter of the development. *)
Variable is_state_variable : string → bool.

(** [SymbolKindTable.set(func_name, name, kind)], lines 112-127.  The
    method mutates [self]; the model returns the table after the call
    together with the outcome. *)
Definition SymbolKindTable_set (self : SymbolKindTable)
    (func_name name : string) (k : kind) : SymbolKindTable * result unit :=
  if is_state_variable name then
    let tbl := global_table self in
    match tbl !! name with
    | Some recorded =>
        if bool_decide (recorded ≠ k)
        then (self, Raise (RuntimeError "inconsistent 'kind' derived"))
        else (self, Ok ())
    | None =>
        ({| global_table := <[name := k]> tbl;
            per_function_table := per_function_table self |}, Ok ())
    end
  else
    let '(pft, tbl) := setdefault_empty (per_function_table self) func_name in
    let self1 := {| global_table := global_table self;
                    per_function_table := pft |} in
    match tbl !! name with
    | Some recorded =>
        if bool_decide (recorded ≠ k)
        then (self1, Raise (RuntimeError "inconsistent 'kind' derived"))
        else (self1, Ok ())
    | None =>
        ({| global_table := global_table self;
            per_function_table := <[func_name := <[name := k]> tbl]> pft |},
         Ok ())
    end.

(** [SymbolKindTable.get(func_name, name)], lines 129-135, without the
    mutation of [setdefault], which a lookup does not observe. *)
Definition SymbolKindTable_get (self : SymbolKindTable)
    (func_name name : string) : result kind :=
  let tbl := if is_state_variable name then global_table self
             else default ∅ (per_function_table self !! func_name) in
  match tbl !! name with
  | Some k => Ok k
  | None => Raise (KeyError name)
  end.

(** *** [KindInferenceMapper] *)

Section Inference.

Context {C : Type}.

(** [isinstance(expr, complex)] on a literal. *)
Variable is_complex : C → bool.

(** The function registry: each registered function with its
    [get_result_kind], which receives the kinds of the arguments ([None]
    for an argument whose kind is not known yet). *)
Variable function_registry : gmap string (list kind → result kind).

(** The loop of [map_sum], lines 234-241, over the outcomes of [self.rec]
    on the children in order. *)
Fixpoint sum_loop (outcomes : list (result kind)) (k : kind) : result kind :=
  match outcomes with
  | [] => Ok k
  | Raise UnableToInferKind :: rest => sum_loop rest k
  | Raise e :: _ => Raise e
  | Ok ch_kind :: rest => rbind (unify k ch_kind) (sum_loop rest)
  end.

(** [map_sum], lines 233-246. *)
Definition map_sum (outcomes : list (result kind)) : result kind :=
  rbind (sum_loop outcomes None)
        (λ k, match k with
              | None => Raise UnableToInferKind
              | Some _ => Ok k
              end).

(** The loop of [map_product_like], lines 249-251. *)
Fixpoint product_loop (outcomes : list (result kind)) (k : kind) : result kind :=
  match outcomes with
  | [] => Ok k
  | Raise e :: _ => Raise e
  | Ok ch_kind :: rest => rbind (unify k ch_kind) (product_loop rest)
  end.

(** [map_product_like], lines 248-253. *)
Definition map_product_like (outcomes : list (result kind)) : result kind :=
  product_loop outcomes None.

(** The loop of [map_generic_call], lines 270-275. *)
Fixpoint arg_kinds_loop (outcomes : list (result kind)) : result (list kind) :=
  match outcomes with
  | [] => Ok []
  | Raise UnableToInferKind :: rest =>
      rbind (arg_kinds_loop rest) (λ ks, Ok (None :: ks))
  | Raise e :: _ => Raise e
  | Ok k :: rest => rbind (arg_kinds_loop rest) (λ ks, Ok (k :: ks))
  end.

(** [map_generic_call], lines 268-278. *)
Definition map_generic_call (function_id : string)
    (outcomes : list (result kind)) : result kind :=
  match function_registry !! function_id with
  | None => Raise (KeyError function_id)
  | Some get_result_kind => rbind (arg_kinds_loop outcomes) get_result_kind
  end.

(** The loop of [map_logical_or], lines 293-300. *)
Fixpoint logical_loop (outcomes : list (result kind)) : result kind :=
  match outcomes with
  | [] => Ok (Some Boolean)
  | Raise e :: _ => Raise e
  | Ok (Some Boolean) :: rest => logical_loop rest
  | Ok _ :: _ => Raise (ValueError "logical operations are undefined")
  end.

Section Mapper.

(** The two dictionaries the mapper is constructed with. *)
Variable global_tbl local_tbl : gmap string kind.

(** [KindInferenceMapper.rec]: the dispatch on the node type and the
    [map_*] methods, lines 214-326. *)
Fixpoint rec (e : expr C) : result kind :=
  match e with
  | Constant c =>
      if is_complex c then Ok (Some (Scalar false)) else Ok (Some (Scalar true))
  | Var name =>
      match global_tbl !! name with
      | Some k => Ok k
      | None =>
          match local_tbl !! name with
          | Some k => Ok k
          | None => Raise UnableToInferKind
          end
      end
  | Sum children => map_sum (map rec children)
  | Product children => map_product_like (map rec children)
  | Quotient numerator denominator =>
      map_product_like [rec numerator; rec denominator]
  | Power _ exponent =>
      match rec exponent with
      | Raise e => Raise e
      | Ok (Some (Scalar _)) => Ok None
      | Ok _ => Raise (ValueError "exponentiation is meaningless")
      end
  | Call function parameters =>
      map_generic_call function (map rec parameters)
  | Comparison _ _ _ => Ok (Some Boolean)
  | LogicalOr children | LogicalAnd children =>
      logical_loop (map rec children)
  | LogicalNot child => logical_loop [rec child]
  | Max _ | Min _ => Ok (Some (Scalar true))
  | Subscript aggregate _ =>
      match rec aggregate with
      | Raise e => Raise e
      | Ok (Some (Array is_real_valued)) => Ok (Some (Scalar is_real_valued))
      | Ok _ => Raise (ValueError "only arrays can be subscripted")
      end
  end.

End Mapper.

(** *** [SymbolKindFinder] *)

(** The instruction classes of [leap.vm.language] that [SymbolKindFinder]
    distinguishes. *)
Inductive instruction : Type :=
| AssignSolved
| AssignExpression (assignee : string) (expression : expr C)
| OtherInstruction.

(** The local variables of [SymbolKindFinder.__call__]. *)
Record finder_state : Type := mkFinderState {
  insn_queue : list (string * instruction);
  insn_queue_push_buffer : list (string * instruction);
  made_progress : bool;
  table : SymbolKindTable
}.

(** What one turn of the [while] loop does. *)
Inductive turn : Type :=
| Continue (s : finder_state)
| Return (tbl : SymbolKindTable)
| Raised (e : exception).

(** [l.pop()]: the last element and the list without it. *)
Definition list_pop {A} (l : list A) : option (list A * A) :=
  match reverse l with
  | [] => None
  | x :: r => Some (reverse r, x)
  end.

(** The swap at the head of the loop body, lines 353-359. *)
Definition refill (s : finder_state) : result finder_state :=
  match insn_queue s with
  | [] =>
      if negb (made_progress s)
      then Raise (RuntimeError "failed to infer types")
      else Ok {| insn_queue := insn_queue_push_buffer s;
                 insn_queue_push_buffer := [];
                 made_progress := false;
                 table := table s |}
  | _ :: _ => Ok s
  end.

(** The rest of the loop body, lines 361-384. *)
Definition process (s : finder_state) : turn :=
  match list_pop (insn_queue s) with
  | None => Raised (UserError "pop from empty list")
  | Some (queue, (func_name, insn)) =>
      match insn with
      | AssignSolved => Raised TODO
      | AssignExpression assignee expression =>
          let kim := rec (global_table (table s))
                         (default ∅ (per_function_table (table s) !! func_name)) in
          match kim expression with
          | Raise UnableToInferKind =>
              Continue {| insn_queue := queue;
                          insn_queue_push_buffer :=
                            insn_queue_push_buffer s ++ [(func_name, insn)];
                          made_progress := made_progress s;
                          table := table s |}
          | Raise e => Raised e
          | Ok k =>
              match SymbolKindTable_set (table s) func_name assignee k with
              | (_, Raise e) => Raised e
              | (tbl, Ok _) =>
                  Continue {| insn_queue := queue;
                              insn_queue_push_buffer := insn_queue_push_buffer s;
                              made_progress := true;
                              table := tbl |}
              end
          end
      | OtherInstruction =>
          Continue {| insn_queue := queue;
                      insn_queue_push_buffer := insn_queue_push_buffer s;
                      made_progress := made_progress s;
                      table := table s |}
      end
  end.

(** One evaluation of the loop condition and, when it holds, of the loop
    body, lines 352-384. *)
Definition finder_turn (s : finder_state) : turn :=
  match insn_queue s, insn_queue_push_buffer s with
  | [], [] => Return (table s)
  | _, _ =>
      match refill s with
      | Raise e => Raised e
      | Ok s1 => process s1
      end
  end.

(** The [while] loop, cut off after [fuel] turns. *)
Fixpoint finder_loop (fuel : nat) (s : finder_state) : option (result SymbolKindTable) :=
  match fuel with
  | O => None
  | S fuel' =>
      match finder_turn s with
      | Continue s' => finder_loop fuel' s'
      | Return tbl => Some (Ok tbl)
      | Raised e => Some (Raise e)
      end
  end.

(** The state on entry to the loop, lines 341-350.  [functions] holds, for
    every function, the list [get_instructions_in_ast] returns for it. *)
Definition finder_init (names : list string)
    (functions : list (list instruction)) : finder_state :=
  {| insn_queue :=
       concat (zip_with (λ name insns, map (λ insn, (name, insn)) insns)
                        names functions);
     insn_queue_push_buffer := [];
     made_progress := false;
     table := SymbolKindTable_init |}.

(** A number of turns that the loop cannot exceed. *)
Definition finder_measure (s : finder_state) : nat :=
  let total := length (insn_queue s) + length (insn_queue_push_buffer s) in
  total * (2 * total + 2)
  + (if made_progress s then total + 1 else 0)
  + length (insn_queue s).

(** [SymbolKindFinder.__call__], lines 337-386. *)
Definition SymbolKindFinder_call (names : list string)
    (functions : list (list instruction)) : option (result SymbolKindTable) :=
  let s := finder_init names functions in
  finder_loop (S (finder_measure s)) s.

End Inference.
End Tables.

End Data.

(** ** The numpy interpreter ([src/leap/vm/exec_numpy.py]) *)

Module ExecNumpy.

(** The values of the state dictionary: numbers, as exact rationals, and
    one-dimensional arrays of them. *)
Inductive value : Type :=
| Number (q : Q)
| Vector (xs : list Q).

(** [self.state]. *)
Abbreviation state := (gmap string value).

(** The record [StateComputed], lines 36-45: what [exec_ReturnState]
    hands to the execution controller, the only event an instruction
    produces. *)
Record StateComputed : Type := mkStateComputed {
  t : value;
  time_id : string;
  component_id : string;
  state_component : value
}.

(** The events [run] yields, lines 36-65. *)
Inductive event : Type :=
| Computed (e : StateComputed)
| StepCompleted (t : value)
| StepFailed (t : value).

(** The loop of [set_up], lines 93-96, over the items of [state] in the
    order the dictionary yields them.  The dictionary after the loop and
    the outcome. *)
Fixpoint set_up_loop (items : list (string * value)) (self_state : state)
  : state * result unit :=
  match items with
  | [] => (self_state, Ok ())
  | (key, val) :: rest =>
      if startswith key "<"
      then (self_state, Raise (ValueError "state variables may not start with '<'"))
      else set_up_loop rest (<["<state>" +:+ key := val]> self_state)
  end.

(** [NumpyInterpreter.set_up(t_start, dt_start, state)], lines 86-96. *)
Definition set_up (self_state : state) (t_start dt_start : value)
    (components : gmap string value) : state * result unit :=
  let s1 := <["<t>" := t_start]> self_state in
  let s2 := <["<dt>" := dt_start]> s1 in
  set_up_loop (map_to_list components) s2.

(** The condition of lines 129-132, negated: the names the clean-up
    keeps. *)
Definition is_permanent (name : string) : bool :=
  startswith name "<state>" || startswith name "<p>"
  || bool_decide (name ∈ ["<t>"; "<dt>"]).

(** The [finally] block, lines 127-133. *)
Definition discard (self_state : state) : state :=
  filter (λ item, is_permanent item.1 = true) self_state.

(** [self.state[name]] read as a number. *)
Definition number_at (self_state : state) (name : string) : result Q :=
  match self_state !! name with
  | None => Raise (KeyError name)
  | Some (Number q) => Ok q
  | Some (Vector _) => Raise TypeError
  end.

(** The operators [+] and [-] of the numbers in the state, which
    [run] applies in lines 112 and 114.  Comparison is by value for every
    kind of number. *)
Class arithmetic : Type := mkArithmetic {
  num_add : Q → Q → Q;
  num_sub : Q → Q → Q
}.

(** The numbers are [int] or [Fraction]: the operators are exact.  Where
    nothing else is said, this is the arithmetic. *)
#[global] Instance exact_arithmetic : arithmetic :=
  {| num_add := Qplus; num_sub := Qminus |}.

(** The numbers are [float]: the operators round to binary64. *)
Definition float_arithmetic : arithmetic :=
  {| num_add := λ x y, binary64 (x + y);
     num_sub := λ x y, binary64 (x - y) |}.

(** The adjustment at the head of the loop body, lines 109-115: the state
    and the flag [last_step] after it. *)
Definition adjust {ar : arithmetic} (t_end : Q) (self_state : state)
    (last_step : bool) : result (state * bool) :=
  rbind (number_at self_state "<t>") (λ t,
  rbind (number_at self_state "<dt>") (λ dt,
    if Qle_bool t_end (num_add t dt) then
      if Qle_bool t t_end
      then Ok (<["<dt>" := Number (num_sub t_end t)]> self_state, true)
      else Raise AssertionError
    else Ok (self_state, last_step))).

(** What running the step plan through the execution controller does to
    the state: the events it yields, the state it leaves, and whether it
    ended normally or with an exception ([FailStepException] from
    [exec_FailStep], anything else from [exec_Raise] or an error). *)
Inductive execution : Type :=
| Finished (events : list StateComputed) (after : state)
| Aborted (events : list StateComputed) (after : state) (e : exception).

(** How one turn of the loop of [run] ends. *)
Inductive control : Type :=
| Next (self_state : state) (last_step : bool)
| Break (self_state : state)
| Propagate (self_state : state) (e : exception).

(** The state a turn leaves. *)
Definition state_of (c : control) : state :=
  match c with
  | Next self_state _ | Break self_state | Propagate self_state _ => self_state
  end.

(** How [run] stands after some turns of its loop: returned, raised, or
    suspended with more turns to come. *)
Inductive run_end : Type :=
| Stopped (self_state : state)
| Raising (self_state : state) (e : exception)
| Running (self_state : state) (last_step : bool).

(** One turn of the loop of [run]: the state the step plan started from,
    the flag [last_step] during it, and the events yielded. *)
Record iteration : Type := mkIteration {
  started : state;
  marked_last : bool;
  yielded : list event
}.

Section Run.

Context {ar : arithmetic}.

(** [leap.vm.language.ExecutionController] and the code object are not
    part of the sources at hand; the effect of
    [reset(); update_plan(step_dep_on); for event in exec_controller(self)]
    on the state is a parameter. *)
Variable step_plan : state → execution.

(** Lines 119-142: the [try] statement and what follows it. *)
Definition run_body (self_state : state) (last_step : bool)
  : list event * control :=
  match step_plan self_state with
  | Finished events after =>
      let cleaned := discard after in
      match cleaned !! "<t>" with
      | None => (map Computed events, Propagate cleaned (KeyError "<t>"))
      | Some t =>
          (map Computed events ++ [StepCompleted t],
           if last_step then Break cleaned else Next cleaned last_step)
      end
  | Aborted events after FailStepException =>
      let cleaned := discard after in
      match cleaned !! "<t>" with
      | None => (map Computed events, Propagate cleaned (KeyError "<t>"))
      | Some t =>
          (map Computed events ++ [StepFailed t], Next cleaned last_step)
      end
  | Aborted events after e => (map Computed events, Propagate (discard after) e)
  end.

(** The loop of [run], lines 106-142, cut off after [fuel] turns. *)
Fixpoint run_loop (fuel : nat) (t_end : Q) (self_state : state)
    (last_step : bool) : list iteration * run_end :=
  match fuel with
  | O => ([], Running self_state last_step)
  | S fuel' =>
      match adjust t_end self_state last_step with
      | Raise e => ([], Raising self_state e)
      | Ok (s1, last1) =>
          let '(events, c) := run_body s1 last1 in
          let it := {| started := s1; marked_last := last1;
                       yielded := events |} in
          match c with
          | Next s2 last2 =>
              let '(its, e) := run_loop fuel' t_end s2 last2 in (it :: its, e)
          | Break s2 => ([it], Stopped s2)
          | Propagate s2 e => ([it], Raising s2 e)
          end
      end
  end.

(** [NumpyInterpreter.run(t_end)], lines 104-142. *)
Definition run (fuel : nat) (t_end : Q) (self_state : state)
  : list iteration * run_end :=
  run_loop fuel t_end self_state false.

(** The events a sequence of turns yields. *)
Definition events_of (its : list iteration) : list event :=
  concat (map yielded its).

End Run.

End ExecNumpy.

(** ** The expression layer ([src/dagrt/expression.py]) *)

Module Expression.

(** *** pymbolic expressions

    The node types of [pymbolic.primitives] modelled for the mappers of
    this module: those that pymbolic's [CombineMapper] maps by combining
    the results of all children.  [V] is the type of Python values, of
    which the literals are some.  A call is [Call f ps] for the pymbolic
    node whose [function] is the variable [f]; calls with keyword
    arguments are not modelled. *)
#[local] Set Warnings "-register-all".
Inductive expr (V : Type) : Type :=
| Constant (c : V)
| Var (name : string)
| Sum (children : list (expr V))
| Product (children : list (expr V))
| Quotient (numerator denominator : expr V)
| Power (base exponent : expr V)
| Call (function : string) (parameters : list (expr V))
| Comparison (left : expr V) (operator : string) (right : expr V)
| LogicalOr (children : list (expr V))
| LogicalAnd (children : list (expr V))
| IfThenElse (condition then_ else_ : expr V).
Arguments Constant {V} c.
Arguments Var {V} name.
Arguments Sum {V} children.
Arguments Product {V} children.
Arguments Quotient {V} numerator denominator.
Arguments Power {V} base exponent.
Arguments Call {V} function parameters.
Arguments Comparison {V} left operator right.
Arguments LogicalOr {V} children.
Arguments LogicalAnd {V} children.
Arguments IfThenElse {V} condition then_ else_.

(** Structural equality of expressions, which is what [==] and [hash] of
    pymbolic expressions implement. *)
Fixpoint expr_eq_dec {V : Type} (V_eq_dec : ∀ a b : V, {a = b} + {a ≠ b})
    (a b : expr V) {struct a} : {a = b} + {a ≠ b}.
Proof.
  decide equality;
    try apply V_eq_dec;
    try apply String.string_dec;
    try apply (List.list_eq_dec (expr_eq_dec V V_eq_dec)).
Defined.

#[global] Instance expr_eq_decision {V : Type} `{EqDecision V} :
  EqDecision (expr V) := expr_eq_dec (λ a b, decide (a = b)).

(** *** Python values

    What the evaluator needs of the values it computes with: [None], the
    integers [0] and [1] that [sum] and [product] start from, the binary
    operators, comparison by operator name, truth testing, and the values
    a name of the function table stands for, with their application. *)
Record python (V F : Type) : Type := mkPython {
  py_none : V;
  py_zero : V;
  py_one : V;
  py_add : V → V → result V;
  py_mul : V → V → result V;
  py_div : V → V → result V;
  py_pow : V → V → result V;
  py_compare : string → V → V → result V;
  py_truth : V → result bool;
  py_bool : bool → V;
  py_function : F → V;
  py_call : F → list V → result V
}.
Arguments py_none {V F} _.
Arguments py_zero {V F} _.
Arguments py_one {V F} _.
Arguments py_add {V F} _ _ _.
Arguments py_mul {V F} _ _ _.
Arguments py_div {V F} _ _ _.
Arguments py_pow {V F} _ _ _.
Arguments py_compare {V F} _ _ _ _.
Arguments py_truth {V F} _ _.
Arguments py_bool {V F} _ _.
Arguments py_function {V F} _ _.
Arguments py_call {V F} _ _ _.

(** *** [EvaluationMapper] *)

Section Evaluation.

Context {V F : Type}.
Variable py : python V F.

(** [self.context] and [self.functions]. *)
Variable context : gmap string V.
Variable functions : gmap string F.

(** [EvaluationMapper.map_variable], lines 70-74.  The method ends
    without a [return] when both lookups fail, which yields [None]. *)
Definition map_variable (name : string) : V :=
  match context !! name with
  | Some v => v
  | None =>
      match functions !! name with
      | Some f => py_function py f
      | None => py_none py
      end
  end.

(** [sum] and [pytools.product] over the outcomes of [self.rec] on the
    children: a left fold of the operator from its unit. *)
Fixpoint reduce_values (op : V → V → result V) (outcomes : list (result V))
    (acc : V) : result V :=
  match outcomes with
  | [] => Ok acc
  | o :: rest => rbind o (λ v, rbind (op acc v) (reduce_values op rest))
  end.

(** [any] over the outcomes of [self.rec] on the children. *)
Fixpoint any_values (outcomes : list (result V)) : result V :=
  match outcomes with
  | [] => Ok (py_bool py false)
  | o :: rest =>
      rbind o (λ v, rbind (py_truth py v) (λ b,
        if b then Ok (py_bool py true) else any_values rest))
  end.

(** [all] over the outcomes of [self.rec] on the children. *)
Fixpoint all_values (outcomes : list (result V)) : result V :=
  match outcomes with
  | [] => Ok (py_bool py true)
  | o :: rest =>
      rbind o (λ v, rbind (py_truth py v) (λ b,
        if b then all_values rest else Ok (py_bool py false)))
  end.

(** The evaluated parameters of a call, lines 81 and 85. *)
Fixpoint evaluated_parameters (outcomes : list (result V)) : result (list V) :=
  match outcomes with
  | [] => Ok []
  | o :: rest =>
      rbind o (λ v, rbind (evaluated_parameters rest) (λ vs, Ok (v :: vs)))
  end.

(** [EvaluationMapper.map_generic_call], lines 76-85, without keyword
    parameters. *)
Definition map_generic_call (function_name : string)
    (outcomes : list (result V)) : result V :=
  match functions !! function_name with
  | None => Raise (ValueError "Call to unknown function")
  | Some function => rbind (evaluated_parameters outcomes) (py_call py function)
  end.

(** [EvaluationMapper.rec]: [map_variable] and [map_call] from lines
    70-88, the other methods from pymbolic's [EvaluationMapper]. *)
Fixpoint evaluate (e : expr V) : result V :=
  match e with
  | Constant c => Ok c
  | Var name => Ok (map_variable name)
  | Sum children => reduce_values (py_add py) (map evaluate children) (py_zero py)
  | Product children =>
      reduce_values (py_mul py) (map evaluate children) (py_one py)
  | Quotient numerator denominator =>
      rbind (evaluate numerator) (λ a,
      rbind (evaluate denominator) (λ b, py_div py a b))
  | Power base exponent =>
      rbind (evaluate base) (λ a,
      rbind (evaluate exponent) (λ b, py_pow py a b))
  | Call function parameters =>
      map_generic_call function (map evaluate parameters)
  | Comparison lhs operator rhs =>
      rbind (evaluate lhs) (λ a,
      rbind (evaluate rhs) (λ b, py_compare py operator a b))
  | LogicalOr children => any_values (map evaluate children)
  | LogicalAnd children => all_values (map evaluate children)
  | IfThenElse condition then_ else_ =>
      rbind (evaluate condition) (λ c,
      rbind (py_truth py c) (λ b,
        if b then evaluate then_ else evaluate else_))
  end.

End Evaluation.

(** Executing an assignment [variable := expr] binds the variable in the
    context to the value of the expression. *)
Definition assign {V F : Type} (py : python V F) (functions : gmap string F)
    (context : gmap string V) (assignment : string * expr V)
  : result (gmap string V) :=
  rbind (evaluate py context functions assignment.2)
        (λ v, Ok (<[assignment.1 := v]> context)).

(** Executing a sequence of assignments. *)
Fixpoint assign_all {V F : Type} (py : python V F) (functions : gmap string F)
    (context : gmap string V) (assignments : list (string * expr V))
  : result (gmap string V) :=
  match assignments with
  | [] => Ok context
  | a :: rest =>
      rbind (assign py functions context a)
            (λ context', assign_all py functions context' rest)
  end.

(** *** [_ConstantFindingMapper] and [_ExpressionCollapsingMapper] *)

(** [_is_atomic], lines 137-138. *)
Definition _is_atomic {V : Type} (e : expr V) : bool :=
  match e with
  | Var _ | Constant _ => true
  | _ => false
  end.

Section Collapsing.

Context {V : Type} `{EqDecision V}.

(** The free variables, a list of [Variable] objects given by their
    names. *)
Variable free_variables : list string.

(** The dictionary [is_constant], keyed by expressions: the entries in the
    order they were stored, the latest first. *)
Definition dict : Type := list (expr V * bool).

(** [is_constant[e]]. *)
Fixpoint dict_get (is_constant : dict) (e : expr V) : result bool :=
  match is_constant with
  | [] => Raise (KeyError "is_constant")
  | (key, b) :: rest =>
      if decide (key = e) then Ok b else dict_get rest e
  end.

(** [_ConstantFindingMapper.combine], lines 117-121.  [current_expr] is the
    top of [node_stack], the node whose children [exprs] are the results
    of; [reduce] fails on an empty sequence. *)
Definition combine (current_expr : expr V) (exprs : list bool)
    (is_constant : dict) : result (bool * dict) :=
  match exprs with
  | [] => Raise TypeError
  | b :: bs =>
      let r := fold_left andb bs b in
      Ok (r, (current_expr, r) :: is_constant)
  end.

(** [_ConstantFindingMapper.map_variable], lines 130-134, and
    [map_constant], lines 123-126. *)
Definition finding_map_variable (e : expr V) (name : string)
    (is_constant : dict) : bool * dict :=
  let r := negb (bool_decide (name ∈ free_variables)) in
  (r, (e, r) :: is_constant).

Definition finding_map_constant (e : expr V) (is_constant : dict)
  : bool * dict :=
  (true, (e, true) :: is_constant).

(** The results of [rec] for the children of a node, in order, as the
    methods of pymbolic's [CombineMapper] compute them. *)
Fixpoint finding_children (rec : expr V → dict → result (bool * dict))
    (children : list (expr V)) (is_constant : dict)
  : result (list bool * dict) :=
  match children with
  | [] => Ok ([], is_constant)
  | child :: rest =>
      rbind (rec child is_constant) (λ '(b, d1),
      rbind (finding_children rec rest d1) (λ '(bs, d2), Ok (b :: bs, d2)))
  end.

(** [_ConstantFindingMapper.rec], lines 113-115, with the methods of
    pymbolic's [CombineMapper], which hand the results for the children to
    [combine]; the function of a call is its first child. *)
Fixpoint finding_rec (e : expr V) (is_constant : dict) {struct e}
  : result (bool * dict) :=
  match e with
  | Constant _ => Ok (finding_map_constant e is_constant)
  | Var name => Ok (finding_map_variable e name is_constant)
  | Sum children | Product children | LogicalOr children
  | LogicalAnd children =>
      rbind (finding_children finding_rec children is_constant)
            (λ '(bs, d), combine e bs d)
  | Quotient a b | Power a b | Comparison a _ b =>
      rbind (finding_rec a is_constant) (λ '(ba, d1),
      rbind (finding_rec b d1) (λ '(bb, d2), combine e [ba; bb] d2))
  | Call function parameters =>
      let '(bf, d1) := finding_map_variable (Var function) function is_constant in
      rbind (finding_children finding_rec parameters d1)
            (λ '(bs, d2), combine e (bf :: bs) d2)
  | IfThenElse c t f =>
      rbind (finding_rec c is_constant) (λ '(bc, d1),
      rbind (finding_rec t d1) (λ '(bt, d2),
      rbind (finding_rec f d2) (λ '(bf, d3), combine e [bc; bt; bf] d3)))
  end.

(** [_ConstantFindingMapper.__call__], lines 105-111. *)
Definition constant_finding (e : expr V) : result dict :=
  let is_constant :=
    fold_left (λ d variable, (Var variable, false) :: d) free_variables [] in
  rbind (finding_rec e is_constant) (λ '(_, d), Ok d).

(** The fresh variables: [new_var_func n] is the name of the variable the
    call number [n] of the caller's [new_var_func] returns. *)
Variable new_var_func : nat → string.

(** What the collapsing mapper mutates: the number of calls of
    [new_var_func] made, and [self.assignments]. *)
Record mapper_state : Type := mkMapperState {
  calls : nat;
  assignments : gmap string (expr V)
}.

(** Lines 162-164 and 197-200: a new variable, bound to [e] in
    [self.assignments]. *)
Definition hoist (e : expr V) (s : mapper_state) : expr V * mapper_state :=
  let new_var := new_var_func (calls s) in
  (Var new_var,
   {| calls := S (calls s);
      assignments := <[new_var := e]> (assignments s) |}).

(** [map_commut_assoc] after its loop, lines 179-205.  The attribute
    [self.non_constants] of line 192 does not exist. *)
Definition commut_assoc_finish (combine_func : list (expr V) → expr V)
    (constants non_constants : list (expr V)) (s : mapper_state)
  : result (expr V * mapper_state) :=
  match constants with
  | [] =>
      match non_constants with
      | [] => Raise AssertionError
      | [_] => Raise (AttributeError "non_constants")
      | _ => Ok (combine_func non_constants, s)
      end
  | _ =>
      let '(folded_constant, s') :=
        match constants with
        | [c] => if _is_atomic c then (c, s) else hoist c s
        | _ => hoist (combine_func constants) s
        end in
      match non_constants with
      | [] => Ok (folded_constant, s')
      | _ => Ok (combine_func (folded_constant :: non_constants), s')
      end
  end.

Section Mapper.

(** [self.is_constant]. *)
Variable is_constant : dict.

(** The images of the children of a node under [self.rec], in order, as
    the methods of pymbolic's [IdentityMapper] compute them. *)
Fixpoint rec_children
    (rec : expr V → mapper_state → result (expr V * mapper_state))
    (children : list (expr V)) (s : mapper_state)
  : result (list (expr V) * mapper_state) :=
  match children with
  | [] => Ok ([], s)
  | child :: rest =>
      rbind (rec child s) (λ '(child', s1),
      rbind (rec_children rec rest s1) (λ '(rest', s2), Ok (child' :: rest', s2)))
  end.

(** The loop of [map_commut_assoc], lines 171-177: [constants],
    [non_constants] and the state after it. *)
Fixpoint classify
    (rec : expr V → mapper_state → result (expr V * mapper_state))
    (children : list (expr V)) (s : mapper_state)
  : result (list (expr V) * list (expr V) * mapper_state) :=
  match children with
  | [] => Ok ([], [], s)
  | child :: rest =>
      rbind (dict_get is_constant child) (λ b,
        if b then
          rbind (classify rec rest s) (λ '(constants, non_constants, s1),
            Ok (child :: constants, non_constants, s1))
        else
          rbind (rec child s) (λ '(child', s1),
          rbind (classify rec rest s1) (λ '(constants, non_constants, s2),
            Ok (constants, child' :: non_constants, s2))))
  end.

(** [_ExpressionCollapsingMapper.rec], lines 158-164, given what
    [IdentityMapper.rec] does. *)
Definition rec_with
    (identity_rec : expr V → mapper_state → result (expr V * mapper_state))
    (e : expr V) (s : mapper_state) : result (expr V * mapper_state) :=
  if _is_atomic e then identity_rec e s
  else rbind (dict_get is_constant e) (λ b,
         if negb b then identity_rec e s else Ok (hoist e s)).

(** [IdentityMapper.rec], the dispatch on the node type: [map_sum] and
    [map_product] from lines 207-213 with [map_commut_assoc], the other
    methods from pymbolic's [IdentityMapper], which rebuild the node from
    the images of its children under [self.rec]. *)
Fixpoint dispatch (e : expr V) (s : mapper_state) {struct e}
  : result (expr V * mapper_state) :=
  match e with
  | Constant _ | Var _ => Ok (e, s)
  | Sum children =>
      rbind (classify (rec_with dispatch) children s)
        (λ '(constants, non_constants, s1),
           commut_assoc_finish Sum constants non_constants s1)
  | Product children =>
      rbind (classify (rec_with dispatch) children s)
        (λ '(constants, non_constants, s1),
           commut_assoc_finish Product constants non_constants s1)
  | Quotient a b =>
      rbind (rec_with dispatch a s) (λ '(a', s1),
      rbind (rec_with dispatch b s1) (λ '(b', s2), Ok (Quotient a' b', s2)))
  | Power a b =>
      rbind (rec_with dispatch a s) (λ '(a', s1),
      rbind (rec_with dispatch b s1) (λ '(b', s2), Ok (Power a' b', s2)))
  | Call function parameters =>
      rbind (rec_children (rec_with dispatch) parameters s)
        (λ '(parameters', s1), Ok (Call function parameters', s1))
  | Comparison a operator b =>
      rbind (rec_with dispatch a s) (λ '(a', s1),
      rbind (rec_with dispatch b s1) (λ '(b', s2),
        Ok (Comparison a' operator b', s2)))
  | LogicalOr children =>
      rbind (rec_children (rec_with dispatch) children s)
        (λ '(children', s1), Ok (LogicalOr children', s1))
  | LogicalAnd children =>
      rbind (rec_children (rec_with dispatch) children s)
        (λ '(children', s1), Ok (LogicalAnd children', s1))
  | IfThenElse c t f =>
      rbind (rec_with dispatch c s) (λ '(c', s1),
      rbind (rec_with dispatch t s1) (λ '(t', s2),
      rbind (rec_with dispatch f s2) (λ '(f', s3),
        Ok (IfThenElse c' t' f', s3))))
  end.

(** [_ExpressionCollapsingMapper.rec], lines 158-164. *)
Definition collapsing_rec : expr V → mapper_state
                            → result (expr V * mapper_state) :=
  rec_with dispatch.

End Mapper.

(** [_ExpressionCollapsingMapper.__call__], lines 151-156. *)
Definition collapsing (e : expr V)
  : result (expr V * gmap string (expr V)) :=
  rbind (constant_finding e) (λ is_constant,
  rbind (dispatch is_constant e {| calls := 0; assignments := ∅ |})
        (λ '(new_expression, s), Ok (new_expression, assignments s))).

(** [collapse_constants], lines 216-232: the new expression, and the
    calls of [assign_func], one for each item of the dictionary of
    assignments.  The code leaves the order of the items to Python's
    dictionary; they are listed here in the order of the keys of the
    [gmap]. *)
Definition collapse_constants (expression : expr V)
  : result (expr V * list (string * expr V)) :=
  rbind (collapsing expression) (λ '(new_expression, variable_map),
    Ok (new_expression, map_to_list variable_map)).

End Collapsing.

(** *** [_RenameVariableMapper] *)

(** [_RenameVariableMapper.map_variable], lines 315-321, on the name of
    the variable. *)
Definition rename_variable (rename_func : string → option string)
    (name : string) : string :=
  match rename_func name with
  | None => name
  | Some renamed => renamed
  end.

(** [_RenameVariableMapper.rec]: [map_variable] from lines 315-321, the
    other methods from pymbolic's [IdentityMapper], which rebuild the node
    from the images of its children under [self.rec]; the function of a
    call is a variable and is mapped as one. *)
Fixpoint rename_variables {V : Type} (rename_func : string → option string)
    (e : expr V) : expr V :=
  match e with
  | Constant c => Constant c
  | Var name => Var (rename_variable rename_func name)
  | Sum children => Sum (map (rename_variables rename_func) children)
  | Product children => Product (map (rename_variables rename_func) children)
  | Quotient a b =>
      Quotient (rename_variables rename_func a) (rename_variables rename_func b)
  | Power a b =>
      Power (rename_variables rename_func a) (rename_variables rename_func b)
  | Call function parameters =>
      Call (rename_variable rename_func function)
           (map (rename_variables rename_func) parameters)
  | Comparison a operator b =>
      Comparison (rename_variables rename_func a) operator
                 (rename_variables rename_func b)
  | LogicalOr children =>
      LogicalOr (map (rename_variables rename_func) children)
  | LogicalAnd children =>
      LogicalAnd (map (rename_variables rename_func) children)
  | IfThenElse c t f =>
      IfThenElse (rename_variables rename_func c)
                 (rename_variables rename_func t)
                 (rename_variables rename_func f)
  end.

(** *** [parse]: the backticks *)

(** Python's [name.endswith(s)]. *)
Definition endswith (name s : string) : bool :=
  (String.length s <=? String.length name)
  && String.eqb (String.substring (String.length name - String.length s)
                                  (String.length s) name) s.

(** [remove_backticks] of [parse], lines 330-336, on the name of the
    variable: [varname[1:-1]] when the name starts and ends with a
    backtick. *)
Definition remove_backticks (varname : string) : string :=
  if startswith varname "`" && endswith varname "`"
  then String.substring 1 (String.length varname - 2) varname
  else varname.

End Expression.

(** * Properties *)

(** ** Kinds and kind inference *)

Module DataFacts.
Import Data.

Example unify_scalar_array :
  unify (Some (Scalar true)) (Some (Array false)) = Ok (Some (Array false)).
Proof. reflexivity. Qed.

Example unify_component_scalar :
  unify (Some (ODEComponent "y")) (Some (Scalar false))
  = Ok (Some (ODEComponent "y")).
Proof. reflexivity. Qed.

(** The double negation of the source is a conjunction. *)
Lemma real_valued_and (ra rb : bool) : negb (negb ra || negb rb) = ra && rb.
Proof. by destruct ra, rb. Qed.

Lemma unify_scalar_array_comm (a b : SymbolKind) :
  is_scalar_or_array a = true → is_scalar_or_array b = true →
  unify (Some a) (Some b) = unify (Some b) (Some a).
Proof.
  destruct a as [|ra|ra|ca], b as [|rb|rb|cb]; simpl; try done;
    intros _ _; by destruct ra, rb.
Qed.

Lemma unify_components_mismatch (ca cb : string) :
  ca ≠ cb → is_raise (unify (Some (ODEComponent ca)) (Some (ODEComponent cb))).
Proof. intros Hne. simpl. by rewrite bool_decide_eq_true_2. Qed.

Lemma unify_boolean_l (k : SymbolKind) : is_raise (unify (Some Boolean) (Some k)).
Proof. by destruct k. Qed.

Lemma unify_boolean_r (k : SymbolKind) : is_raise (unify (Some k) (Some Boolean)).
Proof. by destruct k. Qed.

(** C4: [unify] is commutative on every pair of Scalar and Array kinds,
    fails on two ODEComponent kinds with distinct component ids, and fails
    whenever one of the two kinds is Boolean. *)
Theorem unify_algebra :
  (∀ a b : SymbolKind,
     is_scalar_or_array a = true → is_scalar_or_array b = true →
     unify (Some a) (Some b) = unify (Some b) (Some a))
  ∧ (∀ ca cb : string,
       ca ≠ cb →
       is_raise (unify (Some (ODEComponent ca)) (Some (ODEComponent cb))))
  ∧ (∀ k : SymbolKind,
       is_raise (unify (Some Boolean) (Some k))
       ∧ is_raise (unify (Some k) (Some Boolean))).
Proof.
  split; [exact unify_scalar_array_comm|].
  split; [exact unify_components_mismatch|].
  intros k. split; [apply unify_boolean_l | apply unify_boolean_r].
Qed.

Lemma unify_algebra_witness :
  unify (Some (Scalar true)) (Some (Array false))
  = unify (Some (Array false)) (Some (Scalar true))
  ∧ is_raise (unify (Some (ODEComponent "y")) (Some (ODEComponent "z"))).
Proof.
  split.
  - apply (proj1 unify_algebra); reflexivity.
  - apply (proj1 (proj2 unify_algebra)). discriminate.
Defined.

(** *** [SymbolKindTable.set] *)

Section TableFacts.

Variable is_state_variable : string → bool.

Abbreviation set_ := (SymbolKindTable_set is_state_variable).
Abbreviation get_ := (SymbolKindTable_get is_state_variable).

Lemma setdefault_empty_present d key tbl :
  d !! key = Some tbl → setdefault_empty d key = (d, tbl).
Proof. intros H. unfold setdefault_empty. by rewrite H. Qed.

(** A set of a recorded name with the recorded kind changes nothing. *)
Lemma set_recorded_same self func_name name k :
  get_ self func_name name = Ok k →
  set_ self func_name name k = (self, Ok ()).
Proof.
  unfold SymbolKindTable_get, SymbolKindTable_set.
  destruct (is_state_variable name).
  - destruct (global_table self !! name) as [k0|] eqn:E; [|done].
    intros [= ->]. rewrite bool_decide_eq_false_2; [done|]. by intros [].
  - destruct (per_function_table self !! func_name) as [tbl|] eqn:Ef; simpl.
    + rewrite (setdefault_empty_present _ _ _ Ef).
      destruct (tbl !! name) as [k0|] eqn:E; [|done].
      intros [= ->]. rewrite bool_decide_eq_false_2; [|by intros []].
      by destruct self.
    + by rewrite lookup_empty.
Qed.

(** A set of a recorded name with another kind raises and changes
    nothing. *)
Lemma set_recorded_other self func_name name k k' :
  get_ self func_name name = Ok k → k' ≠ k →
  set_ self func_name name k'
  = (self, Raise (RuntimeError "inconsistent 'kind' derived")).
Proof.
  unfold SymbolKindTable_get, SymbolKindTable_set. intros Hget Hne.
  destruct (is_state_variable name).
  - destruct (global_table self !! name) as [k0|] eqn:E; [|done].
    injection Hget as ->. by rewrite bool_decide_eq_true_2.
  - destruct (per_function_table self !! func_name) as [tbl|] eqn:Ef;
      simpl in Hget.
    + rewrite (setdefault_empty_present _ _ _ Ef).
      destruct (tbl !! name) as [k0|] eqn:E; [|done].
      injection Hget as ->. rewrite bool_decide_eq_true_2; [|done].
      by destruct self.
    + by rewrite lookup_empty in Hget.
Qed.

(** No set, of whatever name in whatever function, changes a recorded
    entry. *)
Lemma set_preserves_recorded self func_name name k func_name' name' k' :
  get_ self func_name name = Ok k →
  get_ (set_ self func_name' name' k').1 func_name name = Ok k.
Proof.
  unfold SymbolKindTable_get, SymbolKindTable_set. intros Hget.
  destruct (is_state_variable name') eqn:Es'.
  - destruct (global_table self !! name') as [k0|] eqn:E'.
    + by destruct (bool_decide (k0 ≠ k')).
    + simpl. destruct (is_state_variable name); [|done].
      destruct (decide (name' = name)) as [->|Hn].
      * by rewrite E' in Hget.
      * by rewrite lookup_insert_ne.
  - unfold setdefault_empty.
    destruct (per_function_table self !! func_name') as [tbl|] eqn:Ef'.
    + destruct (tbl !! name') as [k0|] eqn:E'.
      * destruct (bool_decide (k0 ≠ k')); simpl; by destruct self.
      * simpl. destruct (is_state_variable name); [done|].
        destruct (decide (func_name' = func_name)) as [->|Hf].
        -- rewrite lookup_insert_eq. simpl. rewrite Ef' in Hget. simpl in Hget.
           destruct (decide (name' = name)) as [->|Hn].
           ++ by rewrite E' in Hget.
           ++ by rewrite lookup_insert_ne.
        -- by rewrite lookup_insert_ne.
    + rewrite lookup_empty. simpl.
      destruct (is_state_variable name); [done|].
      destruct (decide (func_name' = func_name)) as [->|Hf].
      * rewrite Ef' in Hget. simpl in Hget. by rewrite lookup_empty in Hget.
      * rewrite insert_insert_eq. by rewrite lookup_insert_ne.
Qed.

(** A set of a name that is not recorded records the kind and
    succeeds. *)
Lemma set_records self func_name name k e :
  get_ self func_name name = Raise e →
  (set_ self func_name name k).2 = Ok ()
  ∧ get_ (set_ self func_name name k).1 func_name name = Ok k.
Proof.
  unfold SymbolKindTable_get, SymbolKindTable_set. intros Hget.
  destruct (is_state_variable name) eqn:Es.
  - destruct (global_table self !! name) as [k0|] eqn:E; [done|]. simpl.
    split; [done|]. by rewrite lookup_insert_eq.
  - unfold setdefault_empty.
    destruct (per_function_table self !! func_name) as [tbl|] eqn:Ef;
      simpl in *.
    + destruct (tbl !! name) as [k0|] eqn:E; [done|]. simpl.
      split; [done|]. rewrite lookup_insert_eq. simpl.
      by rewrite lookup_insert_eq.
    + rewrite lookup_empty. simpl.
      split; [done|]. rewrite lookup_insert_eq. simpl.
      by rewrite lookup_insert_eq.
Qed.

End TableFacts.

(** C6: once a kind is recorded for a name (the global table for a state
    variable, the table of the owning function otherwise), a later set of
    that name with an equal kind leaves the table as it is, a later set
    with a different kind raises and leaves the table as it is, and no set
    at all changes the recorded entry. *)
Theorem SymbolKindTable_set_immutable
    (is_state_variable : string → bool) (self : SymbolKindTable)
    (func_name name : string) (k : kind) :
  SymbolKindTable_get is_state_variable self func_name name = Ok k →
  SymbolKindTable_set is_state_variable self func_name name k = (self, Ok ())
  ∧ (∀ k', k' ≠ k →
       ∃ e, SymbolKindTable_set is_state_variable self func_name name k'
            = (self, Raise e))
  ∧ (∀ func_name' name' k',
       SymbolKindTable_get is_state_variable
         (SymbolKindTable_set is_state_variable self func_name' name' k').1
         func_name name = Ok k).
Proof.
  intros Hget. split; [by apply set_recorded_same|]. split.
  - intros k' Hne. eexists. by apply set_recorded_other with (k := k).
  - intros. by apply set_preserves_recorded.
Qed.

Lemma SymbolKindTable_set_immutable_witness :
  let is_sv := λ name, startswith name "<" in
  SymbolKindTable_set is_sv SymbolKindTable_init "f" "<t>" (Some (Scalar true))
  = (SymbolKindTable_init, Ok ()).
Proof.
  intros is_sv.
  apply (SymbolKindTable_set_immutable is_sv SymbolKindTable_init "f" "<t>"
           (Some (Scalar true))).
  vm_compute. reflexivity.
Defined.

(** *** [map_sum] and [map_product_like] *)

(** The kinds of the children whose inference returned, in order. *)
Definition inferred (outcomes : list (result kind)) : list kind :=
  omap (λ o, match o with Ok k => Some k | Raise _ => None end) outcomes.

(** Left-to-right unification of a list of kinds, starting from [k0]. *)
Definition unify_all (ks : list kind) (k0 : kind) : result kind :=
  foldl (λ acc k, rbind acc (λ a, unify a k)) (Ok k0) ks.

(** No outcome is a failure other than cannot-infer-yet. *)
Definition no_hard_error (outcomes : list (result kind)) : Prop :=
  Forall (λ o, ∀ e, o = Raise e → e = UnableToInferKind) outcomes.

Lemma foldl_unify_raise (ks : list kind) (e : exception) :
  foldl (λ acc k, rbind acc (λ a, unify a k)) (Raise e) ks = Raise e.
Proof. by induction ks. Qed.

Lemma unify_all_cons k ks k0 :
  unify_all (k :: ks) k0 = rbind (unify k0 k) (unify_all ks).
Proof.
  unfold unify_all. simpl. destruct (unify k0 k) as [a|e]; simpl; [done|].
  apply foldl_unify_raise.
Qed.

Lemma product_loop_ok ks k0 :
  product_loop (map Ok ks) k0 = unify_all ks k0.
Proof.
  revert k0. induction ks as [|k ks IH]; intros k0; [done|].
  rewrite unify_all_cons. simpl. destruct (unify k0 k); simpl; [apply IH|done].
Qed.

Lemma product_loop_first_raise ks e rest k0 :
  product_loop (map Ok ks ++ Raise e :: rest) k0
  = rbind (unify_all ks k0) (λ _, Raise e).
Proof.
  revert k0. induction ks as [|k ks IH]; intros k0; [done|].
  rewrite unify_all_cons. simpl. destruct (unify k0 k); simpl; [apply IH|done].
Qed.

Lemma sum_loop_inferred outcomes k0 :
  no_hard_error outcomes →
  sum_loop outcomes k0 = unify_all (inferred outcomes) k0.
Proof.
  intros H. revert k0. induction H as [|o outcomes Ho _ IH]; intros k0; [done|].
  destruct o as [k|e].
  - change (inferred (Ok k :: outcomes)) with (k :: inferred outcomes).
    rewrite unify_all_cons. simpl. destruct (unify k0 k); simpl; [apply IH|done].
  - rewrite (Ho e eq_refl). simpl. apply IH.
Qed.

(** [unify] yields a kind as soon as one of its arguments is one. *)
Lemma unify_none a b : unify a b = Ok None → a = None ∧ b = None.
Proof.
  destruct a as [[|ra|ra|ca]|], b as [[|rb|rb|cb]|]; simpl; try done.
  by case_bool_decide.
Qed.

Lemma unify_not_unable a b : unify a b ≠ Raise UnableToInferKind.
Proof.
  destruct a as [[|ra|ra|ca]|], b as [[|rb|rb|cb]|]; simpl; try done.
  by case_bool_decide.
Qed.

Lemma unify_all_none ks k0 :
  unify_all ks k0 = Ok None ↔ k0 = None ∧ Forall (λ k, k = None) ks.
Proof.
  revert k0. induction ks as [|k ks IH]; intros k0.
  - unfold unify_all. simpl. split; [intros [= ->]; by split|by intros [-> _]].
  - rewrite unify_all_cons. split.
    + destruct (unify k0 k) as [a|e] eqn:E; simpl; [|done].
      intros H. apply IH in H as [-> Hks].
      apply unify_none in E as [-> ->]. split; [done|by constructor].
    + intros [-> H]. inversion H as [|? ? -> Hks]; subst. simpl.
      apply IH. by split.
Qed.

Lemma unify_all_not_unable ks k0 : unify_all ks k0 ≠ Raise UnableToInferKind.
Proof.
  revert k0. induction ks as [|k ks IH]; intros k0; [done|].
  rewrite unify_all_cons. destruct (unify k0 k) as [a|e] eqn:E; simpl.
  - apply IH.
  - intros [= ->]. by apply unify_not_unable in E.
Qed.

Section InferenceFacts.

Context {C : Type}.
Variable is_complex : C → bool.
Variable function_registry : gmap string (list kind → result kind).
Variable global_tbl local_tbl : gmap string kind.

Abbreviation infer := (rec is_complex function_registry global_tbl local_tbl).

(** A sum none of whose children fails with a hard error. *)
Lemma infer_sum children :
  no_hard_error (map infer children) →
  infer (Sum children)
  = match unify_all (inferred (map infer children)) None with
    | Ok None => Raise UnableToInferKind
    | other => other
    end.
Proof.
  intros H. simpl. unfold map_sum. rewrite (sum_loop_inferred _ _ H).
  by destruct (unify_all _ _) as [[k|]|e].
Qed.

Lemma infer_sum_unable children :
  no_hard_error (map infer children) →
  infer (Sum children) = Raise UnableToInferKind
  ↔ Forall (λ k, k = None) (inferred (map infer children)).
Proof.
  intros H. rewrite (infer_sum _ H). split.
  - destruct (unify_all _ _) as [[k|]|e] eqn:E; [done| |].
    + intros _. by apply unify_all_none in E as [_ ?].
    + intros [= ->]. by apply unify_all_not_unable in E.
  - intros Hall.
    by rewrite (proj2 (unify_all_none _ None) (conj eq_refl Hall)).
Qed.

Lemma infer_product_first_raise children ks e rest :
  map infer children = (map Ok ks ++ Raise e :: rest)%list →
  infer (Product children) = rbind (unify_all ks None) (λ _, Raise e).
Proof.
  intros H. simpl. unfold map_product_like. rewrite H.
  apply product_loop_first_raise.
Qed.

Lemma infer_product_all children ks :
  map infer children = map Ok ks →
  infer (Product children) = unify_all ks None.
Proof.
  intros H. simpl. unfold map_product_like. rewrite H. apply product_loop_ok.
Qed.

End InferenceFacts.

(** C7 (as the code has it): for a sum none of whose children fails with a
    hard error, inference unifies, in order, the kinds of exactly the
    children whose inference returns, ignoring those that raise
    cannot-infer-yet, and raises cannot-infer-yet exactly when no kind is
    left (every returned kind is [None], in particular when no child is
    inferable).  For a product, the operands are inferred and unified from
    left to right: the first operand whose inference raises makes the whole
    inference raise the same exception, unless unifying the operands before
    it has failed already; when every operand is inferable the result
    unifies the kinds of all operands.  A quotient is the product of its
    numerator and denominator. *)
Theorem sum_product_inference {C : Type} (is_complex : C → bool)
    (function_registry : gmap string (list kind → result kind))
    (global_tbl local_tbl : gmap string kind) :
  let infer := rec is_complex function_registry global_tbl local_tbl in
  (∀ children,
     no_hard_error (map infer children) →
     infer (Sum children)
     = match unify_all (inferred (map infer children)) None with
       | Ok None => Raise UnableToInferKind
       | other => other
       end
     ∧ (infer (Sum children) = Raise UnableToInferKind
        ↔ Forall (λ k, k = None) (inferred (map infer children))))
  ∧ (∀ children ks e rest,
       map infer children = (map Ok ks ++ Raise e :: rest)%list →
       infer (Product children) = rbind (unify_all ks None) (λ _, Raise e))
  ∧ (∀ children ks,
       map infer children = map Ok ks →
       infer (Product children) = unify_all ks None)
  ∧ (∀ numerator denominator,
       infer (Quotient numerator denominator)
       = infer (Product [numerator; denominator])).
Proof.
  intros infer. repeat split.
  - by apply infer_sum.
  - by apply infer_sum_unable.
  - by apply infer_sum_unable.
  - intros. by eapply infer_product_first_raise.
  - intros. by apply infer_product_all.
Qed.

(** The inference of the counterexamples: integer literals, no registered
    function, empty tables. *)
Definition infer0 : expr Z → result kind := rec (λ _ : Z, false) ∅ ∅ ∅.

Lemma sum_product_inference_witness :
  infer0 (Sum [Var "u"; Constant 1%Z]) = Ok (Some (Scalar true))
  ∧ infer0 (Product [Constant 1%Z; Var "u"; Constant 2%Z])
    = Raise UnableToInferKind.
Proof.
  destruct (sum_product_inference (λ _ : Z, false) ∅ ∅ ∅) as (Hsum & Hprod & _).
  split.
  - destruct (Hsum [Var "u"; Constant 1%Z]) as [-> _]; [|reflexivity].
    vm_compute. repeat (constructor; [intros e; congruence|]). constructor.
  - apply (Hprod [Constant 1%Z; Var "u"; Constant 2%Z] [Some (Scalar true)]
             UnableToInferKind [Ok (Some (Scalar true))]).
    reflexivity.
Defined.

(** C7 as stated fails twice: a sum whose only child is inferable (a power,
    for which [map_power] returns [None]) raises cannot-infer-yet, and a
    product with an uninferable operand raises a hard error when an operand
    before it does. *)
Lemma sum_product_claim_fails :
  (infer0 (Power (Constant 2%Z) (Constant 2%Z)) = Ok None
   ∧ infer0 (Sum [Power (Constant 2%Z) (Constant 2%Z)])
     = Raise UnableToInferKind)
  ∧ (infer0 (Var "u") = Raise UnableToInferKind
     ∧ infer0 (Product [LogicalNot (Constant 1%Z); Var "u"])
       = Raise (ValueError "logical operations are undefined")).
Proof. repeat split. Qed.

(** *** [SymbolKindFinder] *)

Lemma list_pop_length {A} (l l' : list A) (x : A) :
  list_pop l = Some (l', x) → length l = S (length l').
Proof.
  unfold list_pop. destruct (reverse l) as [|y r] eqn:E; [done|].
  intros [= <- <-]. rewrite <- (length_reverse l), E. simpl.
  by rewrite length_reverse.
Qed.

Lemma list_pop_none {A} (l : list A) : list_pop l = None → l = [].
Proof.
  unfold list_pop. destruct (reverse l) as [|y r] eqn:E; [|done].
  intros _. apply (f_equal reverse) in E. by rewrite reverse_involutive in E.
Qed.

Section FinderFacts.

Variable is_state_variable : string → bool.
Context {C : Type}.
Variable is_complex : C → bool.
Variable function_registry : gmap string (list kind → result kind).

Abbreviation state := (@finder_state C).
Abbreviation turn_ := (finder_turn is_state_variable is_complex function_registry).
Abbreviation process_ := (process is_state_variable is_complex function_registry).
Abbreviation loop_ := (finder_loop is_state_variable is_complex function_registry).

(** The condition under which the loop gives up. *)
Definition stalled (s : state) : Prop :=
  insn_queue s = [] ∧ insn_queue_push_buffer s ≠ [] ∧ made_progress s = false.

Lemma refill_le (s s1 : state) :
  refill s = Ok s1 → finder_measure s1 ≤ finder_measure s.
Proof.
  unfold refill, finder_measure. destruct (insn_queue s) as [|i q] eqn:E.
  - destruct (made_progress s); [|done]. intros [= <-]. simpl. lia.
  - intros [= <-]. by rewrite E.
Qed.

Lemma process_lt (s s' : state) :
  process_ s = Continue s' → finder_measure s' < finder_measure s.
Proof.
  unfold process. destruct (list_pop (insn_queue s)) as [[q [f insn]]|] eqn:E;
    [|done].
  apply list_pop_length in E. unfold finder_measure. rewrite E.
  destruct insn as [|assignee expression|]; [done| |].
  - destruct (rec _ _ _ _ _) as [k|e].
    + destruct (SymbolKindTable_set _ _ _ _ _) as [tbl [[]|e]]; [|done].
      intros [= <-]. simpl. destruct (made_progress s); nia.
    + destruct e; try done. intros [= <-]. simpl. rewrite length_app. simpl.
      destruct (made_progress s); nia.
  - intros [= <-]. simpl. destruct (made_progress s); nia.
Qed.

(** Every turn that continues the loop decreases the measure. *)
Lemma finder_turn_lt (s s' : state) :
  turn_ s = Continue s' → finder_measure s' < finder_measure s.
Proof.
  unfold finder_turn. intros H.
  assert (match refill s with Ok s1 => process_ s1 | Raise e => Raised e end
          = Continue s') as H'.
  { destruct (insn_queue s), (insn_queue_push_buffer s); done. }
  destruct (refill s) as [s1|e] eqn:E; [|done].
  apply refill_le in E. apply process_lt in H'. lia.
Qed.

(** With fuel beyond the measure the loop returns or raises. *)
Lemma finder_loop_total (fuel : nat) (s : state) :
  finder_measure s < fuel → is_Some (loop_ fuel s).
Proof.
  revert s. induction fuel as [|fuel IH]; intros s Hlt; [lia|].
  simpl. destruct (turn_ s) as [s'|tbl|e] eqn:E; [|done..].
  apply IH. apply finder_turn_lt in E. lia.
Qed.

(** The loop raises its own failure exactly in a stalled state. *)
Lemma finder_turn_stalled (s : state) :
  stalled s → turn_ s = Raised (RuntimeError "failed to infer types").
Proof.
  intros (Hq & Hb & Hp). unfold finder_turn, refill. rewrite Hq, Hp.
  by destruct (insn_queue_push_buffer s).
Qed.

Lemma finder_turn_raised (s : state) (e : exception) :
  turn_ s = Raised e →
  e = RuntimeError "failed to infer types" ∧ stalled s
  ∨ ∃ s1, refill s = Ok s1 ∧ process_ s1 = Raised e.
Proof.
  unfold finder_turn, stalled. intros H.
  destruct (insn_queue s) as [|i q] eqn:Eq.
  - destruct (insn_queue_push_buffer s) as [|j b] eqn:Eb; [done|].
    unfold refill in *. rewrite Eq in *.
    destruct (made_progress s); simpl in H.
    + right. eauto.
    + left. by injection H as <-.
  - right. unfold refill in *. rewrite Eq in *. eauto.
Qed.

(** The loop returns exactly when both queues are empty. *)
Lemma finder_turn_return (s : state) (tbl : SymbolKindTable) :
  turn_ s = Return tbl
  ↔ insn_queue s = [] ∧ insn_queue_push_buffer s = [] ∧ tbl = table s.
Proof.
  unfold finder_turn. split.
  - intros H.
    assert (insn_queue s = [] ∧ insn_queue_push_buffer s = []
            ∧ tbl = table s
            ∨ match refill s with Ok s1 => process_ s1 | Raise e => Raised e end
              = Return tbl) as [?|H']; [|done|].
    { destruct (insn_queue s), (insn_queue_push_buffer s); auto.
      left. by injection H as <-. }
    destruct (refill s) as [s1|e]; [|done]. unfold process in H'.
    destruct (list_pop _) as [[q [f insn]]|]; [|done].
    destruct insn; [done| |done].
    destruct (rec _ _ _ _ _) as [k|[]]; try done.
    by destruct (SymbolKindTable_set _ _ _ _ _) as [? [[]|?]].
  - by intros (-> & -> & ->).
Qed.

(** The states of one pass over a queue of [n] instructions: from the
    state the pass starts in, through the turns that find the queue
    non-empty. *)
Inductive in_pass (n : nat) : state → Prop :=
| pass_start s :
    length (insn_queue s) = n → insn_queue_push_buffer s = [] →
    made_progress s = false → in_pass n s
| pass_turn s s' :
    in_pass n s → insn_queue s ≠ [] → turn_ s = Continue s' → in_pass n s'.

Lemma in_pass_unresolved (n : nat) (s : state) :
  in_pass n s →
  length (insn_queue s) + length (insn_queue_push_buffer s) ≤ n
  ∧ (made_progress s = true →
     length (insn_queue s) + length (insn_queue_push_buffer s) < n).
Proof.
  induction 1 as [s Hq Hb Hp|s s' _ [IH1 IH2] Hne Hturn].
  - rewrite Hq, Hb, Hp. simpl. split; [lia|done].
  - unfold finder_turn, refill in Hturn.
    destruct (insn_queue s) as [|i q] eqn:Eq; [done|]. rewrite <- Eq in *.
    clear Eq Hne. unfold process in Hturn.
    destruct (list_pop (insn_queue s)) as [[q' [f insn]]|] eqn:E; [|done].
    apply list_pop_length in E. rewrite E in *.
    destruct insn as [|assignee expression|]; [done| |].
    + destruct (rec _ _ _ _ _) as [k|e].
      * destruct (SymbolKindTable_set _ _ _ _ _) as [tbl [[]|e]]; [|done].
        injection Hturn as <-. simpl. lia.
      * destruct e; try done. injection Hturn as <-. simpl.
        rewrite length_app. simpl. split; [lia|]. intros Hp. apply IH2 in Hp. lia.
    + injection Hturn as <-. simpl. split; [lia|]. intros Hp. apply IH2 in Hp. lia.
Qed.

(** When a pass that made progress is over, the next pass starts on a
    strictly shorter queue. *)
Lemma pass_progress_shrinks (n : nat) (s : state) :
  in_pass n s → insn_queue s = [] → made_progress s = true →
  ∃ s1, refill s = Ok s1
        ∧ in_pass (length (insn_queue s1)) s1
        ∧ length (insn_queue s1) < n.
Proof.
  intros Hpass Hq Hp. apply in_pass_unresolved in Hpass as [_ Hlt].
  specialize (Hlt Hp). unfold refill. rewrite Hq, Hp in *. simpl in *.
  eexists. split; [done|]. split; [by apply pass_start|]. simpl. lia.
Qed.

End FinderFacts.

(** C5 (as the code has it): the solver terminates on every list of
    functions and instructions, returning the table when both queues
    are empty, or raising.  Its own
    failure, "failed to infer types", is raised exactly when the primary
    queue is empty, the overflow buffer is not, and the pass recorded no
    progress; every other failure is raised while an instruction is
    processed.  In a pass that recorded progress fewer instructions are
    unresolved than the pass started with, and the next pass starts on a
    strictly shorter queue. *)
Theorem SymbolKindFinder_terminates (is_state_variable : string → bool)
    {C : Type} (is_complex : C → bool)
    (function_registry : gmap string (list kind → result kind)) :
  (∀ names functions,
     is_Some (SymbolKindFinder_call is_state_variable is_complex
                function_registry names functions))
  ∧ (∀ s tbl,
       finder_turn is_state_variable is_complex function_registry s = Return tbl
       ↔ insn_queue s = [] ∧ insn_queue_push_buffer s = [] ∧ tbl = table s)
  ∧ (∀ s, stalled s →
          finder_turn is_state_variable is_complex function_registry s
          = Raised (RuntimeError "failed to infer types"))
  ∧ (∀ s e,
       finder_turn is_state_variable is_complex function_registry s = Raised e →
       e = RuntimeError "failed to infer types" ∧ stalled s
       ∨ ∃ s1, refill s = Ok s1
               ∧ process is_state_variable is_complex function_registry s1
                 = Raised e)
  ∧ (∀ n s,
       in_pass is_state_variable is_complex function_registry n s →
       made_progress s = true →
       length (insn_queue s) + length (insn_queue_push_buffer s) < n)
  ∧ (∀ n s,
       in_pass is_state_variable is_complex function_registry n s →
       insn_queue s = [] → made_progress s = true →
       ∃ s1, refill s = Ok s1
             ∧ in_pass is_state_variable is_complex function_registry
                 (length (insn_queue s1)) s1
             ∧ length (insn_queue s1) < n).
Proof.
  split; [|split; [|split; [|split; [|split]]]].
  - intros names functions. unfold SymbolKindFinder_call.
    apply finder_loop_total. lia.
  - apply finder_turn_return.
  - apply finder_turn_stalled.
  - apply finder_turn_raised.
  - intros n s Hpass. by apply in_pass_unresolved in Hpass as [_ ?].
  - apply pass_progress_shrinks.
Qed.

(** The functions of the examples: state variables are the names that
    start with [<]; integer literals; no registered function. *)
Definition finder0 (names : list string)
    (functions : list (list (@instruction Z))) :=
  SymbolKindFinder_call (λ name, startswith name "<") (λ _ : Z, false) ∅
    names functions.

(** [x := y * 2] is deferred to a second pass, after [y := 1]. *)
Example finder_two_passes :
  finder0 ["f"] [[AssignExpression "y" (Constant 1%Z);
                  AssignExpression "x" (Product [Var "y"; Constant 2%Z])]]
  = Some (Ok {| global_table := global_table SymbolKindTable_init;
                per_function_table :=
                  {[ "f" := <["x" := Some (Scalar true)]>
                              {[ "y" := Some (Scalar true) ]} ]} |}).
Proof. vm_compute. reflexivity. Qed.

Example finder_stalls :
  finder0 ["f"] [[AssignExpression "x" (Product [Var "y"; Constant 2%Z])]]
  = Some (Raise (RuntimeError "failed to infer types")).
Proof. vm_compute. reflexivity. Qed.

Lemma SymbolKindFinder_terminates_witness :
  finder_turn (λ name, startswith name "<") (λ _ : Z, false) ∅
    {| insn_queue := [];
       insn_queue_push_buffer := [("f", AssignSolved)];
       made_progress := false;
       table := SymbolKindTable_init |}
  = Raised (RuntimeError "failed to infer types").
Proof.
  apply (proj1 (proj2 (proj2 (SymbolKindFinder_terminates
                         (λ name, startswith name "<") (λ _ : Z, false) ∅)))).
  repeat split. discriminate.
Defined.

(** C5 as stated fails: the solver also fails fatally while the primary
    queue is not empty, here on a hard kind error of the first instruction
    it processes. *)
Lemma finder_claim_fails :
  let functions := [[AssignExpression "x" (LogicalNot (Constant 1%Z))]] in
  finder0 ["f"] functions
  = Some (Raise (ValueError "logical operations are undefined"))
  ∧ insn_queue (finder_init ["f"] functions) ≠ [].
Proof. split; [vm_compute; reflexivity|discriminate]. Qed.

End DataFacts.

(** ** The numpy interpreter *)

Module ExecNumpyFacts.
Import ExecNumpy.

(** *** [set_up] *)

(** A name that bears one of the reserved prefixes of the language. *)
Definition bears_reserved_prefix (name : string) : bool :=
  startswith name "<t>" || startswith name "<dt>" || startswith name "<p>"
  || startswith name "<state>" || startswith name "<func>".

Lemma startswith_cons (a b : Ascii.ascii) (p name : string) :
  startswith (String b name) (String a p)
  = if Ascii.ascii_dec a b then startswith name p else false.
Proof. reflexivity. Qed.

Lemma startswith_empty (name : string) : startswith name "" = true.
Proof. by destruct name. Qed.

Lemma reserved_prefix_starts_with_lt (name : string) :
  bears_reserved_prefix name = true → startswith name "<" = true.
Proof.
  unfold bears_reserved_prefix. destruct name as [|a name]; [done|].
  rewrite !startswith_cons.
  destruct (Ascii.ascii_dec _ a); [by rewrite startswith_empty|done].
Qed.

Lemma append_inj_r (p a b : string) : p +:+ a = p +:+ b → a = b.
Proof. induction p as [|c p IH]; simpl; [done|]. intros [= H]. auto. Qed.

Lemma state_name_not_t (key : string) : "<state>" +:+ key ≠ "<t>".
Proof. done. Qed.

Lemma state_name_not_dt (key : string) : "<state>" +:+ key ≠ "<dt>".
Proof. done. Qed.

Lemma state_name_permanent (key : string) :
  is_permanent ("<state>" +:+ key) = true.
Proof. unfold is_permanent, startswith. simpl. by destruct key. Qed.

(** The loop raises as soon as some key starts with [<]. *)
Lemma set_up_loop_raises (items : list (string * value)) (s : state) :
  Exists (λ item, startswith item.1 "<" = true) items →
  ∃ s', set_up_loop items s
        = (s', Raise (ValueError "state variables may not start with '<'")).
Proof.
  intros H. revert s. induction H as [[key val] items Hk|[key val] items _ IH];
    intros s; simpl in *.
  - rewrite Hk. eauto.
  - destruct (startswith key "<"); eauto.
Qed.

(** Without such a key the loop stores every item and nothing else. *)
Lemma set_up_loop_ok (items : list (string * value)) (s : state) :
  Forall (λ item, startswith item.1 "<" = false) items →
  NoDup items.*1 →
  ∃ s', set_up_loop items s = (s', Ok ())
        ∧ (∀ key val, (key, val) ∈ items → s' !! ("<state>" +:+ key) = Some val)
        ∧ (∀ name, (∀ key, key ∈ items.*1 → name ≠ "<state>" +:+ key) →
                   s' !! name = s !! name).
Proof.
  intros H. revert s. induction H as [|[key val] items Hk _ IH]; intros s Hnd.
  - exists s. split; [done|]. split; [|done]. intros ?? Hin. by inversion Hin.
  - simpl in *. rewrite Hk. apply NoDup_cons in Hnd as [Hnotin Hnd].
    destruct (IH (<["<state>" +:+ key := val]> s) Hnd) as (s' & -> & Hin & Hout).
    exists s'. split; [done|]. split.
    + intros key' val' [[= -> ->]|Hin']%elem_of_cons; [|by apply Hin].
      rewrite Hout; [by rewrite lookup_insert_eq|].
      intros key' Hin' Heq. apply append_inj_r in Heq as <-. done.
    + intros name Hname. rewrite Hout.
      * rewrite lookup_insert_ne; [done|]. intros <-.
        apply (Hname key); [apply elem_of_cons; by left|done].
      * intros key' Hin'. apply Hname, elem_of_cons. by right.
Qed.

Section SetUp.

Variable self_state : state.
Variable t_start dt_start : value.
Variable components : gmap string value.

Lemma set_up_raises (key : string) :
  is_Some (components !! key) → startswith key "<" = true →
  ∃ s', set_up self_state t_start dt_start components
        = (s', Raise (ValueError "state variables may not start with '<'")).
Proof.
  intros [val Hval] Hk. unfold set_up. apply set_up_loop_raises.
  apply Exists_exists. exists (key, val). split; [|done].
  by apply elem_of_map_to_list.
Qed.

Lemma set_up_ok :
  (∀ key, is_Some (components !! key) → startswith key "<" = false) →
  ∃ s', set_up self_state t_start dt_start components = (s', Ok ())
        ∧ s' !! "<t>" = Some t_start
        ∧ s' !! "<dt>" = Some dt_start
        ∧ (∀ key val, components !! key = Some val →
                      s' !! ("<state>" +:+ key) = Some val)
        ∧ (∀ name, name ≠ "<t>" → name ≠ "<dt>" →
                   (∀ key, is_Some (components !! key) →
                           name ≠ "<state>" +:+ key) →
                   s' !! name = self_state !! name).
Proof.
  intros Hkeys. unfold set_up.
  destruct (set_up_loop_ok (map_to_list components)
              (<["<dt>" := dt_start]> (<["<t>" := t_start]> self_state)))
    as (s' & Hrun & Hin & Hout).
  { apply Forall_forall. intros [key val] Hin%elem_of_map_to_list. simpl.
    apply Hkeys. by exists val. }
  { apply NoDup_fst_map_to_list. }
  exists s'. split; [done|]. repeat split.
  - rewrite Hout; [by rewrite lookup_insert_ne, lookup_insert_eq|].
    intros key _ Heq. by apply (state_name_not_t key).
  - rewrite Hout; [by rewrite lookup_insert_eq|].
    intros key _ Heq. by apply (state_name_not_dt key).
  - intros key val Hval. by apply Hin, elem_of_map_to_list.
  - intros name Ht Hdt Hname. rewrite Hout.
    + by rewrite !lookup_insert_ne.
    + intros key [[key' val] [-> Hin']]%list_elem_of_fmap. simpl.
      apply Hname. exists val. by apply elem_of_map_to_list.
Qed.

End SetUp.

(** C9 (as the code has it): [set_up] raises for every components mapping
    with a name that starts with [<], which every name bearing a reserved
    prefix does; for every mapping without such a name it succeeds, sets
    [<t>] to [t_start] and [<dt>] to [dt_start], stores each component
    value under ["<state>"] prepended to its key, and leaves every other
    entry of the state as it was; each name it writes is one the per-step
    clean-up keeps. *)
Theorem set_up_seeds (self_state : state) (t_start dt_start : value)
    (components : gmap string value) :
  (∀ key, is_Some (components !! key) →
          startswith key "<" = true ∨ bears_reserved_prefix key = true →
          ∃ s', set_up self_state t_start dt_start components
                = (s', Raise (ValueError "state variables may not start with '<'")))
  ∧ ((∀ key, is_Some (components !! key) → startswith key "<" = false) →
     ∃ s', set_up self_state t_start dt_start components = (s', Ok ())
           ∧ s' !! "<t>" = Some t_start
           ∧ s' !! "<dt>" = Some dt_start
           ∧ (∀ key val, components !! key = Some val →
                         s' !! ("<state>" +:+ key) = Some val
                         ∧ is_permanent ("<state>" +:+ key) = true)
           ∧ (∀ name, name ≠ "<t>" → name ≠ "<dt>" →
                      (∀ key, is_Some (components !! key) →
                              name ≠ "<state>" +:+ key) →
                      s' !! name = self_state !! name)).
Proof.
  split.
  - intros key Hin [Hk|Hk]; [|apply reserved_prefix_starts_with_lt in Hk];
      by apply set_up_raises with (key := key).
  - intros Hkeys.
    destruct (set_up_ok self_state t_start dt_start components Hkeys)
      as (s' & Hrun & Ht & Hdt & Hin & Hout).
    exists s'. repeat split; try done.
    + by apply Hin.
    + apply state_name_permanent.
Qed.

(** The state of the examples: [set_up(t_start=0, dt_start=1, {y: [2, 0]})]
    on a fresh interpreter. *)
Definition state0 : state :=
  (set_up ∅ (Number 0) (Number 1) {[ "y" := Vector [2%Q; 0%Q] ]}).1.

Example set_up_example :
  set_up ∅ (Number 0) (Number 1) {[ "y" := Vector [2%Q; 0%Q] ]}
  = (<["<state>y" := Vector [2%Q; 0%Q]]>
       (<["<dt>" := Number 1]> (<["<t>" := Number 0]> ∅)), Ok ()).
Proof. vm_compute. reflexivity. Qed.

Lemma set_up_seeds_witness :
  ∃ s', set_up ∅ (Number 0) (Number 1) {[ "y" := Vector [2%Q; 0%Q] ]}
        = (s', Ok ())
        ∧ s' !! "<t>" = Some (Number 0)
        ∧ s' !! "<dt>" = Some (Number 1).
Proof.
  destruct (proj2 (set_up_seeds ∅ (Number 0) (Number 1)
                     {[ "y" := Vector [2%Q; 0%Q] ]}))
    as (s' & Hrun & Ht & Hdt & _).
  - intros key [val Hval]. apply lookup_singleton_Some in Hval as [<- _].
    reflexivity.
  - exists s'. auto.
Defined.

(** C9 as stated fails: a component name that starts with [<] without
    bearing a reserved prefix is rejected as well. *)
Lemma set_up_claim_fails :
  bears_reserved_prefix "<x" = false
  ∧ (set_up ∅ (Number 0) (Number 1) {[ "<x" := Number 2 ]}).2
    = Raise (ValueError "state variables may not start with '<'").
Proof. split; vm_compute; reflexivity. Qed.

(** *** The clean-up of [run] *)

(** Only names the clean-up keeps are bound. *)
Definition only_permanent (s : state) : Prop :=
  ∀ name, is_Some (s !! name) → is_permanent name = true.

Lemma is_permanent_spec (name : string) :
  is_permanent name = true
  ↔ startswith name "<state>" = true ∨ startswith name "<p>" = true
    ∨ name = "<t>" ∨ name = "<dt>".
Proof.
  unfold is_permanent. rewrite !orb_true_iff, bool_decide_eq_true.
  rewrite !elem_of_cons, elem_of_nil. tauto.
Qed.

Lemma lookup_discard (s : state) (name : string) :
  discard s !! name = if is_permanent name then s !! name else None.
Proof.
  unfold discard. destruct (is_permanent name) eqn:E.
  - destruct (s !! name) as [v|] eqn:Ev.
    + by apply map_lookup_filter_Some.
    + apply map_lookup_filter_None. by left.
  - apply map_lookup_filter_None. right. intros v _. simpl. by rewrite E.
Qed.

Lemma discard_only_permanent (s : state) : only_permanent (discard s).
Proof.
  intros name [v Hv]. rewrite lookup_discard in Hv.
  by destruct (is_permanent name).
Qed.

Lemma adjust_only_permanent t_end (s s1 : state) (last last1 : bool) :
  adjust t_end s last = Ok (s1, last1) → only_permanent s → only_permanent s1.
Proof.
  unfold adjust. destruct (number_at s "<t>") as [t|]; [|done].
  destruct (number_at s "<dt>") as [dt|]; [|done]. simpl.
  destruct (Qle_bool t_end (t + dt)).
  - destruct (Qle_bool t t_end); [|done]. intros [= <- <-] Hs name.
    destruct (decide (name = "<dt>")) as [->|Hne]; [done|].
    rewrite lookup_insert_ne; [apply Hs|done].
  - by intros [= <- <-].
Qed.

Section RunFacts.

Variable step_plan : state → execution.

Abbreviation body := (run_body step_plan).
Abbreviation loop := (run_loop step_plan).

(** The state a turn leaves is the cleaned state the step plan left. *)
Lemma run_body_state (s : state) (last : bool) :
  state_of (body s last).2
  = discard match step_plan s with
            | Finished _ after | Aborted _ after _ => after
            end.
Proof.
  unfold run_body. destruct (step_plan s) as [events after|events after e].
  - destruct (discard after !! "<t>"); [by destruct last|done].
  - destruct e; try done; by destruct (discard after !! "<t>").
Qed.

Lemma run_body_only_permanent (s : state) (last : bool) :
  only_permanent (state_of (body s last).2).
Proof. rewrite run_body_state. apply discard_only_permanent. Qed.

(** The state [run] is left in. *)
Definition end_state (e : run_end) : state :=
  match e with
  | Stopped s | Raising s _ | Running s _ => s
  end.

Lemma run_loop_only_permanent (fuel : nat) (t_end : Q) (s : state) (last : bool) :
  only_permanent s →
  Forall (λ it, only_permanent (started it)) (loop fuel t_end s last).1
  ∧ only_permanent (end_state (loop fuel t_end s last).2).
Proof.
  revert s last. induction fuel as [|fuel IH]; intros s last Hs; [by split|].
  simpl. destruct (adjust t_end s last) as [[s1 last1]|e] eqn:Ea; [|by split].
  pose proof (adjust_only_permanent _ _ _ _ _ Ea Hs) as Hs1.
  pose proof (run_body_only_permanent s1 last1) as Hc.
  destruct (body s1 last1) as [events c]. simpl in Hc.
  destruct c as [s2 last2|s2|s2 e]; simpl in *.
  - destruct (IH s2 last2 Hc) as [H1 H2].
    destruct (loop fuel t_end s2 last2) as [its e]. simpl in *.
    split; [by constructor|done].
  - split; [by repeat constructor|done].
  - split; [by repeat constructor|done].
Qed.

(** After the first turn the loop of [run] only ever sees states without
    ephemeral entries. *)
Lemma run_loop_tail_only_permanent (fuel : nat) (t_end : Q) (s : state)
    (last : bool) :
  Forall (λ it, only_permanent (started it)) (tail (loop fuel t_end s last).1)
  ∧ ((loop fuel t_end s last).1 ≠ [] →
     only_permanent (end_state (loop fuel t_end s last).2)).
Proof.
  destruct fuel as [|fuel]; [by split|].
  simpl. destruct (adjust t_end s last) as [[s1 last1]|e] eqn:Ea; [|by split].
  pose proof (run_body_only_permanent s1 last1) as Hc.
  destruct (body s1 last1) as [events c]. simpl in Hc.
  destruct c as [s2 last2|s2|s2 e]; simpl in *; [|by split..].
  destruct (run_loop_only_permanent fuel t_end s2 last2 Hc) as [H1 H2].
  destruct (loop fuel t_end s2 last2) as [its e]. by split.
Qed.

(** A fail-step never leaves [run]. *)
Lemma run_body_no_fail_step (s s' : state) (last : bool) (events : list event)
    (e : exception) :
  body s last = (events, Propagate s' e) → e ≠ FailStepException.
Proof.
  unfold run_body. destruct (step_plan s) as [evs after|evs after e'].
  - destruct (discard after !! "<t>"); [by destruct last|by intros [= _ _ <-]].
  - destruct e'; try (by intros [= _ _ <-]).
    destruct (discard after !! "<t>"); [done|by intros [= _ _ <-]].
Qed.

Lemma adjust_no_fail_step t_end (s : state) (last : bool) (e : exception) :
  adjust t_end s last = Raise e → e ≠ FailStepException.
Proof.
  unfold adjust, number_at.
  destruct (s !! "<t>") as [[t|]|]; simpl; try (by intros [= <-]).
  destruct (s !! "<dt>") as [[dt|]|]; simpl; try (by intros [= <-]).
  destruct (Qle_bool t_end (t + dt)); [|done].
  destruct (Qle_bool t t_end); [done|by intros [= <-]].
Qed.

Lemma run_loop_no_fail_step (fuel : nat) (t_end : Q) (s s' : state)
    (last : bool) (e : exception) :
  (loop fuel t_end s last).2 = Raising s' e → e ≠ FailStepException.
Proof.
  revert s last. induction fuel as [|fuel IH]; intros s last; [done|].
  simpl. destruct (adjust t_end s last) as [[s1 last1]|e'] eqn:Ea.
  - destruct (body s1 last1) as [events c] eqn:Eb.
    destruct c as [s2 last2|s2|s2 e']; simpl.
    + specialize (IH s2 last2).
      destruct (loop fuel t_end s2 last2) as [its e'']. apply IH.
    + done.
    + intros [= _ <-]. by eapply run_body_no_fail_step.
  - simpl. intros [= _ <-]. by eapply adjust_no_fail_step.
Qed.

End RunFacts.

(** C10: whatever the step plan does, the state a turn of the loop of [run]
    leaves binds only persistent names (names starting with [<state>] or
    [<p>], [<t>] and [<dt>]); when the turn ends in [StepCompleted] or in
    [StepFailed] it is the state the step plan left with exactly the
    persistent entries kept; so from the second turn on, and when it ends,
    [run] only sees states without ephemeral entries. *)
Theorem run_discards_ephemeral (step_plan : state → execution) :
  (∀ s last name,
     is_Some (state_of (run_body step_plan s last).2 !! name) →
     startswith name "<state>" = true ∨ startswith name "<p>" = true
     ∨ name = "<t>" ∨ name = "<dt>")
  ∧ (∀ s last events after,
       step_plan s = Finished events after
       ∨ step_plan s = Aborted events after FailStepException →
       ∀ name,
         state_of (run_body step_plan s last).2 !! name
         = if is_permanent name then after !! name else None)
  ∧ (∀ fuel t_end s last,
       Forall (λ it, only_permanent (started it))
              (tail (run_loop step_plan fuel t_end s last).1)
       ∧ ((run_loop step_plan fuel t_end s last).1 ≠ [] →
          only_permanent (end_state (run_loop step_plan fuel t_end s last).2))).
Proof.
  split; [|split].
  - intros s last name H. apply is_permanent_spec.
    by apply (run_body_only_permanent step_plan s last).
  - intros s last events after H name. rewrite run_body_state, lookup_discard.
    by destruct H as [-> | ->].
  - apply run_loop_tail_only_permanent.
Qed.

(** A step plan that binds an ephemeral [tmp] and then fails the step. *)
Definition plan_tmp_fail (s : state) : execution :=
  Aborted [] (<["tmp" := Number 3]> s) FailStepException.

Lemma run_discards_ephemeral_witness :
  state_of (run_body plan_tmp_fail state0 false).2 !! "tmp" = None
  ∧ state_of (run_body plan_tmp_fail state0 false).2 !! "<state>y"
    = Some (Vector [2%Q; 0%Q]).
Proof.
  pose proof (proj1 (proj2 (run_discards_ephemeral plan_tmp_fail))
                state0 false [] (<["tmp" := Number 3]> state0)
                (or_intror eq_refl)) as H.
  split.
  - apply (H "tmp").
  - rewrite (H "<state>y"). vm_compute. reflexivity.
Defined.

(** *** Failed steps *)

Lemma run_body_fail_step (step_plan : state → execution) (s after : state)
    (last : bool) (events : list StateComputed) (t' : value) :
  step_plan s = Aborted events after FailStepException →
  after !! "<t>" = Some t' →
  run_body step_plan s last
  = (map Computed events ++ [StepFailed t'], Next (discard after) last).
Proof.
  intros Hplan Ht. unfold run_body. rewrite Hplan, lookup_discard. simpl.
  by rewrite Ht.
Qed.

Lemma adjust_lookup_t t_end (s s1 : state) (last last1 : bool) :
  adjust t_end s last = Ok (s1, last1) → s1 !! "<t>" = s !! "<t>".
Proof.
  unfold adjust. destruct (number_at s "<t>") as [t|]; [|done].
  destruct (number_at s "<dt>") as [dt|]; [|done]. simpl.
  destruct (Qle_bool t_end (t + dt)).
  - destruct (Qle_bool t t_end); [|done]. intros [= <- <-].
    by rewrite lookup_insert_ne.
  - by intros [= <- <-].
Qed.

(** C3 (as the code has it): when the step plan of a turn signals
    fail-step, the turn yields the events of the plan and then a
    [StepFailed] whose [t] is the value of [<t>] in the state the failed
    execution left (the value [<t>] had before the step whenever the failed
    execution did not assign [<t>]); the loop goes on with the next turn,
    from that state cleaned of its ephemeral entries and with [last_step] as
    it was; and [run] never ends with a [FailStepException]. *)
Theorem fail_step_retries (step_plan : state → execution) (t_end : Q)
    (s s1 after : state) (last last1 : bool) (events : list StateComputed)
    (t' : value) :
  adjust t_end s last = Ok (s1, last1) →
  step_plan s1 = Aborted events after FailStepException →
  after !! "<t>" = Some t' →
  run_body step_plan s1 last1
  = (map Computed events ++ [StepFailed t'], Next (discard after) last1)
  ∧ (∀ fuel,
       run_loop step_plan (S fuel) t_end s last
       = ({| started := s1; marked_last := last1;
             yielded := map Computed events ++ [StepFailed t'] |}
          :: (run_loop step_plan fuel t_end (discard after) last1).1,
          (run_loop step_plan fuel t_end (discard after) last1).2))
  ∧ (after !! "<t>" = s1 !! "<t>" →
     s !! "<t>" = Some t' ∧ discard after !! "<t>" = s !! "<t>")
  ∧ (∀ fuel s0 last0 s' e,
       (run_loop step_plan fuel t_end s0 last0).2 = Raising s' e →
       e ≠ FailStepException).
Proof.
  intros Hadj Hplan Ht.
  pose proof (run_body_fail_step _ _ _ last1 _ _ Hplan Ht) as Hbody.
  split; [done|]. split; [|split].
  - intros fuel. simpl. rewrite Hadj, Hbody.
    by destruct (run_loop step_plan fuel t_end (discard after) last1).
  - intros Heq. rewrite <- (adjust_lookup_t _ _ _ _ _ Hadj), <- Heq.
    split; [done|]. by rewrite lookup_discard.
  - intros fuel s0 last0 s' e. apply run_loop_no_fail_step.
Qed.

(** A step plan that always fails the step, leaving the state as it is. *)
Definition plan_fail (s : state) : execution := Aborted [] s FailStepException.

Example run_fail_twice :
  events_of (run plan_fail 2 5 state0).1
  = [StepFailed (Number 0); StepFailed (Number 0)].
Proof. vm_compute. reflexivity. Qed.

Lemma fail_step_retries_witness :
  run_body plan_fail state0 false
  = ([StepFailed (Number 0)], Next (discard state0) false).
Proof.
  apply (proj1 (fail_step_retries plan_fail 5 state0 state0 state0
                  false false [] (Number 0) eq_refl eq_refl eq_refl)).
Defined.

(** A step plan that advances [<t>] and then fails the step. *)
Definition plan_advance_fail (s : state) : execution :=
  Aborted [] (<["<t>" := Number 7]> s) FailStepException.

(** C3 as stated fails: the [StepFailed] event carries the value of [<t>]
    after the failed execution, which need not be the value before it. *)
Lemma fail_step_claim_fails :
  state0 !! "<t>" = Some (Number 0)
  ∧ (run plan_advance_fail 1 5 state0).1
    = [ {| started := state0; marked_last := false;
           yielded := [StepFailed (Number 7)] |} ].
Proof. split; vm_compute; reflexivity. Qed.

(** *** Reaching [t_end] *)

Lemma number_at_lookup (s : state) (name : string) (q : Q) :
  number_at s name = Ok q ↔ s !! name = Some (Number q).
Proof.
  unfold number_at. destruct (s !! name) as [[q'|xs]|]; split; congruence.
Qed.

Lemma number_at_discard (s : state) (name : string) :
  is_permanent name = true → number_at (discard s) name = number_at s name.
Proof. intros H. unfold number_at. by rewrite lookup_discard, H. Qed.

(** Every natural bound is reached: some multiple of a positive step
    covers a given distance. *)
Lemma steps_cover (distance step : Q) :
  (0 < step)%Q → ∃ k : nat, (distance <= inject_Z (Z.of_nat k) * step)%Q.
Proof.
  intros Hstep. exists (Z.to_nat (Qceiling (distance / step))).
  assert (distance == distance / step * step)%Q as Hd by (field; lra).
  pose proof (Qle_ceiling (distance / step)) as Hc.
  assert (inject_Z (Qceiling (distance / step))
          <= inject_Z (Z.of_nat (Z.to_nat (Qceiling (distance / step)))))%Q
    as Hz by (rewrite <- Zle_Qle; lia).
  rewrite Hd at 1. apply Qmult_le_compat_r; lra.
Qed.

Section Reach.

Variable step_plan : state → execution.
Variable t_end : Q.
Variable δ : Q.

(** The states the step plan is given in the run at hand, and a bound on
    the number of failed steps still to come. *)
Variable reachable : state → Prop.
Variable failures : state → nat.

Hypothesis δ_positive : (0 < δ)%Q.

(** An execution of the step plan from such a state, with a step that
    does not pass [t_end], completes or signals fail-step.  It leaves a
    [<dt>] of at least [δ] if it found one.  When it completes, it has
    advanced [<t>] by the [<dt>] it found.  When it fails, it has left
    [<t>] as it was, it has not made [<dt>] smaller if the step was to
    end at [t_end], and fewer failed steps are to come. *)
Hypothesis plan_advances : ∀ (s : state) (t dt : Q),
  reachable s →
  number_at s "<t>" = Ok t → number_at s "<dt>" = Ok dt →
  (t + dt <= t_end)%Q →
  ∃ events after t' dt',
    number_at after "<t>" = Ok t' ∧ number_at after "<dt>" = Ok dt'
    ∧ reachable (discard after)
    ∧ ((δ <= dt)%Q → (δ <= dt')%Q)
    ∧ (step_plan s = Finished events after ∧ (t' == t + dt)%Q
       ∨ step_plan s = Aborted events after FailStepException
         ∧ (t' == t)%Q
         ∧ ((t + dt == t_end)%Q → (dt <= dt')%Q)
         ∧ failures (discard after) < failures s).

(** Clamping [<dt>] leaves such a state one, with no more failed steps
    to come. *)
Hypothesis clamp_reachable : ∀ (s : state) (t dt : Q),
  reachable s →
  number_at s "<t>" = Ok t → number_at s "<dt>" = Ok dt →
  (t <= t_end)%Q → (t_end <= t + dt)%Q →
  reachable (<["<dt>" := Number (t_end - t)]> s)
  ∧ failures (<["<dt>" := Number (t_end - t)]> s) ≤ failures s.

(** The step plan starts every turn with [<t> + <dt> <= t_end]. *)
Definition clamped (its : list iteration) : Prop :=
  Forall (λ it, ∃ t dt, number_at (started it) "<t>" = Ok t
                        ∧ number_at (started it) "<dt>" = Ok dt
                        ∧ (t + dt <= t_end)%Q) its.

(** No [StepCompleted] event is beyond [t_end]. *)
Definition within (events : list event) : Prop :=
  ∀ v, StepCompleted v ∈ events → ∃ t, v = Number t ∧ (t <= t_end)%Q.

(** The step of the turn failed. *)
Definition failed (it : iteration) : Prop :=
  ∃ v, last (yielded it) = Some (StepFailed v).

(** The step plan starts the turn with [<t> + <dt>] equal to [t_end]:
    [<dt>] was clamped. *)
Definition ends_at_t_end (it : iteration) : Prop :=
  ∃ t dt, number_at (started it) "<t>" = Ok t
          ∧ number_at (started it) "<dt>" = Ok dt
          ∧ (t + dt == t_end)%Q.

Lemma within_turn (events : list StateComputed) (t : Q) :
  (t <= t_end)%Q → within (map Computed events ++ [StepCompleted (Number t)]).
Proof.
  intros Ht v [Hin|Hin]%elem_of_app.
  - apply list_elem_of_fmap in Hin as (? & ? & _). done.
  - apply list_elem_of_singleton in Hin as [= ->]. eauto.
Qed.

Lemma within_failed_turn (events : list StateComputed) (v : value) :
  within (map Computed events ++ [StepFailed v]).
Proof.
  intros w [Hin|Hin]%elem_of_app.
  - apply list_elem_of_fmap in Hin as (? & ? & _). done.
  - by apply list_elem_of_singleton in Hin.
Qed.

Lemma within_app (events1 events2 : list event) :
  within events1 → within events2 → within (events1 ++ events2).
Proof. intros H1 H2 v [?|?]%elem_of_app; auto. Qed.

(** What the theorem says of the loop entered with [last_step] as
    [last0]: it stops after the turns [its ++ [it]], of which [it] is
    marked last and ends with a [StepCompleted] at [t_end], while the
    marked ones among [its] failed. *)
Definition reaches (s : state) (last0 : bool) (its : list iteration)
    (it : iteration) (final : state) (tf : Q) : Prop :=
  (∀ fuel, length its < fuel →
           run_loop step_plan fuel t_end s last0 = (its ++ [it], Stopped final))
  ∧ clamped (its ++ [it])
  ∧ within (events_of (its ++ [it]))
  ∧ Forall (λ i, marked_last i = true → failed i) its
  ∧ Forall (λ i, marked_last i = true → ends_at_t_end i) (its ++ [it])
  ∧ marked_last it = true
  ∧ last (yielded it) = Some (StepCompleted (Number tf))
  ∧ (tf == t_end)%Q.

(** The adjustment at the head of a turn: the step is clamped when it
    would reach [t_end], and is left as it is otherwise. *)
Lemma adjust_reaching (s : state) (last0 : bool) (t dt : Q) :
  number_at s "<t>" = Ok t → number_at s "<dt>" = Ok dt →
  (t <= t_end)%Q → (t_end <= t + dt)%Q →
  adjust t_end s last0 = Ok (<["<dt>" := Number (t_end - t)]> s, true).
Proof.
  intros Ht Hdt Hle Hc. unfold adjust. rewrite Ht, Hdt. simpl.
  apply Qle_bool_iff in Hc. rewrite Hc.
  apply Qle_bool_iff in Hle. by rewrite Hle.
Qed.

Lemma adjust_short (s : state) (last0 : bool) (t dt : Q) :
  number_at s "<t>" = Ok t → number_at s "<dt>" = Ok dt →
  (t + dt < t_end)%Q →
  adjust t_end s last0 = Ok (s, last0).
Proof.
  intros Ht Hdt Hlt. unfold adjust. rewrite Ht, Hdt. simpl.
  destruct (Qle_bool t_end (t + dt)) eqn:Ec; [|done].
  apply Qle_bool_iff in Ec. lra.
Qed.

Lemma run_body_complete (s after : state) (last0 : bool)
    (events : list StateComputed) (t' : Q) :
  step_plan s = Finished events after →
  number_at after "<t>" = Ok t' →
  run_body step_plan s last0
  = (map Computed events ++ [StepCompleted (Number t')],
     if last0 then Break (discard after) else Next (discard after) last0).
Proof.
  intros Hplan Ht'. unfold run_body. rewrite Hplan, lookup_discard. simpl.
  apply number_at_lookup in Ht'. by rewrite Ht'.
Qed.

(** The turn after which the loop stops. *)
Lemma reaches_now (s s1 after : state) (last0 : bool) (t dt t' : Q)
    (events : list StateComputed) :
  adjust t_end s last0 = Ok (s1, true) →
  number_at s1 "<t>" = Ok t → number_at s1 "<dt>" = Ok dt →
  (t + dt == t_end)%Q →
  step_plan s1 = Finished events after →
  number_at after "<t>" = Ok t' → (t' == t + dt)%Q →
  reaches s last0 []
          {| started := s1; marked_last := true;
             yielded := map Computed events ++ [StepCompleted (Number t')] |}
          (discard after) t'.
Proof.
  intros Hadj Ht Hdt Hend Hplan Ht' Heq.
  split; [|split; [|split; [|split; [|split; [|split; [|split]]]]]]; simpl;
    try done.
  - intros [|fuel] Hf; [simpl in Hf; lia|]. simpl. rewrite Hadj.
    by rewrite (run_body_complete s1 after true events t' Hplan Ht').
  - constructor; [|done]. exists t, dt. simpl.
    split; [done|]. split; [done|]. lra.
  - unfold events_of. simpl. rewrite app_nil_r. apply within_turn. lra.
  - constructor; [|done]. intros _. by exists t, dt.
  - by rewrite last_snoc.
  - lra.
Qed.

(** A turn after which the loop goes on, followed by turns that reach
    [t_end]. *)
Lemma reaches_next (s s1 s2 : state) (last0 last1 last2 : bool) (t dt : Q)
    (events : list event) (its : list iteration) (it : iteration)
    (final : state) (tf : Q) :
  adjust t_end s last0 = Ok (s1, last1) →
  number_at s1 "<t>" = Ok t → number_at s1 "<dt>" = Ok dt →
  (t + dt <= t_end)%Q →
  run_body step_plan s1 last1 = (events, Next s2 last2) →
  within events →
  (last1 = true → (∃ v, last events = Some (StepFailed v))
                  ∧ (t + dt == t_end)%Q) →
  reaches s2 last2 its it final tf →
  reaches s last0
          ({| started := s1; marked_last := last1; yielded := events |} :: its)
          it final tf.
Proof.
  intros Hadj Ht Hdt Hle Hbody Hev Hfailed
    (Hrun & Hcl & Hin & Hnl & Hon & Hl & Hlast & Htf).
  split; [|split; [|split; [|split; [|split; [|split; [|split]]]]]];
    try done.
  - intros [|fuel] Hf; [simpl in Hf; lia|]. simpl in Hf. simpl.
    rewrite Hadj, Hbody. rewrite (Hrun fuel); [done|lia].
  - constructor; [|done]. by exists t, dt.
  - by apply within_app.
  - constructor; [|done]. intros Hm. by apply Hfailed.
  - constructor; [|done]. intros Hm. exists t, dt. simpl.
    split; [done|]. split; [done|]. by apply Hfailed.
Qed.

Lemma steps_succ (k : nat) :
  (inject_Z (Z.of_nat (S k)) == inject_Z (Z.of_nat k) + 1)%Q.
Proof. rewrite Nat2Z.inj_succ. unfold Z.succ. by rewrite inject_Z_plus. Qed.

(** By induction on the number [k] of steps of length [δ] that cover what
    is left of the interval, and for each on the number of failed steps
    to come: at the head of a turn either the step reaches [t_end], or
    [last_step] is not set and the step is at least [δ]. *)
Lemma run_loop_reaches (k : nat) :
  ∀ (m : nat) (s : state) (last0 : bool) (t dt : Q),
    reachable s →
    number_at s "<t>" = Ok t → number_at s "<dt>" = Ok dt →
    (t <= t_end)%Q →
    ((t_end <= t + dt)%Q ∨ last0 = false ∧ (δ <= dt)%Q) →
    (t_end - t <= inject_Z (Z.of_nat k) * δ)%Q →
    failures s < m →
    ∃ its it final tf, reaches s last0 its it final tf.
Proof.
  induction k as [k IHk] using lt_wf_ind.
  induction m as [|m IHm]; intros s last0 t dt Hs Ht Hdt Hle Hstep Hk Hm;
    [lia|].
  destruct (Qlt_le_dec (t + dt) t_end) as [Hlt|Hc].
  - (* the step ends before [t_end] *)
    destruct Hstep as [Hc|[-> Hδ]]; [lra|].
    pose proof (adjust_short s false t dt Ht Hdt Hlt) as Hadj.
    destruct (plan_advances s t dt Hs Ht Hdt)
      as (events & after & t' & dt' & Ht' & Hdt' & Hs' & Hδ' & Hplan);
      [lra|].
    assert (number_at (discard after) "<t>" = Ok t') as Ht2
      by by rewrite number_at_discard.
    assert (number_at (discard after) "<dt>" = Ok dt') as Hdt2
      by by rewrite number_at_discard.
    destruct Hplan as [[Hplan Heq]|(Hplan & Heq & _ & Hfewer)].
    + destruct k as [|k].
      { change (inject_Z (Z.of_nat 0)) with 0%Q in Hk. lra. }
      rewrite steps_succ in Hk.
      destruct (IHk k (Nat.lt_succ_diag_r k) (S (failures (discard after)))
                  (discard after) false t' dt')
        as (its & it & final & tf & Hr); try done.
      { lra. }
      { right. auto. }
      { lra. }
      { lia. }
      eexists _, it, final, tf.
      eapply (reaches_next s s (discard after) false false false t dt);
        try done.
      * lra.
      * by rewrite (run_body_complete s after false events t' Hplan Ht').
      * apply within_turn. lra.
    + destruct (IHm (discard after) false t' dt')
        as (its & it & final & tf & Hr); try done.
      { lra. }
      { right. auto. }
      { lra. }
      { lia. }
      eexists _, it, final, tf.
      eapply (reaches_next s s (discard after) false false false t dt);
        try done.
      * lra.
      * apply (run_body_fail_step step_plan s after false events (Number t')
                 Hplan).
        by apply number_at_lookup.
      * apply within_failed_turn.
  - (* the step reaches [t_end] and is clamped *)
    set (s1 := <["<dt>" := Number (t_end - t)]> s).
    pose proof (adjust_reaching s last0 t dt Ht Hdt Hle Hc) as Hadj.
    fold s1 in Hadj.
    destruct (clamp_reachable s t dt Hs Ht Hdt Hle Hc) as [Hs1 Hm1].
    fold s1 in Hs1, Hm1.
    assert (number_at s1 "<t>" = Ok t) as Ht1.
    { unfold number_at, s1 in *. by rewrite lookup_insert_ne. }
    assert (number_at s1 "<dt>" = Ok (t_end - t)%Q) as Hdt1.
    { unfold number_at, s1. by rewrite lookup_insert_eq. }
    assert (t + (t_end - t) == t_end)%Q as Hend by ring.
    destruct (plan_advances s1 t (t_end - t)%Q Hs1 Ht1 Hdt1)
      as (events & after & t' & dt' & Ht' & Hdt' & Hs' & _ & Hplan);
      [lra|].
    destruct Hplan as [[Hplan Heq]|(Hplan & Heq & Hkeep & Hfewer)].
    + exists [], {| started := s1; marked_last := true;
                    yielded := map Computed events
                               ++ [StepCompleted (Number t')] |},
             (discard after), t'.
      by apply (reaches_now s s1 after last0 t (t_end - t)%Q t' events).
    + specialize (Hkeep Hend).
      destruct (IHm (discard after) true t' dt')
        as (its & it & final & tf & Hr); try done.
      { by rewrite number_at_discard. }
      { by rewrite number_at_discard. }
      { lra. }
      { left. lra. }
      { lra. }
      { lia. }
      eexists _, it, final, tf.
      eapply (reaches_next s s1 (discard after) last0 true true t
                (t_end - t)%Q); try done.
      * lra.
      * apply (run_body_fail_step step_plan s1 after true events (Number t')
                 Hplan).
        by apply number_at_lookup.
      * apply within_failed_turn.
      * intros _. split; [|done]. exists (Number t'). by rewrite last_snoc.
Qed.

End Reach.

(** C2 (as the code has it): let the numbers be exact ([int] or
    [Fraction]), and let [run(t_end)] start from a state with [<t>] at
    most [t_end] and [<dt>] at least a positive bound [δ].  Of the states
    the step plan is given in this run, let every execution with a step
    that does not pass [t_end] complete or signal fail-step and leave a
    [<dt>] of at least [δ] if it found one; when it completes, let it have
    advanced [<t>] by the [<dt>] it found; when it fails, let it have left
    [<t>] as it was, not have made [<dt>] smaller if the step was to end
    at [t_end], and let fewer failed steps be to come, of which clamping
    [<dt>] makes no more.  Then [run(t_end)] stops after finitely many
    turns; the step plan starts every turn with [<t> + <dt>] at most
    [t_end]; no [StepCompleted] event carries a [t] beyond [t_end]; the
    last event is a [StepCompleted] with [t] equal to [t_end], on a turn
    marked last; every earlier turn marked last failed its step; and on
    every turn marked last [<dt>] was clamped, to a step that ends at
    [t_end]. *)
Theorem run_reaches_t_end (step_plan : state → execution) (t_end δ : Q)
    (reachable : state → Prop) (failures : state → nat)
    (s : state) (t dt : Q) :
  (0 < δ)%Q →
  (∀ (s : state) (t dt : Q),
     reachable s →
     number_at s "<t>" = Ok t → number_at s "<dt>" = Ok dt →
     (t + dt <= t_end)%Q →
     ∃ events after t' dt',
       number_at after "<t>" = Ok t' ∧ number_at after "<dt>" = Ok dt'
       ∧ reachable (discard after)
       ∧ ((δ <= dt)%Q → (δ <= dt')%Q)
       ∧ (step_plan s = Finished events after ∧ (t' == t + dt)%Q
          ∨ step_plan s = Aborted events after FailStepException
            ∧ (t' == t)%Q
            ∧ ((t + dt == t_end)%Q → (dt <= dt')%Q)
            ∧ failures (discard after) < failures s)) →
  (∀ (s : state) (t dt : Q),
     reachable s →
     number_at s "<t>" = Ok t → number_at s "<dt>" = Ok dt →
     (t <= t_end)%Q → (t_end <= t + dt)%Q →
     reachable (<["<dt>" := Number (t_end - t)]> s)
     ∧ failures (<["<dt>" := Number (t_end - t)]> s) ≤ failures s) →
  reachable s →
  number_at s "<t>" = Ok t → number_at s "<dt>" = Ok dt →
  (t <= t_end)%Q → (δ <= dt)%Q →
  ∃ its it final tf,
    (∀ fuel, length its < fuel →
             run (ar := exact_arithmetic) step_plan fuel t_end s
             = (its ++ [it], Stopped final))
    ∧ clamped t_end (its ++ [it])
    ∧ within t_end (events_of (its ++ [it]))
    ∧ Forall (λ i, marked_last i = true → failed i) its
    ∧ Forall (λ i, marked_last i = true → ends_at_t_end t_end i)
             (its ++ [it])
    ∧ marked_last it = true
    ∧ last (events_of (its ++ [it])) = Some (StepCompleted (Number tf))
    ∧ (tf == t_end)%Q.
Proof.
  intros Hδ Hplan Hclamp Hs Ht Hdt Hle Hdδ.
  destruct (steps_cover (t_end - t) δ Hδ) as [k Hk].
  destruct (run_loop_reaches step_plan t_end δ reachable failures Hδ Hplan
              Hclamp k (S (failures s)) s false t dt)
    as (its & it & final & tf & Hrun & Hcl & Hin & Hnl & Hon & Hl & Hlast
        & Htf);
    try done.
  { by right. }
  { lia. }
  exists its, it, final, tf. repeat split; try done.
  unfold events_of. rewrite map_app, concat_app. simpl. rewrite app_nil_r.
  destruct (yielded it) as [|e es] eqn:E; [done|].
  rewrite last_app. by rewrite Hlast.
Qed.

(** A fixed-step plan: advance [<t>] by [<dt>]. *)
Definition plan_advance (s : state) : execution :=
  match number_at s "<t>", number_at s "<dt>" with
  | Ok t, Ok dt => Finished [] (<["<t>" := Number (t + dt)]> s)
  | _, _ => Aborted [] s (UserError "no time")
  end.

(** [set_up(t_start=0, dt_start=1, {y: [2, 0]})], then [run(t_end=2.5)]. *)
Example run_to_2_5 :
  events_of (run plan_advance 3 (5 # 2) state0).1
  = [StepCompleted (Number 1); StepCompleted (Number 2);
     StepCompleted (Number (5 # 2))]
  ∧ ∃ final, (run plan_advance 3 (5 # 2) state0).2 = Stopped final.
Proof. split; [vm_compute; reflexivity|eexists; vm_compute; reflexivity]. Qed.

(** An adaptive plan: a step longer than 1/2 is rejected after halving
    [<dt>], any other step advances [<t>] by [<dt>]. *)
Definition plan_halve (s : state) : execution :=
  match number_at s "<t>", number_at s "<dt>" with
  | Ok t, Ok dt =>
      if Qle_bool dt (1 # 2)
      then Finished [] (<["<t>" := Number (t + dt)]> s)
      else Aborted [] (<["<dt>" := Number (dt / 2)]> s) FailStepException
  | _, _ => Aborted [] s (UserError "no time")
  end.

(** The states of a run of the adaptive plan from [<t>] = 0 and
    [<dt>] = 1: the first one, and those with a step of at most 1/2.
    Only from the first one the step fails. *)
Definition halved (s : state) : Prop :=
  ∃ t dt, number_at s "<t>" = Ok t ∧ number_at s "<dt>" = Ok dt
          ∧ ((t == 0 ∧ dt == 1) ∨ dt <= 1 # 2)%Q.

Definition to_halve (s : state) : nat :=
  match number_at s "<dt>" with
  | Ok dt => if Qle_bool dt (1 # 2) then 0 else 1
  | Raise _ => 0
  end.

Lemma plan_halve_advances (s : state) (t dt : Q) :
  halved s →
  number_at s "<t>" = Ok t → number_at s "<dt>" = Ok dt →
  (t + dt <= 5)%Q →
  ∃ events after t' dt',
    number_at after "<t>" = Ok t' ∧ number_at after "<dt>" = Ok dt'
    ∧ halved (discard after)
    ∧ ((1 # 2 <= dt)%Q → (1 # 2 <= dt')%Q)
    ∧ (plan_halve s = Finished events after ∧ (t' == t + dt)%Q
       ∨ plan_halve s = Aborted events after FailStepException
         ∧ (t' == t)%Q
         ∧ ((t + dt == 5)%Q → (dt <= dt')%Q)
         ∧ to_halve (discard after) < to_halve s).
Proof.
  intros (t0 & dt0 & Ht0 & Hdt0 & Hs) Ht Hdt Hle.
  rewrite Ht in Ht0. rewrite Hdt in Hdt0.
  injection Ht0 as <-. injection Hdt0 as <-.
  unfold plan_halve, to_halve. rewrite Ht, Hdt.
  destruct (Qle_bool dt (1 # 2)) eqn:E.
  - apply Qle_bool_iff in E.
    assert (number_at (<["<t>" := Number (t + dt)]> s) "<t>" = Ok (t + dt)%Q)
      as Ht'.
    { unfold number_at. by rewrite lookup_insert_eq. }
    assert (number_at (<["<t>" := Number (t + dt)]> s) "<dt>" = Ok dt)
      as Hdt'.
    { unfold number_at in *. by rewrite lookup_insert_ne. }
    exists [], (<["<t>" := Number (t + dt)]> s), (t + dt)%Q, dt.
    split; [done|]. split; [done|]. split.
    { exists (t + dt)%Q, dt. rewrite !number_at_discard by done.
      split; [done|]. split; [done|]. by right. }
    split; [done|]. left. split; [done|]. reflexivity.
  - assert (¬ (dt <= 1 # 2)%Q) as Hlong.
    { intros H. apply Qle_bool_iff in H. congruence. }
    destruct Hs as [[Ht0 Hdt1]|Hshort]; [|done].
    assert (dt / 2 == 1 # 2)%Q as Hhalf by (rewrite Hdt1; reflexivity).
    assert (number_at (<["<dt>" := Number (dt / 2)]> s) "<t>" = Ok t) as Ht'.
    { unfold number_at in *. by rewrite lookup_insert_ne. }
    assert (number_at (<["<dt>" := Number (dt / 2)]> s) "<dt>"
            = Ok (dt / 2)%Q) as Hdt'.
    { unfold number_at. by rewrite lookup_insert_eq. }
    exists [], (<["<dt>" := Number (dt / 2)]> s), t, (dt / 2)%Q.
    split; [done|]. split; [done|]. split.
    { exists t, (dt / 2)%Q. rewrite !number_at_discard by done.
      split; [done|]. split; [done|]. right. lra. }
    split; [intros _; lra|]. right. split; [done|].
    split; [reflexivity|]. split; [intros H; lra|].
    rewrite number_at_discard by done. rewrite Hdt'.
    assert (Qle_bool (dt / 2) (1 # 2) = true) as ->; [|lia].
    apply Qle_bool_iff. lra.
Qed.

Lemma plan_halve_clamp (s : state) (t dt : Q) :
  halved s →
  number_at s "<t>" = Ok t → number_at s "<dt>" = Ok dt →
  (t <= 5)%Q → (5 <= t + dt)%Q →
  halved (<["<dt>" := Number (5 - t)]> s)
  ∧ to_halve (<["<dt>" := Number (5 - t)]> s) ≤ to_halve s.
Proof.
  intros (t0 & dt0 & Ht0 & Hdt0 & Hs) Ht Hdt Hle Hc.
  rewrite Ht in Ht0. rewrite Hdt in Hdt0.
  injection Ht0 as <-. injection Hdt0 as <-.
  destruct Hs as [[Ht0 Hdt1]|Hshort]; [lra|].
  assert (number_at (<["<dt>" := Number (5 - t)]> s) "<t>" = Ok t) as Ht'.
  { unfold number_at in *. by rewrite lookup_insert_ne. }
  assert (number_at (<["<dt>" := Number (5 - t)]> s) "<dt>" = Ok (5 - t)%Q)
    as Hdt'.
  { unfold number_at. by rewrite lookup_insert_eq. }
  split.
  - exists t, (5 - t)%Q. split; [done|]. split; [done|]. right. lra.
  - unfold to_halve. rewrite Hdt'.
    assert (Qle_bool (5 - t) (1 # 2) = true) as ->; [|lia].
    apply Qle_bool_iff. lra.
Qed.

(** [run(5)] with the adaptive plan: the first step fails, the steps of
    1/2 that follow reach 5. *)
Lemma run_reaches_t_end_witness :
  ∃ its it final tf,
    (∀ fuel, length its < fuel →
             run plan_halve fuel 5 state0 = (its ++ [it], Stopped final))
    ∧ last (events_of (its ++ [it])) = Some (StepCompleted (Number tf))
    ∧ (tf == 5)%Q.
Proof.
  destruct (run_reaches_t_end plan_halve 5 (1 # 2) halved to_halve state0 0 1)
    as (its & it & final & tf & Hrun & _ & _ & _ & _ & _ & Hlast & Htf).
  - reflexivity.
  - exact plan_halve_advances.
  - exact plan_halve_clamp.
  - exists 0%Q, 1%Q. split; [reflexivity|]. split; [reflexivity|].
    left. split; reflexivity.
  - reflexivity.
  - reflexivity.
  - discriminate.
  - discriminate.
  - exists its, it, final, tf.
    split; [exact Hrun|]. split; [exact Hlast|exact Htf].
Defined.

Lemma run_plan_fail (fuel : nat) :
  run_loop plan_fail fuel 5 state0 false
  = (replicate fuel {| started := state0; marked_last := false;
                       yielded := [StepFailed (Number 0)] |},
     Running state0 false).
Proof.
  induction fuel as [|fuel IH]; [done|].
  change (run_loop plan_fail (S fuel) 5 state0 false)
    with (let '(its, e) := run_loop plan_fail fuel 5 (discard state0) false in
          ({| started := state0; marked_last := false;
              yielded := [StepFailed (Number 0)] |} :: its, e)).
  replace (discard state0) with state0 by (vm_compute; reflexivity).
  by rewrite IH.
Qed.

(** A plan of ever shorter steps: advance [<t>] by [<dt>] and halve
    [<dt>]. *)
Definition plan_shrink (s : state) : execution :=
  match number_at s "<t>", number_at s "<dt>" with
  | Ok t, Ok dt =>
      Finished [] (<["<dt>" := Number (dt / 2)]>
                     (<["<t>" := Number (t + dt)]> s))
  | _, _ => Aborted [] s (UserError "no time")
  end.

Lemma run_plan_shrink (fuel : nat) : ∀ (s : state) (t dt : Q),
  number_at s "<t>" = Ok t → number_at s "<dt>" = Ok dt →
  (0 < dt)%Q → (t + 2 * dt <= 2)%Q →
  ∃ s' last', (run_loop plan_shrink fuel 5 s false).2 = Running s' last'.
Proof.
  induction fuel as [|fuel IH]; intros s t dt Ht Hdt Hpos Hb;
    [by eexists _, _|].
  set (after := <["<dt>" := Number (dt / 2)]>
                  (<["<t>" := Number (t + dt)]> s)).
  assert (plan_shrink s = Finished [] after) as Hplan.
  { unfold plan_shrink. by rewrite Ht, Hdt. }
  assert (number_at after "<t>" = Ok (t + dt)%Q) as Ht'.
  { unfold number_at, after.
    by rewrite lookup_insert_ne, lookup_insert_eq. }
  assert (number_at after "<dt>" = Ok (dt / 2)%Q) as Hdt'.
  { unfold number_at, after. by rewrite lookup_insert_eq. }
  assert (dt / 2 == dt * (1 # 2))%Q as Hhalf by (field; done).
  destruct (IH (discard after) (t + dt)%Q (dt / 2)%Q)
    as (s' & last' & Hrun).
  { by rewrite number_at_discard. }
  { by rewrite number_at_discard. }
  { lra. }
  { lra. }
  exists s', last'. simpl.
  rewrite (adjust_short 5 s false t dt Ht Hdt) by lra.
  rewrite (run_body_complete plan_shrink s after false [] (t + dt)%Q
             Hplan Ht').
  by destruct (run_loop plan_shrink fuel 5 (discard after) false).
Qed.

(** A plan whose failed step moves [<t>], and one that raises. *)
Definition plan_jump (s : state) : execution :=
  Aborted [] (<["<t>" := Number 10]> s) FailStepException.

Definition plan_raise (s : state) : execution :=
  Aborted [] s (RuntimeError "no convergence").

(** The fixed-step plan on [float]: [<t>] becomes the binary64 sum of
    [<t>] and [<dt>]. *)
Definition plan_advance_float (s : state) : execution :=
  match number_at s "<t>", number_at s "<dt>" with
  | Ok t, Ok dt =>
      Finished [] (<["<t>" := Number (@num_add float_arithmetic t dt)]> s)
  | _, _ => Aborted [] s (UserError "no time")
  end.

(** [set_up(t_start=0.03, dt_start=1.0, {})] on a fresh interpreter. *)
Definition state_float : state :=
  (set_up ∅ (Number (binary64 (3 # 100))) (Number 1) ∅).1.

(** C2 as stated fails.  Each successful execution of each of these plans
    advances [<t>] by [<dt>].  Yet with the plan that always fails the
    step [run] never yields a [StepCompleted].  With the adaptive plan
    [run(1)] stops after a [StepCompleted] at 1/2, on a turn whose [<dt>]
    was not clamped: [last_step] was set on the turn that failed.  With
    the plan of ever shorter steps [run(5)] never stops, [<t>] staying
    below 2.  When a failed step has moved [<t>] beyond [t_end], the
    assertion of the next turn fails, and an exception of the step plan
    other than fail-step ends [run].  And in binary64 the clamped step
    from 0.03 to 0.3 ends above 0.3: [0.3 - 0.03] is rounded up, and so is
    [0.03 + 0.27]; the last event is a [StepCompleted] beyond [t_end]. *)
Lemma run_claim_fails :
  (∀ fuel,
     run plan_fail fuel 5 state0
     = (replicate fuel {| started := state0; marked_last := false;
                          yielded := [StepFailed (Number 0)] |},
        Running state0 false))
  ∧ ((∀ s t dt events after,
        number_at s "<t>" = Ok t → number_at s "<dt>" = Ok dt →
        plan_halve s = Finished events after →
        number_at after "<t>" = Ok (t + dt)%Q)
     ∧ events_of (run plan_halve 2 1 state0).1
       = [StepFailed (Number 0); StepCompleted (Number (1 # 2))]
     ∧ (∃ final, (run plan_halve 2 1 state0).2 = Stopped final)
     ∧ number_at (started (default {| started := ∅; marked_last := false;
                                      yielded := [] |}
                             (last (run plan_halve 2 1 state0).1))) "<dt>"
       = Ok (1 # 2))
  ∧ ((∀ s t dt events after,
        number_at s "<t>" = Ok t → number_at s "<dt>" = Ok dt →
        plan_shrink s = Finished events after →
        number_at after "<t>" = Ok (t + dt)%Q)
     ∧ ∀ fuel, ∃ s' last',
         (run plan_shrink fuel 5 state0).2 = Running s' last')
  ∧ (events_of (run plan_jump 2 5 state0).1 = [StepFailed (Number 10)]
     ∧ ∃ s', (run plan_jump 2 5 state0).2 = Raising s' AssertionError)
  ∧ (events_of (run plan_raise 1 5 state0).1 = []
     ∧ ∃ s', (run plan_raise 1 5 state0).2
             = Raising s' (RuntimeError "no convergence"))
  ∧ ((∀ s t dt events after,
        number_at s "<t>" = Ok t → number_at s "<dt>" = Ok dt →
        plan_advance_float s = Finished events after →
        number_at after "<t>" = Ok (@num_add float_arithmetic t dt))
     ∧ number_at state_float "<t>" = Ok (1080863910568919 # 36028797018963968)
     ∧ number_at state_float "<dt>" = Ok 1%Q
     ∧ binary64 (3 # 10) = (5404319552844595 # 18014398509481984)%Q
     ∧ events_of (run (ar := float_arithmetic) plan_advance_float 1
                    (binary64 (3 # 10)) state_float).1
       = [StepCompleted (Number (1351079888211149 # 4503599627370496))]
     ∧ (∃ final, (run (ar := float_arithmetic) plan_advance_float 1
                    (binary64 (3 # 10)) state_float).2 = Stopped final)
     ∧ (binary64 (3 # 10) < 1351079888211149 # 4503599627370496)%Q).
Proof.
  split; [exact run_plan_fail|].
  split; [|split; [|split; [|split]]].
  - split; [|split; [|split]].
    + intros s t dt events after Ht Hdt. unfold plan_halve. rewrite Ht, Hdt.
      destruct (Qle_bool dt (1 # 2)); [|done]. intros [= _ <-].
      unfold number_at. by rewrite lookup_insert_eq.
    + vm_compute. reflexivity.
    + eexists. vm_compute. reflexivity.
    + vm_compute. reflexivity.
  - split.
    + intros s t dt events after Ht Hdt. unfold plan_shrink. rewrite Ht, Hdt.
      intros [= _ <-]. unfold number_at.
      by rewrite lookup_insert_ne, lookup_insert_eq.
    + intros fuel. apply (run_plan_shrink fuel state0 0 1); try reflexivity.
      discriminate.
  - split; [vm_compute; reflexivity|eexists; vm_compute; reflexivity].
  - split; [vm_compute; reflexivity|eexists; vm_compute; reflexivity].
  - split; [|split; [|split; [|split; [|split; [|split]]]]].
    + intros s t dt events after Ht Hdt. unfold plan_advance_float.
      rewrite Ht, Hdt. intros [= _ <-].
      unfold number_at. by rewrite lookup_insert_eq.
    + vm_compute. reflexivity.
    + vm_compute. reflexivity.
    + vm_compute. reflexivity.
    + vm_compute. reflexivity.
    + eexists. vm_compute. reflexivity.
    + vm_compute. reflexivity.
Qed.

End ExecNumpyFacts.

(** ** The expression layer *)

Module ExpressionFacts.
Import Expression.

(** *** An instance: integers, [None] and two functions *)

Inductive builtin : Type := Double | Negate.

#[global] Instance builtin_eq_dec : EqDecision builtin.
Proof. solve_decision. Defined.

Inductive pyvalue : Type :=
| PyNone
| PyInt (z : Z)
| PyFunction (f : builtin).

#[global] Instance pyvalue_eq_dec : EqDecision pyvalue.
Proof. solve_decision. Defined.

Definition int_op (op : Z → Z → result Z) (a b : pyvalue) : result pyvalue :=
  match a, b with
  | PyInt x, PyInt y => rbind (op x y) (λ z, Ok (PyInt z))
  | _, _ => Raise TypeError
  end.

Definition int_truth (v : pyvalue) : bool :=
  match v with
  | PyNone => false
  | PyInt z => negb (z =? 0)%Z
  | PyFunction _ => true
  end.

Definition int_call (f : builtin) (args : list pyvalue) : result pyvalue :=
  match f, args with
  | Double, [PyInt z] => Ok (PyInt (2 * z))
  | Negate, [PyInt z] => Ok (PyInt (- z))
  | _, _ => Raise TypeError
  end.

(** Integer arithmetic; a quotient is taken when it is exact. *)
Definition ints : python pyvalue builtin :=
  {| py_none := PyNone;
     py_zero := PyInt 0;
     py_one := PyInt 1;
     py_add := int_op (λ x y, Ok (x + y)%Z);
     py_mul := int_op (λ x y, Ok (x * y)%Z);
     py_div := int_op (λ x y, if (y =? 0)%Z then Raise ZeroDivisionError
                              else if (x mod y =? 0)%Z then Ok (x / y)%Z
                              else Raise (UserError "not an integer"));
     py_pow := int_op (λ x y, if (y <? 0)%Z
                              then Raise (UserError "not an integer")
                              else Ok (x ^ y)%Z);
     py_compare := λ operator,
       int_op (λ x y, if String.eqb operator "<"
                      then Ok (if (x <? y)%Z then 1 else 0)%Z
                      else if String.eqb operator "=="
                      then Ok (if (x =? y)%Z then 1 else 0)%Z
                      else Raise (UserError "operator"));
     py_truth := λ v, Ok (int_truth v);
     py_bool := λ b, PyInt (if b then 1 else 0);
     py_function := PyFunction;
     py_call := int_call |}.

(** The fresh variables of the examples: [_c0], [_c1], ... *)
Definition fresh (n : nat) : string := "_c" +:+ pretty n.

Definition int (z : Z) : expr pyvalue := Constant (PyInt z).

(** *** Variables *)

(** C8: a variable bound in the value context evaluates to that value,
    whether or not the function table binds the name as well; a variable
    bound in the function table only evaluates to the function as a value;
    any other variable evaluates, without raising, to [None]. *)
Theorem variable_resolution {V F : Type} (py : python V F)
    (context : gmap string V) (functions : gmap string F) (name : string) :
  (∀ v, context !! name = Some v →
        evaluate py context functions (Var name) = Ok v)
  ∧ (∀ f, context !! name = None → functions !! name = Some f →
          evaluate py context functions (Var name) = Ok (py_function py f))
  ∧ (context !! name = None → functions !! name = None →
     evaluate py context functions (Var name) = Ok (py_none py)).
Proof.
  simpl. unfold map_variable. split; [|split].
  - intros v Hc. by rewrite Hc.
  - intros f Hc Hf. by rewrite Hc, Hf.
  - intros Hc Hf. by rewrite Hc, Hf.
Qed.

Lemma variable_resolution_witness :
  evaluate ints {[ "f" := PyInt 3 ]} {[ "f" := Double ]} (Var "f")
  = Ok (PyInt 3)
  ∧ evaluate ints ∅ {[ "f" := Double ]} (Var "f") = Ok (PyFunction Double)
  ∧ evaluate ints ∅ {[ "f" := Double ]} (Var "g") = Ok PyNone.
Proof.
  split; [|split].
  - by apply (proj1 (variable_resolution ints {[ "f" := PyInt 3 ]}
                       {[ "f" := Double ]} "f")).
  - by apply (proj1 (proj2 (variable_resolution ints ∅ {[ "f" := Double ]} "f"))).
  - by apply (proj2 (proj2 (variable_resolution ints ∅ {[ "f" := Double ]} "g"))).
Defined.

(** *** Collapsing: examples *)

(** [1 + x + 2] with [x] free: the constants are summed into [_c0]. *)
Example collapse_sum :
  collapse_constants ["x"] fresh (Sum [int 1; Var "x"; int 2])
  = Ok (Sum [Var "_c0"; Var "x"], [("_c0", Sum [int 1; int 2])]).
Proof. vm_compute. reflexivity. Qed.

(** [x * (y + 2 * 3)]: the constant product inside the sum is hoisted. *)
Example collapse_nested :
  collapse_constants ["x"; "y"] fresh
    (Product [Var "x"; Sum [Var "y"; Product [int 2; int 3]]])
  = Ok (Product [Var "x"; Sum [Var "_c0"; Var "y"]],
        [("_c0", Product [int 2; int 3])]).
Proof. vm_compute. reflexivity. Qed.

(** A single atomic constant stays in place. *)
Example collapse_atomic :
  collapse_constants ["x"] fresh (Sum [Var "x"; int 2])
  = Ok (Sum [int 2; Var "x"], []).
Proof. vm_compute. reflexivity. Qed.

(** *** Induction on expressions *)

Lemma expr_induction {V : Type} (P : expr V → Prop) :
  (∀ c, P (Constant c)) →
  (∀ name, P (Var name)) →
  (∀ children, Forall P children → P (Sum children)) →
  (∀ children, Forall P children → P (Product children)) →
  (∀ a b, P a → P b → P (Quotient a b)) →
  (∀ a b, P a → P b → P (Power a b)) →
  (∀ f parameters, Forall P parameters → P (Call f parameters)) →
  (∀ a operator b, P a → P b → P (Comparison a operator b)) →
  (∀ children, Forall P children → P (LogicalOr children)) →
  (∀ children, Forall P children → P (LogicalAnd children)) →
  (∀ c t f, P c → P t → P f → P (IfThenElse c t f)) →
  ∀ e, P e.
Proof.
  intros HC HV HS HP HQ HW HF HM HO HA HI.
  fix IH 1. intros e.
  destruct e as [c|name|children|children|a b|a b|f children|a operator b
                |children|children|c t f];
    [apply HC|apply HV|apply HS|apply HP|apply HQ|apply HW|apply HF
    |apply HM|apply HO|apply HA|apply HI]; try apply IH.
  all: revert children; fix IHl 1; intros [|child rest]; constructor;
    [apply IH|apply IHl].
Qed.

(** *** Evaluation and the context *)

(** The variables of an expression, as far as the context is concerned:
    the function of a call is looked up in the function table only. *)
Fixpoint variables {V : Type} (e : expr V) : list string :=
  match e with
  | Constant _ => []
  | Var name => [name]
  | Sum children | Product children | LogicalOr children
  | LogicalAnd children | Call _ children => concat (map variables children)
  | Quotient a b | Power a b | Comparison a _ b => variables a ++ variables b
  | IfThenElse c t f => variables c ++ variables t ++ variables f
  end.

Section Coincidence.

Context {V F : Type}.
Variable py : python V F.
Variable functions : gmap string F.

Abbreviation eval := (λ context, evaluate py context functions).

Lemma map_evaluate_agree (context1 context2 : gmap string V)
    (children : list (expr V)) :
  Forall (λ e, (∀ x, x ∈ variables e → context1 !! x = context2 !! x) →
               eval context1 e = eval context2 e) children →
  (∀ x, x ∈ concat (map variables children) → context1 !! x = context2 !! x) →
  map (eval context1) children = map (eval context2) children.
Proof.
  induction 1 as [|child rest Hc _ IH]; intros Hx; [done|]. simpl in *.
  rewrite Hc, IH; [done|..]; intros x Hin; apply Hx, elem_of_app; auto.
Qed.

(** Evaluation only depends on the context at the variables of the
    expression. *)
Lemma evaluate_agree (context1 context2 : gmap string V) (e : expr V) :
  (∀ x, x ∈ variables e → context1 !! x = context2 !! x) →
  eval context1 e = eval context2 e.
Proof.
  induction e as [c|name|children IH|children IH|a b IHa IHb|a b IHa IHb
                 |f parameters IH|a operator b IHa IHb|children IH|children IH
                 |c t f IHc IHt IHf] using expr_induction;
    intros Hx; simpl in *.
  - done.
  - unfold map_variable. rewrite (Hx name); [done|]. by apply list_elem_of_singleton.
  - by rewrite (map_evaluate_agree _ _ _ IH Hx).
  - by rewrite (map_evaluate_agree _ _ _ IH Hx).
  - rewrite IHa, IHb; [done|..]; intros x Hin; apply Hx, elem_of_app; auto.
  - rewrite IHa, IHb; [done|..]; intros x Hin; apply Hx, elem_of_app; auto.
  - by rewrite (map_evaluate_agree _ _ _ IH Hx).
  - rewrite IHa, IHb; [done|..]; intros x Hin; apply Hx, elem_of_app; auto.
  - by rewrite (map_evaluate_agree _ _ _ IH Hx).
  - by rewrite (map_evaluate_agree _ _ _ IH Hx).
  - rewrite IHc, IHt, IHf; [done|..]; intros x Hin; apply Hx;
      rewrite !elem_of_app; auto.
Qed.

End Coincidence.

(** *** Outcomes *)

(** The value of an outcome, if it is one. *)
Definition ok {A : Type} (r : result A) : option A :=
  match r with Ok a => Some a | Raise _ => None end.

Lemma ok_Some {A : Type} (r : result A) (a : A) : ok r = Some a ↔ r = Ok a.
Proof. destruct r; simpl; split; congruence. Qed.

(** [o'] returns what [o] returns, if [o] returns. *)
Definition below {A : Type} (o o' : result A) : Prop :=
  ∀ a, o = Ok a → o' = Ok a.

Lemma below_refl {A : Type} (o : result A) : below o o.
Proof. by intros a. Qed.

Lemma below_rbind {A B : Type} (o o' : result A) (k k' : A → result B) :
  below o o' → (∀ a, below (k a) (k' a)) → below (rbind o k) (rbind o' k').
Proof.
  intros Ho Hk b. destruct o as [a|e]; simpl; [|done].
  intros Hb. rewrite (Ho a eq_refl). simpl. by apply Hk.
Qed.

Section Monotone.

Context {V F : Type}.
Variable py : python V F.
Variable functions : gmap string F.

Lemma reduce_values_below (op : V → V → result V) (os os' : list (result V)) :
  Forall2 below os os' →
  ∀ acc, below (reduce_values op os acc) (reduce_values op os' acc).
Proof.
  induction 1 as [|o o' os os' Ho _ IH]; intros acc; [apply below_refl|].
  simpl. apply below_rbind; [done|]. intros a.
  apply below_rbind; [apply below_refl|]. intros b. apply IH.
Qed.

Lemma any_values_below (os os' : list (result V)) :
  Forall2 below os os' → below (any_values py os) (any_values py os').
Proof.
  induction 1 as [|o o' os os' Ho _ IH]; [apply below_refl|].
  simpl. apply below_rbind; [done|]. intros a.
  apply below_rbind; [apply below_refl|]. intros [|]; [apply below_refl|done].
Qed.

Lemma all_values_below (os os' : list (result V)) :
  Forall2 below os os' → below (all_values py os) (all_values py os').
Proof.
  induction 1 as [|o o' os os' Ho _ IH]; [apply below_refl|].
  simpl. apply below_rbind; [done|]. intros a.
  apply below_rbind; [apply below_refl|]. intros [|]; [done|apply below_refl].
Qed.

Lemma evaluated_parameters_below (os os' : list (result V)) :
  Forall2 below os os' →
  below (evaluated_parameters os) (evaluated_parameters os').
Proof.
  induction 1 as [|o o' os os' Ho _ IH]; [apply below_refl|].
  simpl. apply below_rbind; [done|]. intros a.
  apply below_rbind; [done|]. intros vs. apply below_refl.
Qed.

Lemma map_generic_call_below (name : string) (os os' : list (result V)) :
  Forall2 below os os' →
  below (map_generic_call py functions name os)
        (map_generic_call py functions name os').
Proof.
  intros H. unfold map_generic_call.
  destruct (functions !! name); [|apply below_refl].
  apply below_rbind; [by apply evaluated_parameters_below|].
  intros vs. apply below_refl.
Qed.

End Monotone.

(** *** Sums and products of values *)

Section Folding.

Context {V : Type}.

(** An operator with its unit, as far as collapsing relies on them: the
    operator is commutative and associative, failures included; the unit
    is neutral where adding it is defined, and it is defined on the
    results of the operator. *)
Record monoid_laws (op : V → V → result V) (unit : V) : Prop := {
  op_comm : ∀ a b, ok (op a b) = ok (op b a);
  op_assoc : ∀ a b c,
    ok (rbind (op a b) (λ x, op x c)) = ok (rbind (op b c) (λ y, op a y));
  op_unit : ∀ a b, op unit a = Ok b → b = a;
  op_unit_result : ∀ a b c, op a b = Ok c → op unit c = Ok c
}.

Variable op : V → V → result V.
Variable unit : V.
Hypothesis laws : monoid_laws op unit.

(** One step of the fold, on optional values. *)
Definition step (acc o : option V) : option V :=
  match acc, o with
  | Some a, Some b => ok (op a b)
  | _, _ => None
  end.

(** The fold of [reduce_values], on optional values. *)
Definition fold_values (os : list (option V)) (acc : option V) : option V :=
  foldl step acc os.

Lemma step_None (o : option V) : step None o = None.
Proof. done. Qed.

Lemma fold_values_None (os : list (option V)) : fold_values os None = None.
Proof. by induction os. Qed.

Lemma reduce_values_fold (os : list (result V)) (acc : V) :
  ok (reduce_values op os acc) = fold_values (map ok os) (Some acc).
Proof.
  revert acc. induction os as [|o os IH]; intros acc; [done|].
  simpl. destruct o as [b|e]; simpl; [|by rewrite fold_values_None].
  destruct (op acc b) as [c|e]; simpl; [apply IH|by rewrite fold_values_None].
Qed.

Lemma step_ok (r : result V) (c : V) :
  step (ok r) (Some c) = ok (rbind r (λ x, op x c)).
Proof. by destruct r. Qed.

Lemma step_swap (acc o1 o2 : option V) :
  step (step acc o1) o2 = step (step acc o2) o1.
Proof.
  destruct acc as [a|], o1 as [b|], o2 as [c|]; simpl; try done.
  - rewrite !step_ok, (op_assoc _ _ laws a b c), (op_assoc _ _ laws a c b).
    pose proof (op_comm _ _ laws b c) as H.
    destruct (op b c), (op c b); simpl in *; congruence.
  - by destruct (op a b).
  - by destruct (op a c).
Qed.

Lemma fold_values_perm (os os' : list (option V)) :
  os ≡ₚ os' → ∀ acc, fold_values os acc = fold_values os' acc.
Proof.
  induction 1 as [|o os os' _ IH|o1 o2 os|os1 os2 os3 _ IH1 _ IH2];
    intros acc; simpl.
  - done.
  - apply IH.
  - unfold fold_values. simpl. by rewrite step_swap.
  - by rewrite IH1.
Qed.

Lemma fold_values_app (os1 os2 : list (option V)) (acc : option V) :
  fold_values (os1 ++ os2) acc = fold_values os2 (fold_values os1 acc).
Proof. apply foldl_app. Qed.

(** The value of a non-empty fold is a result of the operator. *)
Lemma fold_values_result (os : list (option V)) (acc : option V) (v : V) :
  os ≠ [] → fold_values os acc = Some v → ∃ a b, op a b = Ok v.
Proof.
  intros Hne. destruct (decide (os = [])) as [|_]; [done|].
  destruct os as [|o os _] using rev_ind; [done|].
  rewrite fold_values_app. simpl.
  destruct (fold_values os acc) as [a|], o as [b|]; simpl; try done.
  intros Hv%ok_Some. eauto.
Qed.

Lemma fold_values_below (os os' : list (option V)) (acc : option V) (v : V) :
  Forall2 (λ o o', ∀ w, o = Some w → o' = Some w) os os' →
  fold_values os acc = Some v → fold_values os' acc = Some v.
Proof.
  intros H. revert acc. induction H as [|o o' os os' Ho _ IH]; intros acc;
    [done|].
  simpl. destruct acc as [a|]; [|by rewrite fold_values_None].
  destruct o as [b|]; simpl; [|by rewrite fold_values_None].
  rewrite (Ho b eq_refl). apply IH.
Qed.

End Folding.

(** *** Collapsing preserves values *)

Section Sound.

Context {V F : Type} `{EqDecision V}.
Variable py : python V F.
Variable functions : gmap string F.

(** The context the original expression is evaluated in. *)
Variable context : gmap string V.

Variable new_var_func : nat → string.
Variable is_constant : @dict V.

(** The names the original expression may mention; no two fresh
    variables are the same. *)
Variable old : string → Prop.
Hypothesis fresh_inj : ∀ n m, new_var_func n = new_var_func m → n = m.

Hypothesis add_laws : monoid_laws (py_add py) (py_zero py).
Hypothesis mul_laws : monoid_laws (py_mul py) (py_one py).

(** The outcome of evaluating an expression in a context, and its value
    if it has one. *)
Definition value_in (ctx : gmap string V) (e : expr V) : result V :=
  evaluate py ctx functions e.
Definition okv (ctx : gmap string V) (e : expr V) : option V :=
  ok (value_in ctx e).

Abbreviation mapper := (expr V → mapper_state → result (expr V * @mapper_state V)).

(** Every assignment binds a fresh variable issued so far to an expression
    over the old names. *)
Definition wf (s : @mapper_state V) : Prop :=
  ∀ x e, assignments s !! x = Some e →
         (∃ n, n < calls s ∧ x = new_var_func n) ∧ Forall old (variables e).

(** A context in which the assignments have been executed: it binds each
    assigned variable to the value of its expression, and the old names as
    the original context does. *)
Definition good (ctx : gmap string V) (A : gmap string (expr V)) : Prop :=
  (∀ x e, A !! x = Some e →
          ∃ v, value_in context e = Ok v ∧ ctx !! x = Some v)
  ∧ (∀ y, old y → ctx !! y = context !! y).

(** [e'] in the new context has the value of [e] in the original one. *)
Definition sound (ctx : gmap string V) (e e' : expr V) : Prop :=
  below (value_in context e) (value_in ctx e').

(** What a mapper step from [s] to [s'] that turns [e] into [e']
    guarantees. *)
Definition post (s : @mapper_state V) (e e' : expr V) (s' : @mapper_state V)
  : Prop :=
  wf s' ∧ assignments s ⊆ assignments s' ∧ calls s ≤ calls s'
  ∧ ∀ ctx, good ctx (assignments s') → sound ctx e e'.

Definition correct (f : mapper) (e : expr V) : Prop :=
  Forall old (variables e) →
  ∀ s e' s', wf s → f e s = Ok (e', s') → post s e e' s'.

Lemma good_mono (ctx : gmap string V) (A A' : gmap string (expr V)) :
  A ⊆ A' → good ctx A' → good ctx A.
Proof.
  intros Hsub [H1 H2]. split; [|done]. intros x e Hx. apply H1.
  by eapply lookup_weaken.
Qed.

Lemma good_agree (ctx : gmap string V) (A : gmap string (expr V)) (e : expr V) :
  good ctx A → Forall old (variables e) → value_in ctx e = value_in context e.
Proof.
  intros [_ Hold] He. unfold value_in. apply evaluate_agree.
  intros x Hx. apply Hold.
  by eapply Forall_forall in He.
Qed.

Lemma post_refl (s : @mapper_state V) (e : expr V) :
  wf s → Forall old (variables e) → post s e e s.
Proof.
  intros Hs He. split; [done|]. split; [done|]. split; [done|].
  intros ctx Hgood v. by rewrite (good_agree _ _ _ Hgood He).
Qed.

Lemma hoist_post (e : expr V) (s : @mapper_state V) :
  Forall old (variables e) → wf s →
  post s e (hoist new_var_func e s).1 (hoist new_var_func e s).2.
Proof.
  intros He Hs. unfold hoist. simpl.
  assert (assignments s !! new_var_func (calls s) = None) as Hnone.
  { destruct (assignments s !! new_var_func (calls s)) as [e0|] eqn:E; [|done].
    apply Hs in E as [(n & Hn & Heq) _]. apply fresh_inj in Heq. lia. }
  split; [|split; [|split]]; simpl.
  - intros x e0 Hx. simpl in Hx.
    destruct (decide (x = new_var_func (calls s))) as [->|Hne].
    + rewrite lookup_insert_eq in Hx. injection Hx as <-.
      split; [|done]. exists (calls s). split; [simpl; lia|done].
    + rewrite lookup_insert_ne in Hx by done.
      apply Hs in Hx as [(n & Hn & Heq) Hold]. split; [|done].
      exists n. split; [simpl; lia|done].
  - by apply insert_subseteq.
  - lia.
  - intros ctx [Hgood _] v Hv.
    destruct (Hgood (new_var_func (calls s)) e) as (v' & Hv' & Hctx).
    { by rewrite lookup_insert_eq. }
    unfold value_in in *. simpl. unfold map_variable. rewrite Hctx. congruence.
Qed.

Lemma rec_with_correct (f : mapper) (e : expr V) :
  correct f e → correct (rec_with new_var_func is_constant f) e.
Proof.
  intros Hf He s e' s' Hs. unfold rec_with.
  destruct (_is_atomic e); [by apply Hf|].
  destruct (dict_get is_constant e) as [[|]|]; simpl; [| |done].
  - intros [= <- <-]. by apply hoist_post.
  - by apply Hf.
Qed.

Lemma rec_children_correct (f : mapper) (children : list (expr V)) :
  Forall (correct f) children →
  Forall old (concat (map variables children)) →
  ∀ s children' s', wf s →
    rec_children f children s = Ok (children', s') →
    wf s' ∧ assignments s ⊆ assignments s' ∧ calls s ≤ calls s'
    ∧ ∀ ctx, good ctx (assignments s') → Forall2 (sound ctx) children children'.
Proof.
  induction 1 as [|child rest Hc _ IH]; intros Hold s children' s' Hs; simpl.
  - intros [= <- <-]. split; [done|]. split; [done|]. split; [done|].
    by constructor.
  - simpl in Hold. apply Forall_app in Hold as [Hold1 Hold2].
    destruct (f child s) as [[child' s1]|] eqn:E1; simpl; [|done].
    destruct (rec_children f rest s1) as [[rest' s2]|] eqn:E2; simpl; [|done].
    intros [= <- <-].
    destruct (Hc Hold1 _ _ _ Hs E1) as (Hs1 & Hsub1 & Hle1 & Hsound1).
    destruct (IH Hold2 _ _ _ Hs1 E2) as (Hs2 & Hsub2 & Hle2 & Hsound2).
    split; [done|]. split; [by etrans|]. split; [lia|].
    intros ctx Hgood. constructor; [|by apply Hsound2].
    apply Hsound1. by eapply good_mono.
Qed.

(** The loop of [map_commut_assoc] splits the children into the constants
    and the others, of which it returns the images. *)
Lemma classify_correct (f : mapper) (children : list (expr V)) :
  Forall (correct f) children →
  Forall old (concat (map variables children)) →
  ∀ s constants non_constants' s', wf s →
    classify is_constant f children s = Ok (constants, non_constants', s') →
    wf s' ∧ assignments s ⊆ assignments s' ∧ calls s ≤ calls s'
    ∧ Forall old (concat (map variables constants))
    ∧ ∃ non_constants,
        children ≡ₚ constants ++ non_constants
        ∧ (constants = [] → children = non_constants)
        ∧ ∀ ctx, good ctx (assignments s') →
                 Forall2 (sound ctx) non_constants non_constants'.
Proof.
  induction 1 as [|child rest Hc _ IH];
    intros Hold s constants non_constants' s' Hs; simpl.
  - intros [= <- <- <-]. split; [done|]. split; [done|]. split; [done|].
    split; [done|]. exists []. split; [done|]. split; [done|]. by constructor.
  - simpl in Hold. apply Forall_app in Hold as [Hold1 Hold2].
    destruct (dict_get is_constant child) as [[|]|]; simpl; [| |done].
    + destruct (classify is_constant f rest s) as [[[cs ns'] s1]|] eqn:E;
        simpl; [|done].
      intros [= <- <- <-].
      destruct (IH Hold2 _ _ _ _ Hs E)
        as (Hs1 & Hsub & Hle & Hcs & ns & Hperm & _ & Hsound).
      split; [done|]. split; [done|]. split; [done|].
      split; [simpl; apply Forall_app; by split|].
      exists ns. split; [simpl; by constructor|]. split; [done|]. done.
    + destruct (f child s) as [[child' s1]|] eqn:E1; simpl; [|done].
      destruct (classify is_constant f rest s1) as [[[cs ns'] s2]|] eqn:E2;
        simpl; [|done].
      intros [= <- <- <-].
      destruct (Hc Hold1 _ _ _ Hs E1) as (Hs1 & Hsub1 & Hle1 & Hsound1).
      destruct (IH Hold2 _ _ _ _ Hs1 E2)
        as (Hs2 & Hsub2 & Hle2 & Hcs & ns & Hperm & Hnil & Hsound2).
      split; [done|]. split; [by etrans|]. split; [lia|]. split; [done|].
      exists (child :: ns). split; [|split].
      * rewrite Hperm. apply Permutation_middle.
      * intros ->. by rewrite (Hnil eq_refl).
      * intros ctx Hgood. constructor; [|by apply Hsound2].
        apply Hsound1. by eapply good_mono.
Qed.

Section CommutAssoc.

(** [Sum] with addition from 0, or [Product] with multiplication from 1. *)
Variable combine_func : list (expr V) → expr V.
Variable op : V → V → result V.
Variable unit : V.
Hypothesis laws : monoid_laws op unit.
Hypothesis value_combine : ∀ ctx children,
  value_in ctx (combine_func children)
  = reduce_values op (map (value_in ctx) children) unit.
Hypothesis variables_combine : ∀ children,
  variables (combine_func children) = concat (map variables children).

Lemma okv_combine (ctx : gmap string V) (children : list (expr V)) :
  okv ctx (combine_func children)
  = fold_values op (map (okv ctx) children) (Some unit).
Proof.
  unfold okv. rewrite value_combine, reduce_values_fold. by rewrite map_map.
Qed.

Lemma sound_values (ctx : gmap string V) (es es' : list (expr V)) :
  Forall2 (sound ctx) es es' →
  Forall2 (λ o o', ∀ w, o = Some w → o' = Some w)
          (map (okv context) es) (map (okv ctx) es').
Proof.
  induction 1 as [|e e' es es' He _ IH]; simpl; constructor; [|done].
  intros w Hw%ok_Some. apply ok_Some. by apply He.
Qed.

(** The node rebuilt from the folded constant [folded], which stands for
    [hoisted],
    and the images of the other children. *)
Lemma folded_post (children constants non_constants non_constants' : list (expr V))
    (s1 s2 : @mapper_state V) (hoisted folded : expr V) :
  children ≡ₚ constants ++ non_constants →
  (∀ ctx, good ctx (assignments s1) →
          Forall2 (sound ctx) non_constants non_constants') →
  post s1 hoisted folded s2 →
  (∀ x, fold_values op (map (okv context) constants) (Some unit) = Some x →
        value_in context hoisted = Ok x ∧ op unit x = Ok x) →
  post s1 (combine_func children)
       match non_constants' with
       | [] => folded
       | _ => combine_func (folded :: non_constants')
       end s2.
Proof.
  intros Hperm Hns (Hs2 & Hsub & Hle & HF) HE.
  split; [done|]. split; [done|]. split; [done|].
  intros ctx Hgood v Hv%ok_Some.
  change (okv context (combine_func children) = Some v) in Hv.
  rewrite okv_combine in Hv.
  rewrite (fold_values_perm op unit laws _ _
             (Permutation_map (okv context) Hperm)) in Hv.
  rewrite map_app, fold_values_app in Hv.
  destruct (fold_values op (map (okv context) constants) (Some unit))
    as [x|] eqn:EX; [|by rewrite fold_values_None in Hv].
  destruct (HE x eq_refl) as [HEx Hunit].
  pose proof (HF ctx Hgood x HEx) as HFx.
  pose proof (Hns ctx (good_mono _ _ _ Hsub Hgood)) as Hns'.
  destruct non_constants' as [|n' ns'].
  - inversion Hns'; subst. simpl in Hv. congruence.
  - apply ok_Some.
    change (okv ctx (combine_func (folded :: n' :: ns')) = Some v).
    rewrite okv_combine. simpl map.
    change (fold_values op (?o :: ?os) ?acc)
      with (fold_values op os (step op acc o)).
    assert (okv ctx folded = Some x) as -> by (by apply ok_Some).
    simpl step. rewrite Hunit. change (ok (Ok x)) with (Some x).
    eapply fold_values_below; [|exact Hv].
    exact (sound_values ctx non_constants (n' :: ns') Hns').
Qed.

Lemma commut_assoc_finish_correct
    (children constants non_constants non_constants' : list (expr V))
    (s1 s2 : @mapper_state V) (e' : expr V) :
  children ≡ₚ constants ++ non_constants →
  (constants = [] → children = non_constants) →
  Forall old (concat (map variables constants)) →
  wf s1 →
  (∀ ctx, good ctx (assignments s1) →
          Forall2 (sound ctx) non_constants non_constants') →
  commut_assoc_finish new_var_func combine_func constants non_constants' s1
  = Ok (e', s2) →
  post s1 (combine_func children) e' s2.
Proof.
  intros Hperm Hnil Hold Hs1 Hns. unfold commut_assoc_finish.
  destruct constants as [|c cs].
  - rewrite (Hnil eq_refl) in *.
    destruct non_constants' as [|n1 [|n2 ns']]; [done|done|].
    intros [= <- <-].
    split; [done|]. split; [done|]. split; [done|].
    intros ctx Hgood v. rewrite !value_combine.
    apply reduce_values_below.
    specialize (Hns ctx Hgood).
    clear -Hns. induction Hns; simpl; constructor; auto.
  - destruct cs as [|c2 cs].
    + (* a single constant *)
      simpl in Hold. rewrite app_nil_r in Hold.
      assert (∀ x, fold_values op (map (okv context) [c]) (Some unit) = Some x →
                   value_in context c = Ok x ∧ op unit x = Ok x) as HE.
      { intros x. unfold fold_values, okv. simpl.
        destruct (value_in context c) as [w|] eqn:Ew; simpl; [|done].
        intros Hx%ok_Some. pose proof (op_unit _ _ laws _ _ Hx) as ->.
        by split. }
      destruct (_is_atomic c).
      * intros Hres.
        assert (Ok (match non_constants' with
                    | [] => c
                    | _ => combine_func (c :: non_constants')
                    end, s1) = Ok (e', s2)) as [= <- <-]
          by (by destruct non_constants').
        eapply folded_post; [done|done| |done]. by apply post_refl.
      * pose proof (hoist_post c s1 Hold Hs1) as Hpost.
        destruct (hoist new_var_func c s1) as [folded s'] eqn:Eh. simpl in Hpost.
        intros Hres.
        assert (Ok (match non_constants' with
                    | [] => folded
                    | _ => combine_func (folded :: non_constants')
                    end, s') = Ok (e', s2)) as [= <- <-]
          by (by destruct non_constants').
        by eapply folded_post.
    + (* several constants *)
      assert (Forall old (variables (combine_func (c :: c2 :: cs)))) as Hold'
        by (by rewrite variables_combine).
      pose proof (hoist_post _ s1 Hold' Hs1) as Hpost.
      destruct (hoist new_var_func (combine_func (c :: c2 :: cs)) s1)
        as [folded s'] eqn:Eh. simpl in Hpost.
      intros Hres.
      assert (Ok (match non_constants' with
                  | [] => folded
                  | _ => combine_func (folded :: non_constants')
                  end, s') = Ok (e', s2)) as [= <- <-]
        by (by destruct non_constants').
      eapply folded_post; [done|done|done|].
      intros x Hx. split.
      * apply ok_Some.
        change (okv context (combine_func (c :: c2 :: cs)) = Some x).
        by rewrite okv_combine.
      * assert (map (okv context) (c :: c2 :: cs) ≠ []) as Hne by done.
        destruct (fold_values_result op _ _ _ Hne Hx) as (a & b & Hab).
        by eapply op_unit_result.
Qed.

End CommutAssoc.

Abbreviation dispatch_ := (dispatch new_var_func is_constant).
Abbreviation rec_ := (rec_with new_var_func is_constant dispatch_).

Lemma sound_outcomes (ctx : gmap string V) (es es' : list (expr V)) :
  Forall2 (sound ctx) es es' →
  Forall2 below (map (value_in context) es) (map (value_in ctx) es').
Proof. induction 1; simpl; constructor; auto. Qed.

(** A node with two children that are mapped one after the other. *)
Lemma binary_correct (node : expr V → expr V → expr V)
    (k : V → V → result V) (a b : expr V) :
  (∀ ctx a b, value_in ctx (node a b)
              = rbind (value_in ctx a) (λ x,
                rbind (value_in ctx b) (λ y, k x y))) →
  correct dispatch_ a → correct dispatch_ b →
  Forall old (variables a ++ variables b) →
  ∀ s e' s', wf s →
    rbind (rec_ a s) (λ '(a', s1),
    rbind (rec_ b s1) (λ '(b', s2), Ok (node a' b', s2))) = Ok (e', s') →
    post s (node a b) e' s'.
Proof.
  intros Hnode Ha Hb [Hold1 Hold2]%Forall_app s e' s' Hs.
  destruct (rec_ a s) as [[a' s1]|] eqn:E1; simpl; [|done].
  destruct (rec_ b s1) as [[b' s2]|] eqn:E2; simpl; [|done].
  intros [= <- <-].
  destruct (rec_with_correct _ _ Ha Hold1 _ _ _ Hs E1)
    as (Hs1 & Hsub1 & Hle1 & Hsound1).
  destruct (rec_with_correct _ _ Hb Hold2 _ _ _ Hs1 E2)
    as (Hs2 & Hsub2 & Hle2 & Hsound2).
  split; [done|]. split; [by etrans|]. split; [lia|].
  intros ctx Hgood. unfold sound. rewrite !Hnode.
  apply below_rbind; [apply Hsound1; by eapply good_mono|]. intros x.
  apply below_rbind; [by apply Hsound2|]. intros y. apply below_refl.
Qed.

(** A node whose children are mapped in order. *)
Lemma nary_correct (node : list (expr V) → expr V)
    (k : list (result V) → result V) (children : list (expr V)) :
  (∀ ctx children, value_in ctx (node children)
                   = k (map (value_in ctx) children)) →
  (∀ os os', Forall2 below os os' → below (k os) (k os')) →
  Forall (correct dispatch_) children →
  Forall old (concat (map variables children)) →
  ∀ s e' s', wf s →
    rbind (rec_children rec_ children s)
          (λ '(children', s1), Ok (node children', s1)) = Ok (e', s') →
    post s (node children) e' s'.
Proof.
  intros Hnode Hk Hch Hold s e' s' Hs.
  destruct (rec_children rec_ children s) as [[children' s1]|] eqn:E; simpl;
    [|done].
  intros [= <- <-].
  destruct (rec_children_correct rec_ children) with (s := s)
    (children' := children') (s' := s1) as (Hs1 & Hsub & Hle & Hsound);
    try done.
  { eapply Forall_impl; [exact Hch|]. intros e He. by apply rec_with_correct. }
  split; [done|]. split; [done|]. split; [done|].
  intros ctx Hgood. unfold sound. rewrite !Hnode.
  apply Hk. apply sound_outcomes. by apply Hsound.
Qed.

(** A sum or a product. *)
Lemma commut_assoc_correct (combine_func : list (expr V) → expr V)
    (op : V → V → result V) (unit : V) (children : list (expr V)) :
  monoid_laws op unit →
  (∀ ctx children, value_in ctx (combine_func children)
                   = reduce_values op (map (value_in ctx) children) unit) →
  (∀ children, variables (combine_func children)
               = concat (map variables children)) →
  Forall (correct dispatch_) children →
  Forall old (concat (map variables children)) →
  ∀ s e' s', wf s →
    rbind (classify is_constant rec_ children s)
          (λ '(constants, non_constants, s1),
             commut_assoc_finish new_var_func combine_func constants
               non_constants s1) = Ok (e', s') →
    post s (combine_func children) e' s'.
Proof.
  intros Hlaws Hvalue Hvars Hch Hold s e' s' Hs.
  destruct (classify is_constant rec_ children s) as [[[cs ns'] s1]|] eqn:E;
    simpl; [|done].
  intros Hfinish.
  destruct (classify_correct rec_ children) with (s := s) (constants := cs)
    (non_constants' := ns') (s' := s1)
    as (Hs1 & Hsub & Hle & Hcs & ns & Hperm & Hnil & Hsound); try done.
  { eapply Forall_impl; [exact Hch|]. intros e He. by apply rec_with_correct. }
  destruct (commut_assoc_finish_correct combine_func op unit Hlaws Hvalue
              Hvars children cs ns ns' s1 s' e')
    as (Hs' & Hsub' & Hle' & Hsound'); try done.
  split; [done|]. split; [by etrans|]. split; [lia|done].
Qed.

(** The collapsing mapper preserves the value of every expression. *)
Lemma dispatch_correct (e : expr V) : correct dispatch_ e.
Proof.
  induction e as [c|name|children IH|children IH|a b IHa IHb|a b IHa IHb
                 |f parameters IH|a operator b IHa IHb|children IH|children IH
                 |c t f IHc IHt IHf] using expr_induction;
    intros Hold s e' s' Hs.
  - intros [= <- <-]. by apply post_refl.
  - intros [= <- <-]. by apply post_refl.
  - by apply (commut_assoc_correct Sum (py_add py) (py_zero py)).
  - by apply (commut_assoc_correct Product (py_mul py) (py_one py)).
  - by apply (binary_correct Quotient (py_div py)).
  - by apply (binary_correct Power (py_pow py)).
  - apply (nary_correct (Call f) (map_generic_call py functions f)); try done.
    apply map_generic_call_below.
  - by apply (binary_correct (λ a b, Comparison a operator b)
                (py_compare py operator)).
  - apply (nary_correct LogicalOr (any_values py)); try done.
    apply any_values_below.
  - apply (nary_correct LogicalAnd (all_values py)); try done.
    apply all_values_below.
  - simpl in Hold. apply Forall_app in Hold as [Hold1 [Hold2 Hold3]%Forall_app].
    simpl.
    destruct (rec_ c s) as [[c' s1]|] eqn:E1; simpl; [|done].
    destruct (rec_ t s1) as [[t' s2]|] eqn:E2; simpl; [|done].
    destruct (rec_ f s2) as [[f' s3]|] eqn:E3; simpl; [|done].
    intros [= <- <-].
    destruct (rec_with_correct _ _ IHc Hold1 _ _ _ Hs E1)
      as (Hs1 & Hsub1 & Hle1 & Hsound1).
    destruct (rec_with_correct _ _ IHt Hold2 _ _ _ Hs1 E2)
      as (Hs2 & Hsub2 & Hle2 & Hsound2).
    destruct (rec_with_correct _ _ IHf Hold3 _ _ _ Hs2 E3)
      as (Hs3 & Hsub3 & Hle3 & Hsound3).
    split; [done|]. split; [by do 2 etrans|]. split; [lia|].
    intros ctx Hgood. unfold sound, value_in. simpl.
    apply below_rbind.
    { apply Hsound1. eapply good_mono; [|done]. by etrans. }
    intros x. apply below_rbind; [apply below_refl|]. intros [|].
    + apply Hsound2. by eapply good_mono.
    + by apply Hsound3.
Qed.

End Sound.

(** *** Executing the emitted assignments *)

Section Assignments.

Context {V F : Type}.
Variable py : python V F.
Variable functions : gmap string F.
Variable context : gmap string V.
Variable old : string → Prop.

(** Assignments to distinct variables that are not old names, of
    expressions over old names: each variable ends up bound to the value of
    its expression in the original context. *)
Lemma assign_all_good (l : list (string * expr V)) :
  ∀ ctx0 ctx',
    NoDup l.*1 →
    (∀ x e, (x, e) ∈ l → ¬ old x ∧ Forall old (variables e)) →
    (∀ y, old y → ctx0 !! y = context !! y) →
    assign_all py functions ctx0 l = Ok ctx' →
    (∀ x e, (x, e) ∈ l →
            ∃ v, evaluate py context functions e = Ok v ∧ ctx' !! x = Some v)
    ∧ (∀ y, y ∉ l.*1 → ctx' !! y = ctx0 !! y).
Proof.
  induction l as [|[x e] l IH]; intros ctx0 ctx' Hnd Hl Hold; simpl.
  - intros [= <-]. split; [|done]. intros x e Hin. by inversion Hin.
  - unfold assign. simpl.
    destruct (evaluate py ctx0 functions e) as [v|] eqn:Ev; simpl; [|done].
    intros Hrest. apply NoDup_cons in Hnd as [Hx Hnd].
    destruct (Hl x e) as [Hnew He]; [by left|].
    assert (evaluate py context functions e = Ok v) as Hv.
    { rewrite <- Ev. symmetry. apply evaluate_agree. intros y Hy.
      apply Hold. by eapply Forall_forall in He. }
    destruct (IH (<[x := v]> ctx0) ctx' Hnd) as [Hin Hout]; try done.
    { intros x' e' Hin'. apply Hl. by right. }
    { intros y Hy. rewrite lookup_insert_ne; [by apply Hold|].
      by intros <-. }
    split.
    + intros x' e' [[= -> ->]|Hin']%elem_of_cons; [|by apply Hin].
      exists v. split; [done|]. rewrite Hout; [|done].
      by rewrite lookup_insert_eq.
    + intros y [Hne Hy]%not_elem_of_cons. rewrite Hout; [|done].
      by rewrite lookup_insert_ne.
Qed.

End Assignments.

(** The laws collapsing relies on: addition with 0 and multiplication
    with 1 are commutative and associative, failures included, and their
    units are neutral on the values they apply to. *)
Definition lawful {V F : Type} (py : python V F) : Prop :=
  monoid_laws (py_add py) (py_zero py) ∧ monoid_laws (py_mul py) (py_one py).


Lemma ints_lawful : lawful ints.
Proof.
  split; split; simpl.
  - intros [|x|] [|y|]; simpl; try done. by rewrite Z.add_comm.
  - intros [|x|] [|y|] [|z|]; simpl; try done. by rewrite Z.add_assoc.
  - by intros [|x|] b [= <-].
  - intros [|x|] [|y|] c; simpl; try done. by intros [= <-].
  - intros [|x|] [|y|]; simpl; try done. by rewrite Z.mul_comm.
  - intros [|x|] [|y|] [|z|]; simpl; try done. by rewrite Z.mul_assoc.
  - intros [|x|] b [= <-]; simpl. by destruct x.
  - intros [|x|] [|y|] c; simpl; try done. intros [= <-].
    by destruct (x * y)%Z.
Qed.

Lemma fresh_inj (n m : nat) : fresh n = fresh m → n = m.
Proof. unfold fresh. simpl. intros [= H]. by apply (inj pretty). Qed.


(** *** An instance: numbers and matrices

    Python's [int], [bool] and [float] with their coercions, and 2 x 2
    matrices of integers as [numpy.matrix] has them: [*] of two matrices
    is the matrix product, a number is applied to every entry. *)
Inductive pyobject : Type :=
| NoneObject
| Int (z : Z)
| Bool (b : bool)
| Float (q : Q)
| Matrix (a b c d : Z).

#[global] Instance Q_eq_dec : EqDecision Q.
Proof. solve_decision. Defined.

#[global] Instance pyobject_eq_dec : EqDecision pyobject.
Proof. solve_decision. Defined.

(** The value of an [int] or a [bool] as an integer. *)
Definition as_int (v : pyobject) : option Z :=
  match v with
  | Int z => Some z
  | Bool b => Some (if b then 1 else 0)%Z
  | _ => None
  end.

(** [float(v)] for a number. *)
Definition as_float (v : pyobject) : option Q :=
  match v with
  | Float q => Some q
  | _ => (λ z, binary64 (inject_Z z)) <$> as_int v
  end.

(** An operator on two numbers: on integers when both are [int] or
    [bool], on floats when one is a [float]. *)
Definition number_op (int_case : Z → Z → result pyobject)
    (float_case : Q → Q → result pyobject) (a b : pyobject)
  : result pyobject :=
  match as_int a, as_int b with
  | Some x, Some y => int_case x y
  | _, _ =>
      match as_float a, as_float b with
      | Some x, Some y => float_case x y
      | _, _ => Raise TypeError
      end
  end.

Definition object_add (a b : pyobject) : result pyobject :=
  match a, b with
  | Matrix a11 a12 a21 a22, Matrix b11 b12 b21 b22 =>
      Ok (Matrix (a11 + b11) (a12 + b12) (a21 + b21) (a22 + b22))
  | Matrix a11 a12 a21 a22, v | v, Matrix a11 a12 a21 a22 =>
      match as_int v with
      | Some z => Ok (Matrix (a11 + z) (a12 + z) (a21 + z) (a22 + z))
      | None => Raise TypeError
      end
  | _, _ => number_op (λ x y, Ok (Int (x + y)))
                      (λ x y, Ok (Float (binary64 (x + y)))) a b
  end.

Definition object_mul (a b : pyobject) : result pyobject :=
  match a, b with
  | Matrix a11 a12 a21 a22, Matrix b11 b12 b21 b22 =>
      Ok (Matrix (a11 * b11 + a12 * b21) (a11 * b12 + a12 * b22)
                 (a21 * b11 + a22 * b21) (a21 * b12 + a22 * b22))
  | Matrix a11 a12 a21 a22, v | v, Matrix a11 a12 a21 a22 =>
      match as_int v with
      | Some z => Ok (Matrix (a11 * z) (a12 * z) (a21 * z) (a22 * z))
      | None => Raise TypeError
      end
  | _, _ => number_op (λ x y, Ok (Int (x * y)))
                      (λ x y, Ok (Float (binary64 (x * y)))) a b
  end.

(** The value of a number. *)
Definition as_rational (v : pyobject) : option Q :=
  match v with
  | Float q => Some q
  | _ => inject_Z <$> as_int v
  end.

(** [/] of two numbers, as [from __future__ import division] has it: the
    quotient of two integers is rounded once. *)
Definition object_div (a b : pyobject) : result pyobject :=
  number_op (λ x y, if (y =? 0)%Z then Raise ZeroDivisionError
                    else Ok (Float (binary64 (inject_Z x / inject_Z y))))
            (λ x y, if Qeq_bool y 0 then Raise ZeroDivisionError
                    else Ok (Float (binary64 (x / y)))) a b.

(** Numbers are compared by value. *)
Definition object_compare (operator : string) (a b : pyobject)
  : result pyobject :=
  match as_rational a, as_rational b with
  | Some x, Some y =>
      if String.eqb operator "<" then Ok (Bool (negb (Qle_bool y x)))
      else if String.eqb operator "==" then Ok (Bool (Qeq_bool x y))
      else Raise (UserError "operator")
  | _, _ => Raise TypeError
  end.

Definition object_truth (v : pyobject) : result bool :=
  match v with
  | NoneObject => Ok false
  | Int z => Ok (negb (z =? 0)%Z)
  | Bool b => Ok b
  | Float q => Ok (negb (Qeq_bool q 0))
  | Matrix _ _ _ _ => Raise (ValueError "truth value of an array")
  end.

(** The values of the second instance; no functions, and powers are left
    out. *)
Definition objects : python pyobject Empty_set :=
  {| py_none := NoneObject;
     py_zero := Int 0;
     py_one := Int 1;
     py_add := object_add;
     py_mul := object_mul;
     py_div := object_div;
     py_pow := λ _ _, Raise (UserError "power");
     py_compare := object_compare;
     py_truth := object_truth;
     py_bool := Bool;
     py_function := λ f : Empty_set, match f with end;
     py_call := λ (f : Empty_set) _, match f with end |}.

(** The context of the counterexample: [x] is 1. *)
Definition context_x : gmap string pyvalue := {[ "x" := PyInt 1 ]}.

(** The contexts of the other counterexamples: [x] is the float [1e16];
    [x] and [a] are two matrices. *)
Definition context_float : gmap string pyobject :=
  {[ "x" := Float 10000000000000000 ]}.

Definition context_matrices : gmap string pyobject :=
  <["a" := Matrix 1 0 1 1]> {[ "x" := Matrix 1 1 0 1 ]}.


End ExpressionFacts.

(** * Further properties *)

(** ** Kinds: the algebra of [unify] *)

Module KindAlgebra.
Import Data DataFacts.
Import ExpressionFacts.

(** X1: [unify] is commutative, the exception raised included. *)
Theorem unify_commutative (kind_a kind_b : kind) :
  unify kind_a kind_b = unify kind_b kind_a.
Proof.
  destruct kind_a as [[|ra|ra|ca]|], kind_b as [[|rb|rb|cb]|]; simpl;
    try done; try (by destruct ra, rb).
  repeat case_bool_decide; congruence.
Qed.

Lemma ok_rbind {A B : Type} (r r' : result A) (k : A → result B) :
  ok r = ok r' → ok (rbind r k) = ok (rbind r' k).
Proof. destruct r, r'; simpl; congruence. Qed.

(** [unify] with [None] obeys the laws of a commutative monoid, as far as
    it returns. *)
Lemma unify_laws : monoid_laws unify None.
Proof.
  split.
  - intros a b. f_equal. destruct a as [[|ra|ra|ca]|], b as [[|rb|rb|cb]|];
      simpl; try done; try (by destruct ra, rb).
    repeat case_bool_decide; congruence.
  - intros a b c.
    destruct a as [[|ra|ra|ca]|], b as [[|rb|rb|cb]|], c as [[|rc|rc|cc]|];
      simpl; try done;
      repeat (case_bool_decide; simpl); try done; try congruence;
      try (by destruct ra, rb, rc); try (by destruct ra, rb);
      try (by destruct rb, rc); try (by destruct ra, rc).
  - intros a b. simpl. congruence.
  - done.
Qed.

(** X2: Unifying three kinds gives the same kind whichever two are unified
    first; when the unification fails, the exceptions may differ. *)
Theorem unify_associative (a b c : kind) :
  ok (rbind (unify a b) (λ ab, unify ab c))
  = ok (rbind (unify b c) (λ bc, unify a bc)).
Proof. exact (op_assoc _ _ unify_laws a b c). Qed.

(** X3: The kind [unify] returns absorbs both operands, unless it is
    [Boolean]; and it is [Boolean] only when one operand is [Boolean] and
    the other is [None], in which case the check for flags is not
    reached. *)
Theorem unify_upper_bound (a b c : kind) :
  unify a b = Ok c →
  (c ≠ Some Boolean → unify c a = Ok c ∧ unify c b = Ok c)
  ∧ (c = Some Boolean ↔
     a = Some Boolean ∧ b = None ∨ a = None ∧ b = Some Boolean).
Proof.
  destruct a as [[|ra|ra|ca]|], b as [[|rb|rb|cb]|]; simpl;
    repeat (case_bool_decide; simpl); intros [= <-]; simpl;
    (split; [intros Hc|split; [intros Hc|intros [[Ha Hb]|[Ha Hb]]]]);
    try done; try (by left); try (by right);
    repeat (case_bool_decide; simpl); try done;
    try (split; f_equal; f_equal; by destruct ra, rb);
    try (split; f_equal; f_equal; by destruct ra);
    try (split; f_equal; f_equal; by destruct rb);
    try congruence.
Qed.

Lemma unify_upper_bound_witness :
  unify (Some (Array false)) (Some (Scalar true)) = Ok (Some (Array false))
  ∧ unify (Some (Array false)) (Some (Array false)) = Ok (Some (Array false)).
Proof.
  destruct (unify_upper_bound (Some (Scalar true)) (Some (Array false))
              (Some (Array false))) as [H _]; [reflexivity|].
  destruct H as [H1 H2]; [discriminate|]. split; [exact H2|exact H2].
Defined.

(** *** The order of the operands *)

Section Order.

Context {C : Type}.
Variable is_complex : C → bool.
Variable function_registry : gmap string (list kind → result kind).
Variable global_tbl local_tbl : gmap string kind.

Abbreviation infer := (rec is_complex function_registry global_tbl local_tbl).

Lemma product_loop_fold (outcomes : list (result kind)) (k : kind) :
  ok (product_loop outcomes k) = fold_values unify (map ok outcomes) (Some k).
Proof.
  revert k. induction outcomes as [|o os IH]; intros k; [done|].
  simpl. destruct o as [b|e]; simpl; [|by rewrite fold_values_None].
  destruct (unify k b) as [c|e]; simpl; [apply IH|by rewrite fold_values_None].
Qed.

(** What an operand contributes to the loop of [map_sum]: nothing when its
    kind cannot be inferred yet, its kind, or a failure. *)
Definition sum_operand (o : result kind) : option (option kind) :=
  match o with
  | Raise UnableToInferKind => None
  | other => Some (ok other)
  end.

Lemma sum_loop_fold (outcomes : list (result kind)) (k : kind) :
  ok (sum_loop outcomes k)
  = fold_values unify (omap sum_operand outcomes) (Some k).
Proof.
  revert k. induction outcomes as [|o os IH]; intros k; [done|].
  destruct o as [b|e].
  - simpl. destruct (unify k b) as [c|e]; simpl; [apply IH|].
    by rewrite fold_values_None.
  - destruct e; simpl; try (by rewrite fold_values_None). apply IH.
Qed.

(** X4: The kind inferred for a sum, a product or a quotient does not depend
    on the order of the operands; when inference fails, the exception
    may. *)
Theorem kind_order_independent (children children' : list (expr C))
    (a b : expr C) :
  children ≡ₚ children' →
  ok (infer (Sum children)) = ok (infer (Sum children'))
  ∧ ok (infer (Product children)) = ok (infer (Product children'))
  ∧ ok (infer (Quotient a b)) = ok (infer (Quotient b a)).
Proof.
  intros Hperm. split; [|split].
  - simpl. unfold map_sum. apply ok_rbind. rewrite !sum_loop_fold.
    apply (fold_values_perm unify None unify_laws).
    by rewrite Hperm.
  - simpl. unfold map_product_like. rewrite !product_loop_fold.
    apply (fold_values_perm unify None unify_laws).
    by rewrite Hperm.
  - change (infer (Quotient a b))
      with (map_product_like (map infer [a; b])).
    change (infer (Quotient b a))
      with (map_product_like (map infer [b; a])).
    unfold map_product_like. rewrite !product_loop_fold.
    apply (fold_values_perm unify None unify_laws).
    apply Permutation_map, Permutation_map, perm_swap.
Qed.

End Order.

Lemma kind_order_independent_witness :
  ok (infer0 (Sum [Var "u"; Constant 1%Z]))
  = ok (infer0 (Sum [Constant 1%Z; Var "u"])).
Proof.
  apply (kind_order_independent (λ _ : Z, false) ∅ ∅ ∅
           [Var "u"; Constant 1%Z] [Constant 1%Z; Var "u"]
           (Constant 1%Z) (Constant 1%Z)).
  apply perm_swap.
Defined.

(** *** The table *)

Section Table.

Variable is_state_variable : string → bool.

Abbreviation set_ := (SymbolKindTable_set is_state_variable).
Abbreviation get_ := (SymbolKindTable_get is_state_variable).

Lemma set_get self func_name name k :
  (set_ self func_name name k).2 = Ok () →
  get_ (set_ self func_name name k).1 func_name name = Ok k.
Proof.
  intros Hset. destruct (get_ self func_name name) as [k0|e] eqn:Eg.
  - destruct (decide (k = k0)) as [->|Hne].
    + by rewrite (set_recorded_same _ _ _ _ _ Eg).
    + by rewrite (set_recorded_other _ _ _ _ _ _ Eg Hne) in Hset.
  - by apply (set_records is_state_variable self func_name name k e).
Qed.

Lemma set_frame self func_name name k func_name' name' :
  name' ≠ name ∨ is_state_variable name = false ∧ func_name' ≠ func_name →
  get_ (set_ self func_name name k).1 func_name' name'
  = get_ self func_name' name'.
Proof.
  intros Hslot. unfold SymbolKindTable_get, SymbolKindTable_set.
  destruct (is_state_variable name) eqn:En.
  - destruct Hslot as [Hne|[? _]]; [|done].
    destruct (global_table self !! name) as [recorded|] eqn:El.
    + by case_bool_decide.
    + simpl. destruct (is_state_variable name'); [|done].
      by rewrite lookup_insert_ne.
  - unfold setdefault_empty.
    destruct (per_function_table self !! func_name) as [tbl|] eqn:Ef.
    + destruct (tbl !! name) as [recorded|] eqn:El.
      * by case_bool_decide.
      * simpl. destruct (is_state_variable name') eqn:En'; [done|].
        destruct (decide (func_name' = func_name)) as [->|Hf].
        -- rewrite lookup_insert_eq, Ef. simpl.
           destruct Hslot as [Hne|[_ ?]]; [|done].
           by rewrite lookup_insert_ne.
        -- by rewrite lookup_insert_ne.
    + rewrite lookup_empty. simpl.
      destruct (is_state_variable name') eqn:En'; [done|].
      destruct (decide (func_name' = func_name)) as [->|Hf].
      * rewrite lookup_insert_eq, Ef. simpl.
        destruct Hslot as [Hne|[_ ?]]; [|done].
        by rewrite lookup_insert_ne.
      * rewrite lookup_insert_ne by done. by rewrite lookup_insert_ne.
Qed.

Lemma set_failed self func_name name k e func_name' name' :
  (set_ self func_name name k).2 = Raise e →
  get_ (set_ self func_name name k).1 func_name' name'
  = get_ self func_name' name'.
Proof.
  unfold SymbolKindTable_get, SymbolKindTable_set.
  destruct (is_state_variable name) eqn:En.
  - destruct (global_table self !! name) as [recorded|] eqn:El; [|done].
    by case_bool_decide.
  - unfold setdefault_empty.
    destruct (per_function_table self !! func_name) as [tbl|] eqn:Ef.
    + destruct (tbl !! name) as [recorded|] eqn:El; [|done].
      by case_bool_decide.
    + by rewrite lookup_empty.
Qed.

End Table.

(** X5: A successful [set] is read back by [get]; no [set] changes what [get]
    returns for another name, or for the same local name in another
    function; a [set] that raises changes no lookup at all. *)
Theorem table_set_get (is_state_variable : string → bool)
    (self : SymbolKindTable) (func_name name : string) (k : kind) :
  let after := (SymbolKindTable_set is_state_variable self func_name name k).1 in
  let outcome := (SymbolKindTable_set is_state_variable self func_name name k).2 in
  (outcome = Ok () →
   SymbolKindTable_get is_state_variable after func_name name = Ok k)
  ∧ (∀ func_name' name',
       name' ≠ name ∨ is_state_variable name = false ∧ func_name' ≠ func_name →
       SymbolKindTable_get is_state_variable after func_name' name'
       = SymbolKindTable_get is_state_variable self func_name' name')
  ∧ (∀ e func_name' name',
       outcome = Raise e →
       SymbolKindTable_get is_state_variable after func_name' name'
       = SymbolKindTable_get is_state_variable self func_name' name').
Proof.
  split; [|split].
  - apply set_get.
  - intros func_name' name'. apply set_frame.
  - intros e func_name' name'. apply set_failed.
Qed.

Lemma table_set_get_witness :
  let is_sv := λ name, startswith name "<" in
  SymbolKindTable_get is_sv
    (SymbolKindTable_set is_sv SymbolKindTable_init "f" "x" (Some Boolean)).1
    "f" "x" = Ok (Some Boolean).
Proof.
  apply (proj1 (table_set_get (λ name, startswith name "<")
                  SymbolKindTable_init "f" "x" (Some Boolean))).
  reflexivity.
Defined.

End KindAlgebra.

(** ** [SymbolKindFinder]: what the returned table holds *)

Module FinderInvariants.
Import Data DataFacts.

(** [tbl'] holds every entry of [tbl]. *)
Definition grows (tbl tbl' : SymbolKindTable) : Prop :=
  global_table tbl ⊆ global_table tbl'
  ∧ ∀ func_name locals,
      per_function_table tbl !! func_name = Some locals →
      ∃ locals', per_function_table tbl' !! func_name = Some locals'
                 ∧ locals ⊆ locals'.

Lemma grows_refl (tbl : SymbolKindTable) : grows tbl tbl.
Proof. split; [done|]. intros f locals Hf. by exists locals. Qed.

Lemma grows_trans (tbl1 tbl2 tbl3 : SymbolKindTable) :
  grows tbl1 tbl2 → grows tbl2 tbl3 → grows tbl1 tbl3.
Proof.
  intros [Hg1 Hl1] [Hg2 Hl2]. split; [by etrans|].
  intros f locals Hf. destruct (Hl1 f locals Hf) as (locals' & Hf' & Hsub).
  destruct (Hl2 f locals' Hf') as (locals'' & Hf'' & Hsub').
  exists locals''. split; [done|by etrans].
Qed.

Lemma list_pop_snoc {A} (l l' : list A) (x : A) :
  list_pop l = Some (l', x) → l = l' ++ [x].
Proof.
  unfold list_pop. destruct (reverse l) as [|y r] eqn:E; [done|].
  intros [= <- <-]. rewrite <- (reverse_involutive l), E.
  by rewrite reverse_cons.
Qed.

Lemma elem_of_initial_queue {A B} (names : list A) (functions : list (list B))
    (i : nat) (name : A) (insns : list B) (insn : B) :
  names !! i = Some name → functions !! i = Some insns → insn ∈ insns →
  (name, insn)
  ∈ concat (zip_with (λ name insns, map (λ insn, (name, insn)) insns)
                     names functions).
Proof.
  revert functions i.
  induction names as [|n names IH]; intros [|f functions] [|i]; simpl;
    try done.
  - intros [= ->] [= ->] Hin. apply elem_of_app. left.
    apply list_elem_of_fmap. by exists insn.
  - intros Hn Hf Hin. apply elem_of_app. right. by eapply IH.
Qed.

Section Finder.

Variable is_state_variable : string → bool.
Context {C : Type}.
Variable is_complex : C → bool.
Variable function_registry : gmap string (list kind → result kind).

Abbreviation state := (@finder_state C).
Abbreviation set_ := (SymbolKindTable_set is_state_variable).
Abbreviation get_ := (SymbolKindTable_get is_state_variable).
Abbreviation turn_ := (finder_turn is_state_variable is_complex function_registry).
Abbreviation process_ := (process is_state_variable is_complex function_registry).
Abbreviation loop_ := (finder_loop is_state_variable is_complex function_registry).

(** The mapper [SymbolKindFinder] constructs for an instruction of
    [func_name], line 369-372. *)
Definition kim (tbl : SymbolKindTable) (func_name : string)
  : expr C → result kind :=
  rec is_complex function_registry (global_table tbl)
      (default ∅ (per_function_table tbl !! func_name)).

Lemma set_grows (self : SymbolKindTable) (func_name name : string) (k : kind) :
  grows self (set_ self func_name name k).1.
Proof.
  unfold SymbolKindTable_set. destruct (is_state_variable name).
  - destruct (global_table self !! name) as [recorded|] eqn:El.
    + case_bool_decide; apply grows_refl.
    + split; simpl; [by apply insert_subseteq|].
      intros f locals Hf. by exists locals.
  - unfold setdefault_empty.
    destruct (per_function_table self !! func_name) as [tbl|] eqn:Ef.
    + destruct (tbl !! name) as [recorded|] eqn:El.
      * case_bool_decide; (split; simpl; [done|]);
          intros f locals Hf; by exists locals.
      * split; simpl; [done|]. intros f locals Hf.
        destruct (decide (f = func_name)) as [->|Hne].
        -- rewrite lookup_insert_eq. exists (<[name := k]> tbl).
           split; [done|]. rewrite Ef in Hf. injection Hf as <-.
           by apply insert_subseteq.
        -- rewrite lookup_insert_ne by done. by exists locals.
    + rewrite lookup_empty. split; simpl; [done|]. intros f locals Hf.
      destruct (decide (f = func_name)) as [->|Hne]; [congruence|].
      rewrite lookup_insert_ne by done. rewrite lookup_insert_ne by done.
      by exists locals.
Qed.

Lemma grows_get (tbl tbl' : SymbolKindTable) (func_name name : string)
    (k : kind) :
  grows tbl tbl' → get_ tbl func_name name = Ok k →
  get_ tbl' func_name name = Ok k.
Proof.
  intros [Hg Hl]. unfold SymbolKindTable_get.
  destruct (is_state_variable name).
  - destruct (global_table tbl !! name) as [k0|] eqn:E; [|done].
    intros [= <-]. by rewrite (lookup_weaken _ _ _ _ E Hg).
  - destruct (per_function_table tbl !! func_name) as [locals|] eqn:Ef;
      simpl; [|by rewrite lookup_empty].
    destruct (Hl _ _ Ef) as (locals' & -> & Hsub). simpl.
    destruct (locals !! name) as [k0|] eqn:E; [|done].
    intros [= <-]. by rewrite (lookup_weaken _ _ _ _ E Hsub).
Qed.

(** An instruction is settled in a table when the loop is done with it:
    an assignment when its assignee is recorded with a kind inferred for
    its expression from part of the table, an instruction of another
    class always, [AssignSolved] never. *)
Definition settled (tbl : SymbolKindTable) (item : string * @instruction C)
  : Prop :=
  match item.2 with
  | AssignSolved => False
  | AssignExpression assignee expression =>
      ∃ tbl0 k, grows tbl0 tbl ∧ kim tbl0 item.1 expression = Ok k
                ∧ get_ tbl item.1 assignee = Ok k
  | OtherInstruction => True
  end.

(** An instruction is accounted for when it waits in one of the two
    lists or is settled. *)
Definition accounted (s : state) (item : string * @instruction C) : Prop :=
  item ∈ insn_queue s ++ insn_queue_push_buffer s ∨ settled (table s) item.

Lemma settled_grows (tbl tbl' : SymbolKindTable) (item : string * @instruction C) :
  grows tbl tbl' → settled tbl item → settled tbl' item.
Proof.
  intros Hg. unfold settled. destruct item.2 as [|assignee expression|]; try done.
  intros (tbl0 & k & Hg0 & Hk & Hget). exists tbl0, k.
  split; [by eapply grows_trans|]. split; [done|]. by eapply grows_get.
Qed.

Lemma refill_accounted (s s1 : state) (item : string * @instruction C) :
  refill s = Ok s1 → accounted s item → accounted s1 item.
Proof.
  unfold refill, accounted. destruct (insn_queue s) as [|x q] eqn:Eq.
  - destruct (made_progress s); simpl; [|done]. intros [= <-]. simpl.
    by rewrite app_nil_r.
  - intros [= <-]. by rewrite Eq.
Qed.

Lemma refill_table (s s1 : state) : refill s = Ok s1 → table s1 = table s.
Proof.
  unfold refill. destruct (insn_queue s); [|by intros [= <-]].
  destruct (made_progress s); simpl; [|done]. by intros [= <-].
Qed.

Lemma process_grows (s s' : state) :
  process_ s = Continue s' → grows (table s) (table s').
Proof.
  unfold process. destruct (list_pop (insn_queue s)) as [[q [f insn]]|]; [|done].
  destruct insn as [|assignee expression|]; [done| |].
  - destruct (rec _ _ _ _ expression) as [k|e].
    + pose proof (set_grows (table s) f assignee k) as Hg.
      destruct (SymbolKindTable_set _ _ _ _ _) as [tbl [[]|e]]; [|done].
      by intros [= <-].
    + destruct e; try done. intros [= <-]. apply grows_refl.
  - intros [= <-]. apply grows_refl.
Qed.

Lemma process_accounted (s s' : state) (item : string * @instruction C) :
  process_ s = Continue s' → accounted s item → accounted s' item.
Proof.
  intros Hp Hacc. pose proof (process_grows _ _ Hp) as Hg.
  destruct Hacc as [Hin|Hs]; [|right; by eapply settled_grows].
  revert Hp Hg. unfold process.
  destruct (list_pop (insn_queue s)) as [[q [f insn]]|] eqn:Epop; [|done].
  apply list_pop_snoc in Epop. rewrite Epop in Hin.
  assert (item = (f, insn) ∨ item ∈ q ++ insn_queue_push_buffer s) as Hcase.
  { rewrite !elem_of_app in Hin. rewrite elem_of_app.
    destruct Hin as [[?|?%list_elem_of_singleton]|?]; auto. }
  destruct insn as [|assignee expression|]; [done| |].
  - destruct (rec _ _ _ _ expression) as [k|e] eqn:Ek.
    + pose proof (KindAlgebra.set_get is_state_variable (table s) f assignee k)
        as Hget.
      destruct (SymbolKindTable_set _ _ _ _ _) as [tbl [[]|e]]; [|done].
      intros [= <-] Hg. simpl in *.
      destruct Hcase as [->|Hin']; [|by left].
      right. exists (table s), k. split; [done|]. split; [done|]. by apply Hget.
    + destruct e; try done. intros [= <-] _. left. simpl.
      destruct Hcase as [->|Hin'].
      * rewrite !elem_of_app. right. right. by apply list_elem_of_singleton.
      * rewrite !elem_of_app in *. destruct Hin'; auto.
  - intros [= <-] _. simpl. destruct Hcase as [->|Hin']; [by right|by left].
Qed.

Lemma turn_accounted (s s' : state) (item : string * @instruction C) :
  turn_ s = Continue s' → accounted s item → accounted s' item.
Proof.
  unfold finder_turn. intros Hturn Hacc.
  assert (match refill s with
          | Raise e => Raised e
          | Ok s1 => process_ s1
          end = Continue s') as Hturn'.
  { destruct (insn_queue s), (insn_queue_push_buffer s); done. }
  destruct (refill s) as [s1|] eqn:Er; [|done].
  eapply process_accounted; [done|]. by eapply refill_accounted.
Qed.

Lemma turn_grows (s s' : state) :
  turn_ s = Continue s' → grows (table s) (table s').
Proof.
  unfold finder_turn. intros Hturn.
  assert (match refill s with
          | Raise e => Raised e
          | Ok s1 => process_ s1
          end = Continue s') as Hturn'.
  { destruct (insn_queue s), (insn_queue_push_buffer s); done. }
  destruct (refill s) as [s1|] eqn:Er; [|done].
  rewrite <- (refill_table _ _ Er). by apply process_grows.
Qed.

Lemma loop_settled (fuel : nat) (s : state) (tbl : SymbolKindTable)
    (item : string * @instruction C) :
  loop_ fuel s = Some (Ok tbl) → accounted s item → settled tbl item.
Proof.
  revert s. induction fuel as [|fuel IH]; intros s; [done|]. simpl.
  destruct (turn_ s) as [s'|tbl'|e] eqn:Et; [| |done].
  - intros Hl Hacc. apply (IH s'); [done|]. by eapply turn_accounted.
  - intros [= ->] [Hin|Hs].
    + apply finder_turn_return in Et as (Hq & Hb & _).
      rewrite Hq, Hb in Hin. by apply elem_of_nil in Hin.
    + apply finder_turn_return in Et as (_ & _ & ->). done.
Qed.

Lemma loop_grows (fuel : nat) (s : state) (tbl : SymbolKindTable) :
  loop_ fuel s = Some (Ok tbl) → grows (table s) tbl.
Proof.
  revert s. induction fuel as [|fuel IH]; intros s; [done|]. simpl.
  destruct (turn_ s) as [s'|tbl'|e] eqn:Et; [| |done].
  - intros Hl. eapply grows_trans; [by apply turn_grows|by apply IH].
  - intros [= ->]. apply finder_turn_return in Et as (_ & _ & ->).
    apply grows_refl.
Qed.

End Finder.

(** X6: When [SymbolKindFinder] returns a table, the table records a kind
    (possibly [None]) for the assignee of every [AssignExpression] of
    every function, and that kind is the one the mapper inferred for the
    expression of the assignment from a part of the returned table. *)
Theorem finder_records_assignees (is_state_variable : string → bool)
    {C : Type} (is_complex : C → bool)
    (function_registry : gmap string (list kind → result kind))
    (names : list string) (functions : list (list instruction))
    (tbl : SymbolKindTable) (i : nat) (func_name : string)
    (insns : list instruction) (assignee : string) (expression : expr C) :
  SymbolKindFinder_call is_state_variable is_complex function_registry
    names functions = Some (Ok tbl) →
  names !! i = Some func_name → functions !! i = Some insns →
  AssignExpression assignee expression ∈ insns →
  ∃ tbl0 k,
    grows tbl0 tbl
    ∧ kim is_complex function_registry tbl0 func_name expression = Ok k
    ∧ SymbolKindTable_get is_state_variable tbl func_name assignee = Ok k.
Proof.
  intros Hcall Hn Hf Hin.
  apply (loop_settled _ _ _ _ _ _ (func_name, AssignExpression assignee expression)
           Hcall).
  left. simpl. rewrite app_nil_r. by eapply elem_of_initial_queue.
Qed.

Lemma finder_records_assignees_witness :
  ∃ tbl0 k,
    grows tbl0
      {| global_table := global_table SymbolKindTable_init;
         per_function_table :=
           {[ "f" := <["x" := Some (Scalar true)]>
                       {[ "y" := Some (Scalar true) ]} ]} |}
    ∧ kim (λ _ : Z, false) ∅ tbl0 "f" (Product [Var "y"; Constant 2%Z]) = Ok k
    ∧ SymbolKindTable_get (λ name, startswith name "<")
        {| global_table := global_table SymbolKindTable_init;
           per_function_table :=
             {[ "f" := <["x" := Some (Scalar true)]>
                         {[ "y" := Some (Scalar true) ]} ]} |}
        "f" "x" = Ok k.
Proof.
  apply (finder_records_assignees (λ name, startswith name "<")
           (λ _ : Z, false) ∅ ["f"]
           [[AssignExpression "y" (Constant 1%Z);
             AssignExpression "x" (Product [Var "y"; Constant 2%Z])]]
           _ 0 "f"
           [AssignExpression "y" (Constant 1%Z);
            AssignExpression "x" (Product [Var "y"; Constant 2%Z])]).
  - vm_compute. reflexivity.
  - reflexivity.
  - reflexivity.
  - apply list_elem_of_In. simpl. auto.
Defined.

(** X7: [SymbolKindFinder] never returns a table for a program that contains
    an [AssignSolved] instruction: it raises. *)
Theorem finder_rejects_assign_solved (is_state_variable : string → bool)
    {C : Type} (is_complex : C → bool)
    (function_registry : gmap string (list kind → result kind))
    (names : list string) (functions : list (list (@instruction C)))
    (i : nat) (func_name : string) (insns : list instruction) :
  names !! i = Some func_name → functions !! i = Some insns →
  AssignSolved ∈ insns →
  ∃ e, SymbolKindFinder_call is_state_variable is_complex function_registry
         names functions = Some (Raise e).
Proof.
  intros Hn Hf Hin. unfold SymbolKindFinder_call.
  destruct (finder_loop_total is_state_variable is_complex function_registry
              (S (finder_measure (finder_init names functions)))
              (finder_init names functions)) as [[tbl|e] Hl]; [lia| |by exists e].
  exfalso.
  apply (loop_settled _ _ _ _ _ _ (func_name, AssignSolved) Hl).
  left. simpl. rewrite app_nil_r. by eapply elem_of_initial_queue.
Qed.

Lemma finder_rejects_assign_solved_witness :
  ∃ e, finder0 ["f"] [[AssignExpression "y" (Constant 1%Z); AssignSolved]]
       = Some (Raise e).
Proof.
  apply (finder_rejects_assign_solved (λ name, startswith name "<")
           (λ _ : Z, false) ∅ ["f"]
           [[AssignExpression "y" (Constant 1%Z); AssignSolved]] 0 "f"
           [AssignExpression "y" (Constant 1%Z); AssignSolved]).
  - reflexivity.
  - reflexivity.
  - apply list_elem_of_In. simpl. auto.
Defined.

(** X8: The table only grows while [SymbolKindFinder] runs: the table it
    returns holds every entry of the table of any earlier turn, and so
    the kinds of [<t>] and [<dt>] are real scalars in it. *)
Theorem finder_table_grows (is_state_variable : string → bool)
    {C : Type} (is_complex : C → bool)
    (function_registry : gmap string (list kind → result kind)) :
  (∀ fuel (s : @finder_state C) tbl,
     finder_loop is_state_variable is_complex function_registry fuel s
     = Some (Ok tbl) →
     grows (table s) tbl)
  ∧ (∀ names (functions : list (list (@instruction C))) tbl,
       SymbolKindFinder_call is_state_variable is_complex function_registry
         names functions = Some (Ok tbl) →
       global_table tbl !! "<t>" = Some (Some (Scalar true))
       ∧ global_table tbl !! "<dt>" = Some (Some (Scalar true))).
Proof.
  split.
  - apply loop_grows.
  - intros names functions tbl Hcall.
    apply loop_grows in Hcall as [Hg _]. simpl in Hg.
    split; eapply lookup_weaken; try exact Hg; done.
Qed.

Lemma finder_table_grows_witness :
  let tbl := {| global_table := global_table SymbolKindTable_init;
                per_function_table :=
                  {[ "f" := {[ "y" := Some (Scalar true) ]} ]} |} in
  global_table tbl !! "<t>" = Some (Some (Scalar true))
  ∧ global_table tbl !! "<dt>" = Some (Some (Scalar true)).
Proof.
  apply (proj2 (finder_table_grows (λ name, startswith name "<")
                  (λ _ : Z, false) ∅) ["f"]
           [[AssignExpression "y" (Constant 1%Z)]]).
  vm_compute. reflexivity.
Defined.

End FinderInvariants.

(** ** The interpreter: [set_up], the time step adjustment and the loop
    of [run] *)

Module InterpreterInvariants.
Import ExecNumpy ExecNumpyFacts.

(** *** [set_up] *)

Lemma set_up_loop_effects (items : list (string * value)) (s : state) :
  (∀ name, (∀ key, key ∈ items.*1 → name ≠ "<state>" +:+ key) →
           (set_up_loop items s).1 !! name = s !! name)
  ∧ (∀ name, is_Some (s !! name) → is_Some ((set_up_loop items s).1 !! name)).
Proof.
  revert s. induction items as [|[key val] items IH]; intros s; simpl.
  - done.
  - destruct (startswith key "<"); simpl; [done|].
    destruct (IH (<["<state>" +:+ key := val]> s)) as [IH1 IH2]. split.
    + intros name Hname. rewrite IH1.
      * apply lookup_insert_ne. intros Heq. apply (Hname key); [by left|done].
      * intros key' Hin. apply Hname. by right.
    + intros name Hsome. apply IH2.
      destruct (decide ("<state>" +:+ key = name)) as [<-|Hne].
      * by rewrite lookup_insert_eq.
      * by rewrite lookup_insert_ne.
Qed.

(** X9: Whether it returns or raises, [set_up] has written [<t>] and [<dt>],
    has removed no entry, and has left every entry but [<t>], [<dt>] and
    those named after a component as it was. *)
Theorem set_up_effects (self_state : state) (t_start dt_start : value)
    (components : gmap string value) :
  let after := (set_up self_state t_start dt_start components).1 in
  after !! "<t>" = Some t_start
  ∧ after !! "<dt>" = Some dt_start
  ∧ (∀ name, is_Some (self_state !! name) → is_Some (after !! name))
  ∧ (∀ name, name ≠ "<t>" → name ≠ "<dt>" →
             (∀ key, is_Some (components !! key) → name ≠ "<state>" +:+ key) →
             after !! name = self_state !! name).
Proof.
  unfold set_up.
  destruct (set_up_loop_effects (map_to_list components)
              (<["<dt>" := dt_start]> (<["<t>" := t_start]> self_state)))
    as [Hframe Hkeep].
  split; [|split; [|split]].
  - rewrite Hframe; [|intros key _; apply not_eq_sym, state_name_not_t].
    rewrite lookup_insert_ne by done. by rewrite lookup_insert_eq.
  - rewrite Hframe; [|intros key _; apply not_eq_sym, state_name_not_dt].
    by rewrite lookup_insert_eq.
  - intros name Hsome. apply Hkeep.
    destruct (decide ("<dt>" = name)) as [<-|Hdt]; [by rewrite lookup_insert_eq|].
    rewrite lookup_insert_ne by done.
    destruct (decide ("<t>" = name)) as [<-|Ht]; [by rewrite lookup_insert_eq|].
    by rewrite lookup_insert_ne.
  - intros name Ht Hdt Hname. rewrite Hframe.
    + rewrite lookup_insert_ne by done. by rewrite lookup_insert_ne.
    + intros key [[key' val] [-> Hin%elem_of_map_to_list]]%list_elem_of_fmap.
      apply Hname. by exists val.
Qed.

(** *** The adjustment of the time step *)

Lemma adjust_unfold {ar : arithmetic} (t_end : Q) (s : state) (last : bool)
    (t dt : Q) :
  number_at s "<t>" = Ok t → number_at s "<dt>" = Ok dt →
  adjust t_end s last
  = if Qle_bool t_end (num_add t dt) then
      if Qle_bool t t_end
      then Ok (<["<dt>" := Number (num_sub t_end t)]> s, true)
      else Raise AssertionError
    else Ok (s, last).
Proof. intros Ht Hdt. unfold adjust. by rewrite Ht, Hdt. Qed.

Lemma adjust_numbers {ar : arithmetic} (t_end : Q) (s : state) (last : bool)
    (r : state * bool) :
  adjust t_end s last = Ok r →
  ∃ t dt, number_at s "<t>" = Ok t ∧ number_at s "<dt>" = Ok dt.
Proof.
  unfold adjust. destruct (number_at s "<t>") as [t|]; [|done].
  destruct (number_at s "<dt>") as [dt|]; [|done]. by exists t, dt.
Qed.

(** X10: Whatever the arithmetic of the numbers, exact or rounding: the
    adjustment changes nothing but [<dt>], it changes nothing when
    repeated, it does not clear [last_step], and it raises
    [AssertionError] exactly when the step would reach [t_end] from a
    time that is already behind it.  With exact arithmetic, the step it
    leaves does not pass [t_end], and ends at [t_end] when [last_step]
    is set by it. *)
Theorem adjust_effects {ar : arithmetic} (t_end : Q) (s : state)
    (last : bool) :
  (∀ s1 last1,
     adjust t_end s last = Ok (s1, last1) →
     (∀ name, name ≠ "<dt>" → s1 !! name = s !! name)
     ∧ adjust t_end s1 last1 = Ok (s1, last1)
     ∧ (last = true → last1 = true))
  ∧ (adjust t_end s last = Raise AssertionError
     ↔ ∃ t dt, number_at s "<t>" = Ok t ∧ number_at s "<dt>" = Ok dt
               ∧ (t_end <= num_add t dt)%Q ∧ (t_end < t)%Q)
  ∧ (∀ s1 last1,
       adjust (ar := exact_arithmetic) t_end s last = Ok (s1, last1) →
       ∃ t dt1, number_at s1 "<t>" = Ok t ∧ number_at s1 "<dt>" = Ok dt1
                ∧ (t + dt1 <= t_end)%Q
                ∧ (last1 = true ∧ last = false → (t + dt1 == t_end)%Q)).
Proof.
  split; [|split].
  - intros s1 last1 Hadj.
    destruct (adjust_numbers _ _ _ _ Hadj) as (t & dt & Ht & Hdt).
    rewrite (adjust_unfold _ _ _ _ _ Ht Hdt) in Hadj.
    destruct (Qle_bool t_end (num_add t dt)) eqn:E1.
    + destruct (Qle_bool t t_end) eqn:E2; [|done].
      injection Hadj as <- <-.
      assert (number_at (<["<dt>" := Number (num_sub t_end t)]> s) "<t>"
              = Ok t) as Ht1.
      { unfold number_at in *. by rewrite lookup_insert_ne. }
      assert (number_at (<["<dt>" := Number (num_sub t_end t)]> s) "<dt>"
              = Ok (num_sub t_end t)) as Hdt1.
      { unfold number_at. by rewrite lookup_insert_eq. }
      split; [|split].
      * intros name Hne. by rewrite lookup_insert_ne.
      * rewrite (adjust_unfold _ _ _ _ _ Ht1 Hdt1), E2.
        destruct (Qle_bool t_end (num_add t (num_sub t_end t))); [|done].
        by rewrite insert_insert_eq.
      * done.
    + injection Hadj as <- <-. split; [done|]. split; [|done].
      by rewrite (adjust_unfold _ _ _ _ _ Ht Hdt), E1.
  - split.
    + unfold adjust. destruct (number_at s "<t>") as [t|] eqn:Ht; simpl.
      * destruct (number_at s "<dt>") as [dt|] eqn:Hdt; simpl.
        -- destruct (Qle_bool t_end (num_add t dt)) eqn:E1; [|done].
           destruct (Qle_bool t t_end) eqn:E2; [done|]. intros _.
           exists t, dt. split; [done|]. split; [done|].
           apply Qle_bool_iff in E1. split; [done|].
           apply Qnot_le_lt. intros H%Qle_bool_iff. congruence.
        -- unfold number_at in Hdt.
           destruct (s !! "<dt>") as [[]|]; congruence.
      * unfold number_at in Ht. destruct (s !! "<t>") as [[]|]; congruence.
    + intros (t & dt & Ht & Hdt & H1 & H2).
      rewrite (adjust_unfold _ _ _ _ _ Ht Hdt).
      assert (Qle_bool t_end (num_add t dt) = true) as ->
        by by apply Qle_bool_iff.
      destruct (Qle_bool t t_end) eqn:E2; [|done].
      apply Qle_bool_iff in E2. lra.
  - intros s1 last1 Hadj.
    destruct (adjust_numbers _ _ _ _ Hadj) as (t & dt & Ht & Hdt).
    rewrite (adjust_unfold _ _ _ _ _ Ht Hdt) in Hadj.
    cbn [num_add num_sub exact_arithmetic] in Hadj.
    destruct (Qle_bool t_end (t + dt)) eqn:E1.
    + destruct (Qle_bool t t_end) eqn:E2; [|done].
      injection Hadj as <- <-.
      exists t, (t_end - t)%Q. split.
      { unfold number_at in *. by rewrite lookup_insert_ne. }
      split.
      { unfold number_at. by rewrite lookup_insert_eq. }
      split; [lra|]. intros _. lra.
    + injection Hadj as <- <-.
      exists t, dt. split; [done|]. split; [done|].
      assert (¬ (t_end <= t + dt)%Q) as Hlt.
      { intros H%Qle_bool_iff. congruence. }
      split; [lra|]. intros [-> ?]. done.
Qed.

Lemma adjust_effects_witness :
  adjust 5 (<["<dt>" := Number 1]> (<["<t>" := Number 7]> ∅)) false
  = Raise AssertionError.
Proof.
  apply (proj2 (proj1 (proj2 (adjust_effects 5
                  (<["<dt>" := Number 1]> (<["<t>" := Number 7]> ∅))
                  false)))).
  exists 7%Q, 1%Q. split; [reflexivity|]. split; [reflexivity|].
  split; [vm_compute; discriminate|reflexivity].
Defined.

(** In binary64 the step the adjustment leaves may pass [t_end]: from
    [<t>] = 0.03 with [t_end] = 0.3, the clamped [<dt>] is 0.27 rounded
    up, and 0.03 + 0.27 is rounded up again. *)
Example adjust_float_passes_t_end :
  ∃ s1,
    adjust (ar := float_arithmetic) (binary64 (3 # 10)) state_float false
    = Ok (s1, true)
    ∧ number_at s1 "<dt>" = Ok (607985949695017 # 2251799813685248)
    ∧ (binary64 (3 # 10)
       < @num_add float_arithmetic (binary64 (3 # 100))
           (607985949695017 # 2251799813685248))%Q.
Proof.
  eexists. split; [vm_compute; reflexivity|].
  split; vm_compute; reflexivity.
Qed.

Lemma adjust_last (t_end : Q) (s s1 : state) (last1 : bool) :
  adjust t_end s true = Ok (s1, last1) → last1 = true.
Proof.
  unfold adjust. destruct (number_at s "<t>") as [t|]; [|done].
  destruct (number_at s "<dt>") as [dt|]; [|done]. simpl.
  destruct (Qle_bool t_end (t + dt)); [|by intros [= _ <-]].
  destruct (Qle_bool t t_end); [|done]. by intros [= _ <-].
Qed.

(** *** The loop of [run] *)

Section Loop.

Variable step_plan : state → execution.

Abbreviation body := (run_body step_plan).
Abbreviation loop := (run_loop step_plan).

(** The event that closes a turn, if the turn yields one. *)
Definition closing (it : iteration) : option event :=
  match last (yielded it) with
  | Some (Computed _) | None => None
  | Some e => Some e
  end.

Lemma closing_snoc (s : state) (last : bool) (events : list StateComputed)
    (e : event) :
  closing {| started := s; marked_last := last;
             yielded := map Computed events ++ [e] |}
  = match e with Computed _ => None | _ => Some e end.
Proof. unfold closing. cbn [yielded]. rewrite last_snoc. by destruct e. Qed.

Lemma closing_computed (s : state) (last : bool) (events : list StateComputed) :
  closing {| started := s; marked_last := last;
             yielded := map Computed events |} = None.
Proof.
  unfold closing. cbn [yielded].
  destruct events as [|e events _] using rev_ind; [done|].
  rewrite map_app. cbn [map]. by rewrite last_snoc.
Qed.

(** How a turn ends, read off its events and the flag. *)
Lemma run_body_cases (s : state) (last : bool) :
  let it := {| started := s; marked_last := last;
               yielded := (body s last).1 |} in
  match (body s last).2 with
  | Next s2 last2 =>
      last2 = last
      ∧ ((∃ t, closing it = Some (StepFailed t) ∧ s2 !! "<t>" = Some t)
         ∨ (last = false
            ∧ ∃ t, closing it = Some (StepCompleted t) ∧ s2 !! "<t>" = Some t))
  | Break s2 =>
      last = true
      ∧ ∃ t, closing it = Some (StepCompleted t) ∧ s2 !! "<t>" = Some t
  | Propagate s2 e => closing it = None
  end.
Proof.
  unfold run_body. destruct (step_plan s) as [events after|events after e].
  - destruct (discard after !! "<t>") as [t|] eqn:Et; simpl.
    + destruct last; simpl.
      * split; [done|]. exists t. by rewrite closing_snoc.
      * split; [done|]. right. split; [done|]. exists t.
        by rewrite closing_snoc.
    + apply closing_computed.
  - destruct e; simpl; try apply closing_computed.
    destruct (discard after !! "<t>") as [t|] eqn:Et; simpl.
    + split; [done|]. left. exists t. by rewrite closing_snoc.
    + apply closing_computed.
Qed.

Lemma run_loop_cons (fuel : nat) (t_end : Q) (s : state) (last : bool)
    (it : iteration) (its : list iteration) (e : run_end) :
  loop fuel t_end s last = (it :: its, e) →
  ∃ fuel' s1 last1,
    fuel = S fuel'
    ∧ adjust t_end s last = Ok (s1, last1)
    ∧ it = {| started := s1; marked_last := last1;
              yielded := (body s1 last1).1 |}
    ∧ match (body s1 last1).2 with
      | Next s2 last2 => loop fuel' t_end s2 last2 = (its, e)
      | Break s2 => its = [] ∧ e = Stopped s2
      | Propagate s2 x => its = [] ∧ e = Raising s2 x
      end.
Proof.
  destruct fuel as [|fuel']; simpl; [done|].
  destruct (adjust t_end s last) as [[s1 last1]|x]; [|done].
  destruct (body s1 last1) as [events c] eqn:Eb. simpl.
  destruct c as [s2 last2|s2|s2 x].
  - destruct (loop fuel' t_end s2 last2) as [its' e'] eqn:El.
    intros [= <- <- <-]. exists fuel', s1, last1. by rewrite Eb.
  - intros [= <- <- <-]. exists fuel', s1, last1. by rewrite Eb.
  - intros [= <- <- <-]. exists fuel', s1, last1. by rewrite Eb.
Qed.

Lemma run_loop_nil (fuel : nat) (t_end : Q) (s : state) (last : bool)
    (e : run_end) :
  loop fuel t_end s last = ([], e) →
  e = Running s last ∨ ∃ x, e = Raising s x.
Proof.
  destruct fuel as [|fuel']; simpl; [intros [= <-]; by left|].
  destruct (adjust t_end s last) as [[s1 last1]|x];
    [|intros [= <-]; right; by exists x].
  destruct (body s1 last1) as [events c]. destruct c as [s2 last2|s2|s2 x];
    [|done..].
  by destruct (loop fuel' t_end s2 last2).
Qed.

Lemma run_loop_all_last (fuel : nat) (t_end : Q) (s : state) :
  Forall (λ it, marked_last it = true) (loop fuel t_end s true).1.
Proof.
  revert s. induction fuel as [|fuel IH]; intros s; simpl; [constructor|].
  destruct (adjust t_end s true) as [[s1 last1]|x] eqn:Ea; [|constructor].
  apply adjust_last in Ea as ->.
  pose proof (run_body_cases s1 true) as Hb.
  destruct (body s1 true) as [events c]. simpl in Hb.
  destruct c as [s2 last2|s2|s2 x].
  - destruct Hb as [-> _]. specialize (IH s2).
    destruct (loop fuel t_end s2 true) as [its e]. by constructor.
  - by repeat constructor.
  - by repeat constructor.
Qed.

(** The structure of a run, turn by turn. *)
Lemma run_loop_structure (fuel : nat) (t_end : Q) (s : state) (last : bool) :
  ∀ its e, loop fuel t_end s last = (its, e) →
  (∀ i it, its !! i = Some it →
     (S i < length its →
        (∃ t, closing it = Some (StepFailed t))
        ∨ (marked_last it = false ∧ ∃ t, closing it = Some (StepCompleted t)))
     ∧ (S i < length its → marked_last it = true →
        ∀ it', its !! (S i) = Some it' → marked_last it' = true)
     ∧ (S i = length its →
        match e with
        | Stopped final =>
            marked_last it = true
            ∧ ∃ t, closing it = Some (StepCompleted t) ∧ final !! "<t>" = Some t
        | Raising final x =>
            closing it = None ∨ ∃ last', adjust t_end final last' = Raise x
        | Running _ last' =>
            (marked_last it = true → last' = true)
            ∧ ((∃ t, closing it = Some (StepFailed t))
               ∨ (marked_last it = false
                  ∧ ∃ t, closing it = Some (StepCompleted t)))
        end))
  ∧ (its = [] → ∀ final, e ≠ Stopped final).
Proof.
  revert s last. induction fuel as [|fuel IH]; intros s last its e Hl.
  - simpl in Hl. injection Hl as <- <-. split; [|done]. by intros i it.
  - destruct its as [|it0 its].
    { split; [by intros i it|]. intros _ final ->.
      apply run_loop_nil in Hl as [?|[x ?]]; done. }
    split; [|done].
    apply run_loop_cons in Hl as (fuel' & s1 & last1 & [= <-] & Ha & -> & Hrest).
    pose proof (run_body_cases s1 last1) as Hb.
    destruct (body s1 last1) as [events c]. simpl in Hb, Hrest. simpl.
    destruct c as [s2 last2|s2|s2 x].
    + destruct Hb as [-> Hb].
      destruct (IH _ _ _ _ Hrest) as [IHits IHnil].
      intros [|i] it Hi; simpl in Hi.
      * injection Hi as <-. split; [|split].
        -- intros _. destruct Hb as [(t & Ht & _)|(Hl1 & t & Ht & _)].
           ++ left. by exists t.
           ++ right. split; [done|]. by exists t.
        -- simpl. intros _ -> it' Hit'.
           pose proof (run_loop_all_last fuel t_end s2) as Hall.
           rewrite Hrest in Hall. simpl in Hall.
           by eapply Forall_lookup_1 in Hall.
        -- simpl. intros [= Hlen]. destruct its; [|done].
           pose proof Hrest as Hrest0.
           apply run_loop_nil in Hrest as [->|[x ->]].
           ++ split; [done|].
              destruct Hb as [(t & Ht & _)|(Hl1 & t & Ht & _)].
              ** left. by exists t.
              ** right. split; [done|]. by exists t.
           ++ right. exists last1. clear -Hrest0. revert Hrest0.
              destruct fuel as [|fuel]; simpl; [done|].
              destruct (adjust t_end s2 last1) as [[s3 last3]|y];
                [|by intros [= ->]].
              destruct (body s3 last3) as [events3 c3].
              destruct c3 as [s4 last4|s4|s4 y]; [|done..].
              by destruct (loop fuel t_end s4 last4).
      * destruct (IHits i it Hi) as (H1 & H2 & H3).
        split; [|split].
        -- simpl. intros Hlt. apply H1. lia.
        -- simpl. intros Hlt. apply H2. lia.
        -- simpl. intros Hlen. apply H3. lia.
    + destruct Hrest as [-> ->]. destruct Hb as [-> (t & Ht & Hs2)].
      intros [|i] it Hi; simpl in Hi; [|done]. injection Hi as <-.
      split; [simpl; lia|]. split; [simpl; lia|]. intros _.
      split; [done|]. by exists t.
    + destruct Hrest as [-> ->].
      intros [|i] it Hi; simpl in Hi; [|done]. injection Hi as <-.
      split; [simpl; lia|]. split; [simpl; lia|]. intros _. by left.
Qed.

End Loop.

Lemma closing_last (it : iteration) (e : event) :
  closing it = Some e → last (yielded it) = Some e.
Proof.
  unfold closing. destruct (last (yielded it)) as [[]|]; congruence.
Qed.

(** How a turn that is not the final one ended: its step failed, or it
    completed without being marked as the last one. *)
Definition went_on (it : iteration) : Prop :=
  (∃ t, last (yielded it) = Some (StepFailed t))
  ∨ (marked_last it = false ∧ ∃ t, last (yielded it) = Some (StepCompleted t)).

(** X11: [run] returns only after a step that was marked as the last one has
    completed: the final event is the [StepCompleted] of that step and
    carries the [<t>] of the state [run] leaves, and every earlier step
    failed or completed unmarked. *)
Theorem run_stops_after_last_step (step_plan : state → execution)
    (fuel : nat) (t_end : Q) (s : state) (last_step : bool) (final : state) :
  (run_loop step_plan fuel t_end s last_step).2 = Stopped final →
  ∃ its it t,
    (run_loop step_plan fuel t_end s last_step).1 = its ++ [it]
    ∧ marked_last it = true
    ∧ last (yielded it) = Some (StepCompleted t)
    ∧ final !! "<t>" = Some t
    ∧ Forall went_on its.
Proof.
  destruct (run_loop step_plan fuel t_end s last_step) as [all e] eqn:El.
  simpl. intros ->.
  destruct (run_loop_structure step_plan _ _ _ _ _ _ El) as [Hits Hnil].
  destruct all as [|it its _] using rev_ind; [by destruct (Hnil eq_refl final)|].
  clear Hnil. exists its, it.
  destruct (Hits (length its) it) as (_ & _ & Hlast).
  { by rewrite lookup_app_r, Nat.sub_diag by lia. }
  destruct Hlast as (Hm & t & Hc & Hf).
  { rewrite length_app. simpl. lia. }
  exists t. split; [done|]. split; [done|].
  split; [by apply closing_last|]. split; [done|].
  apply Forall_lookup. intros i it' Hi.
  destruct (Hits i it') as (Hgo & _ & _).
  { rewrite lookup_app_l; [done|]. by eapply lookup_lt_Some. }
  destruct Hgo as [[t' Ht']|[Hm' [t' Ht']]].
  { rewrite length_app. simpl. apply lookup_lt_Some in Hi. lia. }
  - left. exists t'. by apply closing_last.
  - right. split; [done|]. exists t'. by apply closing_last.
Qed.

Lemma run_stops_after_last_step_witness :
  ∃ its it t,
    (run_loop plan_advance 2 (3 # 2) state0 false).1 = its ++ [it]
    ∧ marked_last it = true
    ∧ last (yielded it) = Some (StepCompleted t)
    ∧ Forall went_on its.
Proof.
  destruct (run_loop plan_advance 2 (3 # 2) state0 false).2
    as [final|final e|final last_step] eqn:E;
    [|vm_compute in E; discriminate E..].
  destruct (run_stops_after_last_step plan_advance 2 (3 # 2) state0 false
              final E) as (its & it & t & H1 & H2 & H3 & _ & H5).
  exists its, it, t. split; [exact H1|]. split; [exact H2|].
  split; [exact H3|exact H5].
Defined.

(** X12: Once a turn is marked as the last one, every later turn is: a turn
    follows a marked one only when the step of the marked one failed, and
    the flag is not cleared for the retry. *)
Theorem last_step_sticky (step_plan : state → execution)
    (fuel : nat) (t_end : Q) (s : state) (last_step : bool)
    (i : nat) (it it' : iteration) :
  (run_loop step_plan fuel t_end s last_step).1 !! i = Some it →
  (run_loop step_plan fuel t_end s last_step).1 !! S i = Some it' →
  marked_last it = true →
  marked_last it' = true ∧ ∃ t, last (yielded it) = Some (StepFailed t).
Proof.
  destruct (run_loop step_plan fuel t_end s last_step) as [its e] eqn:El.
  simpl. intros Hi Hi' Hm.
  destruct (run_loop_structure step_plan _ _ _ _ _ _ El) as [Hits _].
  destruct (Hits i it Hi) as (Hgo & Hnext & _).
  apply lookup_lt_Some in Hi' as Hlt.
  split; [by eapply Hnext|].
  destruct (Hgo Hlt) as [[t Ht]|[Hm' _]]; [|congruence].
  exists t. by apply closing_last.
Qed.

Lemma last_step_sticky_witness :
  let its := (run_loop plan_halve 2 1 state0 false).1 in
  ∃ it it',
    its !! 0 = Some it ∧ its !! 1 = Some it'
    ∧ marked_last it' = true
    ∧ ∃ t, last (yielded it) = Some (StepFailed t).
Proof.
  pose proof (last_step_sticky plan_halve 2 1 state0 false 0) as H.
  destruct (run_loop plan_halve 2 1 state0 false).1 as [|it [|it' its]] eqn:E;
    [vm_compute in E; discriminate E..|].
  exists it, it'. split; [reflexivity|]. split; [reflexivity|].
  apply H; [reflexivity|reflexivity|].
  vm_compute in E. injection E as <- _ _. reflexivity.
Defined.

Lemma set_up_effects_witness :
  (set_up ∅ (Number 0) (Number 1) {[ "<x" := Number 2 ]}).2
  = Raise (ValueError "state variables may not start with '<'")
  ∧ (set_up ∅ (Number 0) (Number 1) {[ "<x" := Number 2 ]}).1 !! "<t>"
    = Some (Number 0).
Proof.
  split; [reflexivity|].
  apply (set_up_effects ∅ (Number 0) (Number 1) {[ "<x" := Number 2 ]}).
Defined.

End InterpreterInvariants.

(** ** Collapsing: the classification, and when collapsing succeeds *)

Module CollapsingFacts.
Import Expression ExpressionFacts.

Section Classification.

Context {V : Type} `{EqDecision V}.
Variable free_variables : list string.

(** An expression without free variables; the function of a call counts
    as a variable of it. *)
Fixpoint no_free (e : expr V) : bool :=
  match e with
  | Constant _ => true
  | Var name => negb (bool_decide (name ∈ free_variables))
  | Sum children | Product children | LogicalOr children
  | LogicalAnd children => forallb no_free children
  | Quotient a b | Power a b | Comparison a _ b => no_free a && no_free b
  | Call function parameters =>
      negb (bool_decide (function ∈ free_variables))
      && forallb no_free parameters
  | IfThenElse c t f => no_free c && no_free t && no_free f
  end.

(** The nodes of an expression, the function of a call included. *)
Fixpoint subexpressions (e : expr V) : list (expr V) :=
  e :: match e with
       | Constant _ | Var _ => []
       | Sum children | Product children | LogicalOr children
       | LogicalAnd children => concat (map subexpressions children)
       | Quotient a b | Power a b | Comparison a _ b =>
           subexpressions a ++ subexpressions b
       | Call function parameters =>
           Var function :: concat (map subexpressions parameters)
       | IfThenElse c t f =>
           subexpressions c ++ subexpressions t ++ subexpressions f
       end.

(** No sum, product, disjunction or conjunction of the expression is
    without operands. *)
Fixpoint nonempty (e : expr V) : bool :=
  match e with
  | Constant _ | Var _ => true
  | Sum children | Product children | LogicalOr children
  | LogicalAnd children =>
      match children with
      | [] => false
      | _ => forallb nonempty children
      end
  | Quotient a b | Power a b | Comparison a _ b => nonempty a && nonempty b
  | Call _ parameters => forallb nonempty parameters
  | IfThenElse c t f => nonempty c && nonempty t && nonempty f
  end.

(** No sum or product of the expression has a single operand that is not
    constant. *)
Fixpoint shape_ok (e : expr V) : bool :=
  match e with
  | Constant _ | Var _ => true
  | Sum children | Product children =>
      forallb shape_ok children
      && match children with
         | [c] => no_free c
         | _ => true
         end
  | LogicalOr children | LogicalAnd children | Call _ children =>
      forallb shape_ok children
  | Quotient a b | Power a b | Comparison a _ b => shape_ok a && shape_ok b
  | IfThenElse c t f => shape_ok c && shape_ok t && shape_ok f
  end.

(** No node of the expression is constant: every leaf is a free
    variable. *)
Fixpoint all_varying (e : expr V) : bool :=
  negb (no_free e)
  && match e with
     | Constant _ | Var _ => true
     | Sum children | Product children | LogicalOr children
     | LogicalAnd children | Call _ children => forallb all_varying children
     | Quotient a b | Power a b | Comparison a _ b =>
         all_varying a && all_varying b
     | IfThenElse c t f => all_varying c && all_varying t && all_varying f
     end.

Lemma subexpressions_self (e : expr V) : e ∈ subexpressions e.
Proof. destruct e; by left. Qed.

Lemma fold_left_andb {A} (f : A → bool) (l : list A) (b : bool) :
  fold_left andb (map f l) b = b && forallb f l.
Proof.
  revert b. induction l as [|a l IH]; intros b; simpl.
  - by rewrite andb_true_r.
  - by rewrite IH, andb_assoc.
Qed.

(** The entries of a dictionary agree with the classification. *)
Definition consistent (d : @dict V) : Prop :=
  Forall (λ entry, entry.2 = no_free entry.1) d.

(** The dictionary has an entry for the key. *)
Definition present (d : @dict V) (key : expr V) : Prop :=
  ∃ b, dict_get d key = Ok b.

Lemma dict_get_consistent (d : @dict V) (key : expr V) (b : bool) :
  consistent d → dict_get d key = Ok b → b = no_free key.
Proof.
  induction 1 as [|[k b0] d Hk _ IH]; simpl; [done|].
  destruct (decide (k = key)) as [<-|_]; [|done]. by intros [= <-].
Qed.

Lemma present_cons (d : @dict V) (key : expr V) (b : bool) :
  present ((key, b) :: d) key.
Proof. exists b. simpl. by rewrite decide_True. Qed.

Lemma present_elem (d : @dict V) (key : expr V) (b : bool) :
  (key, b) ∈ d → present d key.
Proof.
  induction d as [|[k b0] d IH]; intros Hin; [by apply elem_of_nil in Hin|].
  unfold present. simpl. destruct (decide (k = key)); [by exists b0|].
  apply IH. apply elem_of_cons in Hin as [Heq|Hin]; [|done].
  injection Heq as Hk Hb. by symmetry in Hk.
Qed.

Lemma present_app_r (l d : @dict V) (key : expr V) :
  present d key → present (l ++ d) key.
Proof.
  intros Hd. induction l as [|[k b] l IH]; simpl; [done|].
  unfold present. simpl. destruct (decide (k = key)); [by exists b|done].
Qed.

Lemma present_app_l (l d : @dict V) (key : expr V) :
  present l key → present (l ++ d) key.
Proof.
  intros [b Hb]. exists b. induction l as [|[k b0] l IH]; simpl in *; [done|].
  destruct (decide (k = key)); [done|by apply IH].
Qed.

(** What [rec] does on a node, given the dictionary so far: it fails on
    a node without operands, and otherwise returns the classification of
    the node and puts consistent entries for all nodes of the expression
    in front of the dictionary. *)
Definition found (e : expr V) (d : @dict V) (r : result (bool * @dict V))
  : Prop :=
  if nonempty e then
    ∃ l, r = Ok (no_free e, l ++ d) ∧ consistent l
         ∧ ∀ e', e' ∈ subexpressions e → present l e'
  else r = Raise TypeError.

Definition found_children (children : list (expr V)) (d : @dict V)
    (r : result (list bool * @dict V)) : Prop :=
  if forallb nonempty children then
    ∃ l, r = Ok (map no_free children, l ++ d) ∧ consistent l
         ∧ ∀ e', e' ∈ concat (map subexpressions children) → present l e'
  else r = Raise TypeError.

Lemma finding_children_found (children : list (expr V)) :
  Forall (λ c, ∀ d, found c d (finding_rec free_variables c d)) children →
  ∀ d, found_children children d
         (finding_children (finding_rec free_variables) children d).
Proof.
  induction 1 as [|c rest Hc _ IH]; intros d; unfold found_children; simpl.
  - exists []. split; [done|]. split; [constructor|].
    intros e' Hin. by apply elem_of_nil in Hin.
  - specialize (Hc d). unfold found in Hc.
    destruct (nonempty c); simpl; [|by rewrite Hc].
    destruct Hc as (l1 & -> & Hl1 & Hp1). simpl.
    specialize (IH (l1 ++ d)). unfold found_children in IH.
    destruct (forallb nonempty rest); [|by rewrite IH].
    destruct IH as (l2 & -> & Hl2 & Hp2). simpl.
    exists (l2 ++ l1). split; [by rewrite app_assoc|].
    split; [by apply Forall_app|].
    intros e' [Hin|Hin]%elem_of_app.
    + by apply present_app_r, Hp1.
    + by apply present_app_l, Hp2.
Qed.

Lemma combine_found (e : expr V) (b : bool) (bs : list bool) (l d : @dict V)
    (nodes : list (expr V)) :
  consistent l → (∀ e', e' ∈ nodes → present l e') →
  fold_left andb bs b = no_free e →
  ∃ l', combine e (b :: bs) (l ++ d) = Ok (no_free e, l' ++ d)
        ∧ consistent l' ∧ ∀ e', e' ∈ e :: nodes → present l' e'.
Proof.
  intros Hl Hp Hb. exists ((e, no_free e) :: l). simpl. rewrite Hb.
  split; [done|]. split; [by constructor|].
  intros e' [->|Hin]%elem_of_cons; [apply present_cons|].
  by apply (present_app_r [_]), Hp.
Qed.

Lemma nary_found (e : expr V) (children : list (expr V)) (d : @dict V) :
  Forall (λ c, ∀ d, found c d (finding_rec free_variables c d)) children →
  nonempty e = match children with
               | [] => false
               | _ => forallb nonempty children
               end →
  no_free e = forallb no_free children →
  subexpressions e = e :: concat (map subexpressions children) →
  found e d (rbind (finding_children (finding_rec free_variables) children d)
                   (λ '(bs, d'), combine e bs d')).
Proof.
  intros IH Hne Hnf Hsub. unfold found. rewrite Hne, Hsub.
  pose proof (finding_children_found children IH d) as Hc.
  unfold found_children in Hc.
  destruct children as [|c0 rest]; [done|].
  destruct (forallb nonempty (c0 :: rest)); [|by rewrite Hc].
  destruct Hc as (l & -> & Hl & Hp). cbn [rbind map].
  destruct (combine_found e (no_free c0) (map no_free rest) l d _ Hl Hp)
    as (l' & Hc' & Hl' & Hp').
  { rewrite fold_left_andb. by rewrite Hnf. }
  exists l'. by rewrite Hc'.
Qed.

Lemma finding_rec_found (e : expr V) :
  ∀ d, found e d (finding_rec free_variables e d).
Proof.
  induction e as [c|name|children IH|children IH|a b IHa IHb|a b IHa IHb
                 |f parameters IH|a operator b IHa IHb|children IH|children IH
                 |c t f IHc IHt IHf] using expr_induction;
    intros d; try unfold found at 1.
  - simpl. exists [(Constant c, true)]. split; [done|].
    split; [by repeat constructor|].
    intros e' ->%list_elem_of_singleton. apply present_cons.
  - simpl. exists [(Var name, negb (bool_decide (name ∈ free_variables)))].
    split; [done|]. split; [by repeat constructor|].
    intros e' ->%list_elem_of_singleton. apply present_cons.
  - by apply (nary_found (Sum children)).
  - by apply (nary_found (Product children)).
  - simpl. specialize (IHa d). unfold found in IHa.
    destruct (nonempty a); simpl; [|by rewrite IHa].
    destruct IHa as (l1 & -> & Hl1 & Hp1). simpl.
    specialize (IHb (l1 ++ d)). unfold found in IHb.
    destruct (nonempty b); simpl; [|by rewrite IHb].
    destruct IHb as (l2 & -> & Hl2 & Hp2). simpl.
    exists ((Quotient a b, no_free a && no_free b) :: l2 ++ l1).
    split; [by rewrite app_assoc|]. split; [constructor; [done|by apply Forall_app]|].
    intros e' [->|[Hin|Hin]%elem_of_app]%elem_of_cons; [apply present_cons|..];
      apply (present_app_r [_]).
    + by apply present_app_r, Hp1.
    + by apply present_app_l, Hp2.
  - simpl. specialize (IHa d). unfold found in IHa.
    destruct (nonempty a); simpl; [|by rewrite IHa].
    destruct IHa as (l1 & -> & Hl1 & Hp1). simpl.
    specialize (IHb (l1 ++ d)). unfold found in IHb.
    destruct (nonempty b); simpl; [|by rewrite IHb].
    destruct IHb as (l2 & -> & Hl2 & Hp2). simpl.
    exists ((Power a b, no_free a && no_free b) :: l2 ++ l1).
    split; [by rewrite app_assoc|]. split; [constructor; [done|by apply Forall_app]|].
    intros e' [->|[Hin|Hin]%elem_of_app]%elem_of_cons; [apply present_cons|..];
      apply (present_app_r [_]).
    + by apply present_app_r, Hp1.
    + by apply present_app_l, Hp2.
  - simpl.
    pose proof (finding_children_found parameters IH
                  ((Var f, negb (bool_decide (f ∈ free_variables))) :: d)) as Hc.
    unfold found_children in Hc.
    destruct (forallb nonempty parameters); simpl; [|by rewrite Hc].
    destruct Hc as (l & -> & Hl & Hp). simpl.
    exists ((Call f parameters,
             negb (bool_decide (f ∈ free_variables))
             && forallb no_free parameters)
            :: l ++ [(Var f, negb (bool_decide (f ∈ free_variables)))]).
    rewrite fold_left_andb. split; [simpl; by rewrite <- app_assoc|].
    split; [constructor; [done|apply Forall_app; split; [done|by repeat constructor]]|].
    intros e' [->|[->|Hin]%elem_of_cons]%elem_of_cons; [apply present_cons|..];
      apply (present_app_r [_]).
    + apply present_app_r, present_cons.
    + by apply present_app_l, Hp.
  - simpl. specialize (IHa d). unfold found in IHa.
    destruct (nonempty a); simpl; [|by rewrite IHa].
    destruct IHa as (l1 & -> & Hl1 & Hp1). simpl.
    specialize (IHb (l1 ++ d)). unfold found in IHb.
    destruct (nonempty b); simpl; [|by rewrite IHb].
    destruct IHb as (l2 & -> & Hl2 & Hp2). simpl.
    exists ((Comparison a operator b, no_free a && no_free b) :: l2 ++ l1).
    split; [by rewrite app_assoc|]. split; [constructor; [done|by apply Forall_app]|].
    intros e' [->|[Hin|Hin]%elem_of_app]%elem_of_cons; [apply present_cons|..];
      apply (present_app_r [_]).
    + by apply present_app_r, Hp1.
    + by apply present_app_l, Hp2.
  - by apply (nary_found (LogicalOr children)).
  - by apply (nary_found (LogicalAnd children)).
  - simpl. specialize (IHc d). unfold found in IHc.
    destruct (nonempty c); simpl; [|by rewrite IHc].
    destruct IHc as (l1 & -> & Hl1 & Hp1). simpl.
    specialize (IHt (l1 ++ d)). unfold found in IHt.
    destruct (nonempty t); simpl; [|by rewrite IHt].
    destruct IHt as (l2 & -> & Hl2 & Hp2). simpl.
    specialize (IHf (l2 ++ l1 ++ d)). unfold found in IHf.
    destruct (nonempty f); simpl; [|by rewrite IHf].
    destruct IHf as (l3 & -> & Hl3 & Hp3). simpl.
    exists ((IfThenElse c t f, no_free c && no_free t && no_free f)
            :: l3 ++ l2 ++ l1).
    split; [simpl; by rewrite <- !app_assoc|].
    split; [constructor; [done|]; apply Forall_app; split; [done|];
            by apply Forall_app|].
    intros e' [->|[Hin|[Hin|Hin]%elem_of_app]%elem_of_app]%elem_of_cons;
      [apply present_cons|..]; apply (present_app_r [_]).
    + by apply present_app_r, present_app_r, Hp1.
    + by apply present_app_r, present_app_l, Hp2.
    + by apply present_app_l, Hp3.
Qed.

Lemma initial_dict (acc : @dict V) (l : list string) :
  fold_left (λ d variable, (Var variable, false) :: d) l acc
  = rev (map (λ variable, (Var variable, false)) l) ++ acc.
Proof.
  revert acc. induction l as [|v l IH]; intros acc; simpl; [done|].
  by rewrite IH, <- app_assoc.
Qed.

(** The dictionary [_ConstantFindingMapper] returns. *)
Lemma constant_finding_found (e : expr V) :
  if nonempty e then
    ∃ d, constant_finding free_variables e = Ok d
         ∧ consistent d
         ∧ (∀ e', e' ∈ subexpressions e → present d e')
         ∧ (∀ v, v ∈ free_variables → present d (Var v))
  else constant_finding free_variables e = Raise TypeError.
Proof.
  unfold constant_finding. rewrite initial_dict, app_nil_r.
  set (d0 := rev (map (λ variable, (Var variable, false)) free_variables)).
  pose proof (finding_rec_found e d0) as Hf. unfold found in Hf.
  destruct (nonempty e); [|by rewrite Hf].
  destruct Hf as (l & -> & Hl & Hp). simpl. exists (l ++ d0).
  split; [done|].
  assert (consistent d0) as Hd0.
  { apply Forall_forall. intros [k b] Hin. unfold d0 in Hin.
    apply list_elem_of_In, in_rev, in_map_iff in Hin as (v & [= <- <-] & Hv).
    simpl. apply list_elem_of_In in Hv. by rewrite bool_decide_eq_true_2. }
  split; [by apply Forall_app|]. split.
  - intros e' Hin. by apply present_app_l, Hp.
  - intros v Hv. apply present_app_r. unfold d0.
    assert ((Var v, false) ∈ d0) as Hin.
    { unfold d0. apply list_elem_of_In. apply (proj1 (in_rev _ _)).
      apply in_map_iff. exists v. by rewrite <- list_elem_of_In. }
    by eapply present_elem.
Qed.

End Classification.

(** *** The collapsing mapper *)

Section Running.

Context {V : Type} `{EqDecision V}.
Variable free_variables : list string.
Variable new_var_func : nat → string.
Variable is_constant : @dict V.

Abbreviation const := (no_free free_variables).
Abbreviation shaped := (shape_ok free_variables).
Abbreviation varying := (all_varying free_variables).
Abbreviation mapper :=
  (expr V → @mapper_state V → result (expr V * @mapper_state V)).

Lemma forallb_impl {A} (f g : A → bool) (l : list A) :
  Forall (λ a, f a = true → g a = true) l →
  forallb f l = true → forallb g l = true.
Proof.
  induction 1 as [|a l Ha _ IH]; simpl; [done|].
  intros [H1 H2]%andb_true_iff. by rewrite Ha, IH.
Qed.

(** A constant expression has no sum or product with a single operand
    that is not constant. *)
Lemma no_free_shape_ok (e : expr V) : const e = true → shaped e = true.
Proof.
  induction e as [c|name|children IH|children IH|a b IHa IHb|a b IHa IHb
                 |f parameters IH|a operator b IHa IHb|children IH|children IH
                 |c t f IHc IHt IHf] using expr_induction; simpl; try done.
  - intros Hc. rewrite (forallb_impl _ _ _ IH Hc). simpl.
    destruct children as [|c [|c' rest]]; try done.
    simpl in Hc. by rewrite andb_true_r in Hc.
  - intros Hc. rewrite (forallb_impl _ _ _ IH Hc). simpl.
    destruct children as [|c [|c' rest]]; try done.
    simpl in Hc. by rewrite andb_true_r in Hc.
  - intros [Ha Hb]%andb_true_iff. by rewrite IHa, IHb.
  - intros [Ha Hb]%andb_true_iff. by rewrite IHa, IHb.
  - intros [_ Hc]%andb_true_iff. by apply (forallb_impl _ _ _ IH).
  - intros [Ha Hb]%andb_true_iff. by rewrite IHa, IHb.
  - by apply forallb_impl.
  - by apply forallb_impl.
  - intros [[Hc Ht]%andb_true_iff Hf]%andb_true_iff. by rewrite IHc, IHt, IHf.
Qed.

Lemma all_varying_not_const (e : expr V) : varying e = true → const e = false.
Proof.
  destruct e; simpl; try done;
    intros [Hn _]%andb_true_iff; by apply negb_true_iff in Hn.
Qed.

(** Every assignment made so far binds a constant expression that is not
    atomic. *)
Definition inv (s : @mapper_state V) : Prop :=
  ∀ x rhs, assignments s !! x = Some rhs →
           const rhs = true ∧ _is_atomic rhs = false.

(** The dictionary classifies every node of the expression. *)
Definition looked (e : expr V) : Prop :=
  ∀ e', e' ∈ subexpressions e → dict_get is_constant e' = Ok (const e').

(** What a mapper does on an expression. *)
Definition runs (f : mapper) (e : expr V) : Prop :=
  ∀ s, if shaped e then
         ∃ e' s', f e s = Ok (e', s')
                  ∧ (inv s → inv s')
                  ∧ (varying e = true → e' = e ∧ s' = s)
       else f e s = Raise (AttributeError "non_constants").

Lemma hoist_inv (e : expr V) (s : @mapper_state V) :
  const e = true → _is_atomic e = false → inv s →
  inv (hoist new_var_func e s).2.
Proof.
  intros He Ha Hs x rhs. unfold hoist. simpl.
  destruct (decide (x = new_var_func (calls s))) as [->|Hne].
  - rewrite lookup_insert_eq. by intros [= <-].
  - rewrite lookup_insert_ne by done. apply Hs.
Qed.

Lemma rec_with_runs (f : mapper) (e : expr V) :
  looked e → runs f e → runs (rec_with new_var_func is_constant f) e.
Proof.
  intros Hl Hf s. unfold rec_with.
  destruct (_is_atomic e) eqn:Ea; [apply Hf|].
  rewrite (Hl e (subexpressions_self e)). simpl.
  destruct (const e) eqn:Ec; simpl; [|apply Hf].
  rewrite (no_free_shape_ok e Ec).
  exists (hoist new_var_func e s).1, (hoist new_var_func e s).2.
  split; [by destruct (hoist new_var_func e s)|].
  split; [by apply hoist_inv|].
  intros Hv%all_varying_not_const. congruence.
Qed.

Lemma rec_children_runs (g : mapper) (children : list (expr V)) :
  Forall (runs g) children →
  ∀ s, if forallb shaped children then
         ∃ children' s', rec_children g children s = Ok (children', s')
                         ∧ (inv s → inv s')
                         ∧ (forallb varying children = true →
                            children' = children ∧ s' = s)
       else rec_children g children s = Raise (AttributeError "non_constants").
Proof.
  induction 1 as [|c rest Hc _ IH]; intros s; simpl.
  - by exists [], s.
  - specialize (Hc s). destruct (shaped c); simpl; [|by rewrite Hc].
    destruct Hc as (c' & s1 & -> & Hinv1 & Hv1). simpl.
    specialize (IH s1). destruct (forallb shaped rest); [|by rewrite IH].
    destruct IH as (rest' & s2 & -> & Hinv2 & Hv2). simpl.
    exists (c' :: rest'), s2. split; [done|]. split; [auto|].
    intros [H1 H2]%andb_true_iff. destruct (Hv1 H1) as [-> ->].
    by destruct (Hv2 H2) as [-> ->].
Qed.

Lemma classify_runs (g : mapper) (children : list (expr V)) :
  Forall (runs g) children →
  (∀ c, c ∈ children → dict_get is_constant c = Ok (const c)) →
  ∀ s, if forallb shaped children then
         ∃ non_constants s',
           classify is_constant g children s
           = Ok (List.filter const children, non_constants, s')
           ∧ (inv s → inv s')
           ∧ length (List.filter const children) + length non_constants
             = length children
           ∧ (forallb varying children = true →
              non_constants = children ∧ s' = s)
       else classify is_constant g children s
            = Raise (AttributeError "non_constants").
Proof.
  induction 1 as [|c rest Hc _ IH]; intros Hd s; simpl.
  - by exists [], s.
  - rewrite (Hd c) by by left. simpl.
    assert (∀ c', c' ∈ rest → dict_get is_constant c' = Ok (const c')) as Hd'.
    { intros c' Hin. apply Hd. by right. }
    destruct (const c) eqn:Ec.
    + rewrite (no_free_shape_ok c Ec). simpl.
      specialize (IH Hd' s). destruct (forallb shaped rest); [|by rewrite IH].
      destruct IH as (ns & s1 & -> & Hinv & Hlen & Hv). simpl.
      exists ns, s1. split; [done|]. split; [done|]. split; [simpl; lia|].
      intros [H1%all_varying_not_const _]%andb_true_iff. congruence.
    + specialize (Hc s). destruct (shaped c); simpl; [|by rewrite Hc].
      destruct Hc as (c' & s1 & -> & Hinv1 & Hv1). simpl.
      specialize (IH Hd' s1). destruct (forallb shaped rest); [|by rewrite IH].
      destruct IH as (ns & s2 & -> & Hinv2 & Hlen & Hv2). simpl.
      exists (c' :: ns), s2. split; [done|]. split; [auto|].
      split; [simpl; lia|].
      intros [H1 H2]%andb_true_iff. destruct (Hv1 H1) as [-> ->].
      by destruct (Hv2 H2) as [-> ->].
Qed.

Lemma filter_const_all (l : list (expr V)) :
  forallb const (List.filter const l) = true.
Proof.
  apply forallb_forall. intros c [_ Hc]%filter_In. done.
Qed.

Lemma filter_varying (l : list (expr V)) :
  forallb varying l = true → List.filter const l = [].
Proof.
  induction l as [|c l IH]; simpl; [done|].
  intros [H1%all_varying_not_const H2]%andb_true_iff. rewrite H1. by apply IH.
Qed.

(** [map_commut_assoc] after its loop, on what the loop returns. *)
Lemma finish_runs (combine_func : list (expr V) → expr V)
    (children non_constants : list (expr V)) (s : @mapper_state V) :
  (∀ l, const (combine_func l) = forallb const l) →
  (∀ l, _is_atomic (combine_func l) = false) →
  children ≠ [] →
  length (List.filter const children) + length non_constants
  = length children →
  if match children with
     | [c] => const c
     | _ => true
     end
  then ∃ e' s',
         commut_assoc_finish new_var_func combine_func
           (List.filter const children) non_constants s = Ok (e', s')
         ∧ (inv s → inv s')
         ∧ (List.filter const children = [] →
            e' = combine_func non_constants ∧ s' = s)
  else commut_assoc_finish new_var_func combine_func
         (List.filter const children) non_constants s
       = Raise (AttributeError "non_constants").
Proof.
  intros Hconst Hatomic Hne Hlen.
  pose proof (filter_const_all children) as Hall.
  destruct (List.filter const children) as [|k ks] eqn:Ef.
  - destruct children as [|c [|c' rest]]; [done| |].
    + simpl in Ef. destruct (const c); [done|].
      destruct non_constants as [|n [|n' ns]]; simpl in *; try lia. done.
    + destruct non_constants as [|n [|n' ns]]; simpl in *; try lia.
      eexists _, s. split; [done|]. by split.
  - assert (match children with
            | [c] => const c
            | _ => true
            end = true) as ->.
    { destruct children as [|c [|c' rest]]; try done.
      simpl in Ef. by destruct (const c). }
    unfold commut_assoc_finish.
    destruct ks as [|k' ks].
    + simpl in Hall. rewrite andb_true_r in Hall.
      destruct (_is_atomic k) eqn:Ea.
      * destruct non_constants; eexists _, s; (split; [done|]); by split.
      * pose proof (hoist_inv k s Hall Ea) as Hinv.
        destruct (hoist new_var_func k s) as [folded s1].
        destruct non_constants; eexists _, s1; (split; [done|]);
          by split.
    + pose proof (hoist_inv (combine_func (k :: k' :: ks)) s) as Hinv.
      rewrite Hconst, Hatomic in Hinv. specialize (Hinv Hall eq_refl).
      destruct (hoist new_var_func (combine_func (k :: k' :: ks)) s)
        as [folded s1].
      destruct non_constants; eexists _, s1; (split; [done|]); by split.
Qed.

Lemma commut_assoc_runs (combine_func : list (expr V) → expr V)
    (g : mapper) (children : list (expr V)) :
  (∀ l, const (combine_func l) = forallb const l) →
  (∀ l, _is_atomic (combine_func l) = false) →
  Forall (runs g) children →
  (∀ c, c ∈ children → dict_get is_constant c = Ok (const c)) →
  children ≠ [] →
  ∀ s, if forallb shaped children
          && match children with
             | [c] => const c
             | _ => true
             end
       then ∃ e' s',
              rbind (classify is_constant g children s)
                (λ '(constants, non_constants, s1),
                   commut_assoc_finish new_var_func combine_func constants
                     non_constants s1) = Ok (e', s')
              ∧ (inv s → inv s')
              ∧ (forallb varying children = true →
                 e' = combine_func children ∧ s' = s)
       else rbind (classify is_constant g children s)
              (λ '(constants, non_constants, s1),
                 commut_assoc_finish new_var_func combine_func constants
                   non_constants s1)
            = Raise (AttributeError "non_constants").
Proof.
  intros Hconst Hatomic Hg Hd Hne s.
  pose proof (classify_runs g children Hg Hd s) as Hc.
  destruct (forallb shaped children); simpl; [|by rewrite Hc].
  destruct Hc as (ns & s1 & -> & Hinv1 & Hlen & Hv1). simpl.
  pose proof (finish_runs combine_func children ns s1 Hconst Hatomic Hne Hlen)
    as Hf.
  destruct (match children with
            | [c] => const c
            | _ => true
            end); [|done].
  destruct Hf as (e' & s2 & -> & Hinv2 & Hv2).
  exists e', s2. split; [done|]. split; [auto|].
  intros Hv. destruct (Hv1 Hv) as [-> ->].
  by apply Hv2, filter_varying.
Qed.

Lemma looked_children (e : expr V) (children : list (expr V)) :
  (∀ e', e' ∈ concat (map subexpressions children) → e' ∈ subexpressions e) →
  looked e →
  Forall looked children
  ∧ ∀ c, c ∈ children → dict_get is_constant c = Ok (const c).
Proof.
  intros Hsub Hl.
  assert (∀ c e', c ∈ children → e' ∈ subexpressions c →
                  e' ∈ subexpressions e) as Hin.
  { intros c e' Hc He'. apply Hsub. apply list_elem_of_In, in_concat.
    exists (subexpressions c). split; [|by apply list_elem_of_In].
    apply in_map. by apply list_elem_of_In. }
  split.
  - apply Forall_forall. intros c Hc e' He'. apply Hl. by eapply Hin.
  - intros c Hc. apply Hl. eapply Hin; [done|]. apply subexpressions_self.
Qed.

Lemma children_run (f : mapper) (children : list (expr V)) :
  Forall (λ c, looked c → nonempty c = true → runs f c) children →
  Forall looked children → forallb nonempty children = true →
  Forall (runs (rec_with new_var_func is_constant f)) children.
Proof.
  induction 1 as [|c rest Hc _ IH]; intros Hl Hn; [constructor|].
  apply Forall_cons in Hl as [Hl1 Hl2]. simpl in Hn.
  apply andb_true_iff in Hn as [Hn1 Hn2].
  constructor; [|by apply IH]. apply rec_with_runs; [done|by apply Hc].
Qed.

Abbreviation dispatch_ := (dispatch new_var_func is_constant).
Abbreviation rec_ := (rec_with new_var_func is_constant dispatch_).

(** A node with two children, which are mapped in order. *)
Lemma binary_runs (node : expr V → expr V → expr V) (a b : expr V) :
  runs rec_ a → runs rec_ b →
  ∀ s, if shaped a && shaped b then
         ∃ e' s',
           rbind (rec_ a s) (λ '(a', s1),
           rbind (rec_ b s1) (λ '(b', s2), Ok (node a' b', s2))) = Ok (e', s')
           ∧ (inv s → inv s')
           ∧ (varying a && varying b = true → e' = node a b ∧ s' = s)
       else rbind (rec_ a s) (λ '(a', s1),
            rbind (rec_ b s1) (λ '(b', s2), Ok (node a' b', s2)))
            = Raise (AttributeError "non_constants").
Proof.
  intros Ha Hb s. specialize (Ha s).
  destruct (shaped a); simpl; [|by rewrite Ha].
  destruct Ha as (a' & s1 & -> & Hinv1 & Hv1). simpl.
  specialize (Hb s1). destruct (shaped b); [|by rewrite Hb].
  destruct Hb as (b' & s2 & -> & Hinv2 & Hv2). simpl.
  exists (node a' b'), s2. split; [done|]. split; [auto|].
  intros [H1 H2]%andb_true_iff. destruct (Hv1 H1) as [-> ->].
  by destruct (Hv2 H2) as [-> ->].
Qed.

(** A node whose children are mapped in order. *)
Lemma nary_runs (node : list (expr V) → expr V) (children : list (expr V)) :
  Forall (runs rec_) children →
  ∀ s, if forallb shaped children then
         ∃ e' s',
           rbind (rec_children rec_ children s)
                 (λ '(children', s1), Ok (node children', s1)) = Ok (e', s')
           ∧ (inv s → inv s')
           ∧ (forallb varying children = true → e' = node children ∧ s' = s)
       else rbind (rec_children rec_ children s)
                  (λ '(children', s1), Ok (node children', s1))
            = Raise (AttributeError "non_constants").
Proof.
  intros Hch s. pose proof (rec_children_runs rec_ children Hch s) as Hc.
  destruct (forallb shaped children); [|by rewrite Hc].
  destruct Hc as (children' & s1 & -> & Hinv & Hv). simpl.
  exists (node children'), s1. split; [done|]. split; [done|].
  intros Hvar. by destruct (Hv Hvar) as [-> ->].
Qed.

Lemma nonempty_children (children : list (expr V)) :
  match children with
  | [] => false
  | _ => forallb nonempty children
  end = true →
  children ≠ [] ∧ forallb nonempty children = true.
Proof. by destruct children. Qed.

(** The collapsing mapper, given a dictionary that classifies every node
    of the expression: it raises when a sum or product has a single
    operand that is not constant, and otherwise returns, having assigned
    constant expressions only, and nothing when no node is constant. *)
Lemma dispatch_runs (e : expr V) :
  looked e → nonempty e = true → runs dispatch_ e.
Proof.
  induction e as [c|name|children IH|children IH|a b IHa IHb|a b IHa IHb
                 |f parameters IH|a operator b IHa IHb|children IH|children IH
                 |c t f IHc IHt IHf] using expr_induction;
    intros Hl Hn s.
  - simpl. by exists (Constant c), s.
  - simpl. by exists (Var name), s.
  - apply nonempty_children in Hn as [Hne Hn].
    destruct (looked_children (Sum children) children) as [Hlc Hd];
      [intros e' He'; by right|done|].
    pose proof (commut_assoc_runs Sum rec_ children (λ l, eq_refl)
                  (λ l, eq_refl) (children_run _ _ IH Hlc Hn) Hd Hne s) as H.
    simpl.
    destruct (forallb shaped children
              && match children with
                 | [c] => const c
                 | _ => true
                 end); [|done].
    destruct H as (e' & s' & He & Hinv & Hv). exists e', s'.
    split; [done|]. split; [done|].
    intros [_ Hv']%andb_true_iff. by apply Hv.
  - apply nonempty_children in Hn as [Hne Hn].
    destruct (looked_children (Product children) children) as [Hlc Hd];
      [intros e' He'; by right|done|].
    pose proof (commut_assoc_runs Product rec_ children (λ l, eq_refl)
                  (λ l, eq_refl) (children_run _ _ IH Hlc Hn) Hd Hne s) as H.
    simpl.
    destruct (forallb shaped children
              && match children with
                 | [c] => const c
                 | _ => true
                 end); [|done].
    destruct H as (e' & s' & He & Hinv & Hv). exists e', s'.
    split; [done|]. split; [done|].
    intros [_ Hv']%andb_true_iff. by apply Hv.
  - simpl in Hn. apply andb_true_iff in Hn as [Hna Hnb].
    destruct (looked_children (Quotient a b) [a; b]) as [Hlc _];
      [intros e' He'; simpl in He'; rewrite app_nil_r in He'; by right|done|].
    apply Forall_cons in Hlc as [Hla [Hlb _]%Forall_cons].
    pose proof (binary_runs Quotient a b
                  (rec_with_runs _ _ Hla (IHa Hla Hna))
                  (rec_with_runs _ _ Hlb (IHb Hlb Hnb)) s) as H.
    simpl. destruct (shaped a && shaped b); [|done].
    destruct H as (e' & s' & He & Hinv & Hv). exists e', s'.
    split; [done|]. split; [done|].
    intros [_ Hv']%andb_true_iff. by apply Hv.
  - simpl in Hn. apply andb_true_iff in Hn as [Hna Hnb].
    destruct (looked_children (Power a b) [a; b]) as [Hlc _];
      [intros e' He'; simpl in He'; rewrite app_nil_r in He'; by right|done|].
    apply Forall_cons in Hlc as [Hla [Hlb _]%Forall_cons].
    pose proof (binary_runs Power a b
                  (rec_with_runs _ _ Hla (IHa Hla Hna))
                  (rec_with_runs _ _ Hlb (IHb Hlb Hnb)) s) as H.
    simpl. destruct (shaped a && shaped b); [|done].
    destruct H as (e' & s' & He & Hinv & Hv). exists e', s'.
    split; [done|]. split; [done|].
    intros [_ Hv']%andb_true_iff. by apply Hv.
  - simpl in Hn.
    destruct (looked_children (Call f parameters) parameters) as [Hlc _];
      [intros e' He'; right; by right|done|].
    pose proof (nary_runs (Call f) parameters (children_run _ _ IH Hlc Hn) s)
      as H.
    simpl. destruct (forallb shaped parameters); [|done].
    destruct H as (e' & s' & He & Hinv & Hv). exists e', s'.
    split; [done|]. split; [done|].
    intros [_ Hv']%andb_true_iff. by apply Hv.
  - simpl in Hn. apply andb_true_iff in Hn as [Hna Hnb].
    destruct (looked_children (Comparison a operator b) [a; b]) as [Hlc _];
      [intros e' He'; simpl in He'; rewrite app_nil_r in He'; by right|done|].
    apply Forall_cons in Hlc as [Hla [Hlb _]%Forall_cons].
    pose proof (binary_runs (λ a b, Comparison a operator b) a b
                  (rec_with_runs _ _ Hla (IHa Hla Hna))
                  (rec_with_runs _ _ Hlb (IHb Hlb Hnb)) s) as H.
    simpl. destruct (shaped a && shaped b); [|done].
    destruct H as (e' & s' & He & Hinv & Hv). exists e', s'.
    split; [done|]. split; [done|].
    intros [_ Hv']%andb_true_iff. by apply Hv.
  - apply nonempty_children in Hn as [Hne Hn].
    destruct (looked_children (LogicalOr children) children) as [Hlc _];
      [intros e' He'; by right|done|].
    pose proof (nary_runs LogicalOr children (children_run _ _ IH Hlc Hn) s)
      as H.
    simpl. destruct (forallb shaped children); [|done].
    destruct H as (e' & s' & He & Hinv & Hv). exists e', s'.
    split; [done|]. split; [done|].
    intros [_ Hv']%andb_true_iff. by apply Hv.
  - apply nonempty_children in Hn as [Hne Hn].
    destruct (looked_children (LogicalAnd children) children) as [Hlc _];
      [intros e' He'; by right|done|].
    pose proof (nary_runs LogicalAnd children (children_run _ _ IH Hlc Hn) s)
      as H.
    simpl. destruct (forallb shaped children); [|done].
    destruct H as (e' & s' & He & Hinv & Hv). exists e', s'.
    split; [done|]. split; [done|].
    intros [_ Hv']%andb_true_iff. by apply Hv.
  - simpl in Hn. apply andb_true_iff in Hn as [[Hnc Hnt]%andb_true_iff Hnf].
    destruct (looked_children (IfThenElse c t f) [c; t; f]) as [Hlc _];
      [intros e' He'; simpl in He'; rewrite app_nil_r in He'; by right|done|].
    apply Forall_cons in Hlc as [Hlc [Hlt [Hlf _]%Forall_cons]%Forall_cons].
    pose proof (rec_with_runs _ _ Hlc (IHc Hlc Hnc) s) as H1. simpl.
    destruct (shaped c); simpl; [|by rewrite H1].
    destruct H1 as (c' & s1 & -> & Hinv1 & Hv1). simpl.
    pose proof (rec_with_runs _ _ Hlt (IHt Hlt Hnt) s1) as H2.
    destruct (shaped t); simpl; [|by rewrite H2].
    destruct H2 as (t' & s2 & -> & Hinv2 & Hv2). simpl.
    pose proof (rec_with_runs _ _ Hlf (IHf Hlf Hnf) s2) as H3.
    destruct (shaped f); simpl; [|by rewrite H3].
    destruct H3 as (f' & s3 & -> & Hinv3 & Hv3). simpl.
    exists (IfThenElse c' t' f'), s3. split; [done|]. split; [auto|].
    intros [_ [[Hc Ht]%andb_true_iff Hf]%andb_true_iff]%andb_true_iff.
    destruct (Hv1 Hc) as [-> ->]. destruct (Hv2 Ht) as [-> ->].
    by destruct (Hv3 Hf) as [-> ->].
Qed.

End Running.

Section Outcome.

Context {V : Type} `{EqDecision V}.
Variable free_variables : list string.
Variable new_var_func : nat → string.

Lemma constant_finding_looked (e : expr V) (d : @dict V) :
  constant_finding free_variables e = Ok d →
  nonempty e = true
  ∧ consistent free_variables d
  ∧ looked free_variables d e
  ∧ ∀ v, v ∈ free_variables → dict_get d (Var v) = Ok false.
Proof.
  intros Hd. pose proof (constant_finding_found free_variables e) as Hf.
  destruct (nonempty e); [|congruence].
  destruct Hf as (d' & Hd' & Hcons & Hpres & Hfree).
  assert (d' = d) as -> by congruence.
  split; [done|]. split; [done|]. split.
  - intros e' He'. destruct (Hpres e' He') as [b Hb]. rewrite Hb. f_equal.
    by eapply dict_get_consistent.
  - intros v Hv. destruct (Hfree v Hv) as [b Hb]. rewrite Hb. f_equal.
    rewrite (dict_get_consistent _ _ _ _ Hcons Hb). simpl.
    by rewrite bool_decide_eq_true_2.
Qed.

Lemma collapsing_outcome (e : expr V) :
  if nonempty e then
    if shape_ok free_variables e then
      ∃ e' hoisted,
        collapsing free_variables new_var_func e = Ok (e', hoisted)
        ∧ (∀ x rhs, hoisted !! x = Some rhs →
                    no_free free_variables rhs = true
                    ∧ _is_atomic rhs = false)
        ∧ (all_varying free_variables e = true → e' = e ∧ hoisted = ∅)
    else collapsing free_variables new_var_func e
         = Raise (AttributeError "non_constants")
  else collapsing free_variables new_var_func e = Raise TypeError.
Proof.
  unfold collapsing.
  pose proof (constant_finding_found free_variables e) as Hf.
  pose proof (constant_finding_looked e) as Hl.
  destruct (nonempty e) eqn:En; [|by rewrite Hf].
  destruct Hf as (d & Hd & _). rewrite Hd. simpl.
  destruct (Hl d Hd) as (_ & _ & Hlooked & _).
  pose proof (dispatch_runs free_variables new_var_func d e Hlooked En
                {| calls := 0; assignments := ∅ |}) as Hrun.
  destruct (shape_ok free_variables e); [|by rewrite Hrun].
  destruct Hrun as (e' & s' & -> & Hinv & Hv). simpl.
  exists e', (assignments s'). split; [done|]. split.
  - apply Hinv. intros x rhs Hx. simpl in Hx. by rewrite lookup_empty in Hx.
  - intros Hvar. by destruct (Hv Hvar) as [-> ->].
Qed.

End Outcome.

(** X13: On the expressions of the modelled node types, which are
    constants, variables, sums, products, quotients, powers, calls without
    keyword arguments, comparisons, disjunctions, conjunctions and
    conditionals (logical negation, subscripts and calls with keyword
    arguments are not among them): [_ConstantFindingMapper] raises
    [TypeError] exactly on an expression that has a sum, product,
    disjunction or conjunction without operands.  Otherwise the
    dictionary it returns has an entry for every node of the expression
    and for every free variable, and each entry tells whether its key is
    free of the free variables. *)
Theorem constant_finding_classifies {V : Type} `{EqDecision V}
    (free_variables : list string) (e : expr V) :
  match constant_finding free_variables e with
  | Ok d =>
      nonempty e = true
      ∧ (∀ e', e' ∈ subexpressions e →
               dict_get d e' = Ok (no_free free_variables e'))
      ∧ (∀ v, v ∈ free_variables → dict_get d (Var v) = Ok false)
      ∧ (∀ key b, dict_get d key = Ok b → b = no_free free_variables key)
  | Raise x => x = TypeError ∧ nonempty e = false
  end.
Proof.
  destruct (constant_finding free_variables e) as [d|x] eqn:Ed.
  - destruct (constant_finding_looked free_variables e d Ed)
      as (Hn & Hcons & Hl & Hfree).
    split; [done|]. split; [done|]. split; [done|].
    intros key b. by apply dict_get_consistent.
  - pose proof (constant_finding_found free_variables e) as Hf.
    destruct (nonempty e).
    + destruct Hf as (d & Hd & _). congruence.
    + split; [congruence|done].
Qed.

Lemma constant_finding_classifies_witness :
  match constant_finding ["x"] (Sum [Var "x"; int 1]) with
  | Ok d => dict_get d (Var "x") = Ok false
            ∧ dict_get d (Sum [Var "x"; int 1]) = Ok false
            ∧ dict_get d (int 1) = Ok true
  | Raise _ => False
  end.
Proof.
  pose proof (constant_finding_classifies ["x"] (Sum [Var "x"; int 1])) as H.
  destruct (constant_finding ["x"] (Sum [Var "x"; int 1])) as [d|x].
  - destruct H as (_ & Hsub & Hfree & _). split; [|split].
    + apply Hfree. by left.
    + apply (Hsub (Sum [Var "x"; int 1])). by left.
    + apply (Hsub (int 1)). right. right. by left.
  - destruct H as [_ H]. vm_compute in H. discriminate H.
Defined.

(** X14: On the expressions of the modelled node types (constants,
    variables, sums, products, quotients, powers, calls without keyword
    arguments, comparisons, disjunctions, conjunctions and conditionals):
    [collapse_constants] raises [TypeError] when some sum, product,
    disjunction or conjunction has no operands; otherwise it raises
    [AttributeError] when some sum or product has a single operand that is
    not constant; otherwise it returns. *)
Theorem collapse_constants_outcome {V : Type} `{EqDecision V}
    (free_variables : list string) (new_var_func : nat → string)
    (expression : expr V) :
  match collapse_constants free_variables new_var_func expression with
  | Ok _ => nonempty expression = true
            ∧ shape_ok free_variables expression = true
  | Raise x =>
      x = TypeError ∧ nonempty expression = false
      ∨ x = AttributeError "non_constants"
        ∧ nonempty expression = true
        ∧ shape_ok free_variables expression = false
  end.
Proof.
  unfold collapse_constants.
  pose proof (collapsing_outcome free_variables new_var_func expression) as H0.
  destruct (nonempty expression).
  - destruct (shape_ok free_variables expression).
    + destruct H0 as (e' & hoisted & -> & _). done.
    + rewrite H0. simpl. right. done.
  - rewrite H0. simpl. by left.
Qed.

(** X15: Every assignment [collapse_constants] emits binds an expression that
    is constant and not atomic. *)
Theorem collapse_constants_emits {V : Type} `{EqDecision V}
    (free_variables : list string) (new_var_func : nat → string)
    (expression new_expression : expr V) (emitted : list (string * expr V))
    (variable : string) (rhs : expr V) :
  collapse_constants free_variables new_var_func expression
  = Ok (new_expression, emitted) →
  (variable, rhs) ∈ emitted →
  no_free free_variables rhs = true ∧ _is_atomic rhs = false.
Proof.
  unfold collapse_constants.
  pose proof (collapsing_outcome free_variables new_var_func expression) as H0.
  destruct (nonempty expression); [|by rewrite H0].
  destruct (shape_ok free_variables expression); [|by rewrite H0].
  destruct H0 as (e' & hoisted & -> & Hconst & _). simpl.
  intros [= <- <-] Hin%elem_of_map_to_list. by eapply Hconst.
Qed.

Lemma collapse_constants_emits_witness :
  no_free ["x"] (Sum [int 1; int 2]) = true
  ∧ _is_atomic (Sum [int 1; int 2]) = false.
Proof.
  apply (collapse_constants_emits ["x"] fresh (Sum [int 1; Var "x"; int 2])
           (Sum [Var "_c0"; Var "x"]) [("_c0", Sum [int 1; int 2])] "_c0").
  - vm_compute. reflexivity.
  - by left.
Defined.

(** X16: An expression of the modelled node types (constants, variables,
    sums, products, quotients, powers, calls without keyword arguments,
    comparisons, disjunctions, conjunctions and conditionals) without a
    constant node, in which every sum and product has two operands at
    least, is returned as it is, and no assignment is emitted. *)
Theorem collapse_constants_varying {V : Type} `{EqDecision V}
    (free_variables : list string) (new_var_func : nat → string)
    (expression : expr V) :
  nonempty expression = true →
  shape_ok free_variables expression = true →
  all_varying free_variables expression = true →
  collapse_constants free_variables new_var_func expression
  = Ok (expression, []).
Proof.
  intros Hn Hs Hv. unfold collapse_constants.
  pose proof (collapsing_outcome free_variables new_var_func expression) as H0.
  rewrite Hn, Hs in H0. destruct H0 as (e' & hoisted & -> & _ & Hvar).
  destruct (Hvar Hv) as [-> ->]. simpl. by rewrite map_to_list_empty.
Qed.

Lemma collapse_constants_varying_witness :
  collapse_constants ["x"; "y"] fresh
    (Product [Var "x"; Sum [Var "y"; Var "x"]] : expr pyvalue)
  = Ok (Product [Var "x"; Sum [Var "y"; Var "x"]], []).
Proof.
  apply (collapse_constants_varying ["x"; "y"] fresh
           (Product [Var "x"; Sum [Var "y"; Var "x"]])); reflexivity.
Defined.

End CollapsingFacts.

(** ** Renaming and evaluation; the backticks of [parse] *)

Module RenamingFacts.
Import Expression ExpressionFacts.

(** The names of the functions an expression calls. *)
Fixpoint callees {V : Type} (e : expr V) : list string :=
  match e with
  | Constant _ | Var _ => []
  | Sum children | Product children | LogicalOr children
  | LogicalAnd children => concat (map callees children)
  | Call function parameters => function :: concat (map callees parameters)
  | Quotient a b | Power a b | Comparison a _ b => callees a ++ callees b
  | IfThenElse c t f => callees c ++ callees t ++ callees f
  end.

(** Renaming with [rename_func], then with [rename_func']. *)
Definition compose_renames (rename_func rename_func' : string → option string)
    (name : string) : option string :=
  match rename_func name with
  | Some renamed => Some (rename_variable rename_func' renamed)
  | None => rename_func' name
  end.

Lemma map_ext_Forall {A B} (f g : A → B) (l : list A) :
  Forall (λ a, f a = g a) l → map f l = map g l.
Proof. induction 1 as [|a l Ha _ IH]; simpl; congruence. Qed.

Lemma rename_variables_none {V : Type} (e : expr V) :
  rename_variables (λ _, None) e = e.
Proof.
  induction e as [c|name|children IH|children IH|a b IHa IHb|a b IHa IHb
                 |f parameters IH|a operator b IHa IHb|children IH|children IH
                 |c t f IHc IHt IHf] using expr_induction; simpl;
    try done; try congruence;
    rewrite (map_ext_Forall _ id) by done; by rewrite map_id.
Qed.

(** X17: Renaming with a function that renames nothing returns the
    expression; renaming twice is renaming once with the composed
    function. *)
Theorem rename_variables_compose {V : Type}
    (rename_func rename_func' : string → option string) (e : expr V) :
  rename_variables (λ _, None) e = e
  ∧ rename_variables rename_func' (rename_variables rename_func e)
    = rename_variables (compose_renames rename_func rename_func') e.
Proof.
  split; [apply rename_variables_none|].
  assert (∀ name, rename_variable rename_func'
                    (rename_variable rename_func name)
                  = rename_variable (compose_renames rename_func rename_func')
                      name) as Hname.
  { intros name. unfold rename_variable, compose_renames.
    by destruct (rename_func name). }
  induction e as [c|name|children IH|children IH|a b IHa IHb|a b IHa IHb
                 |f parameters IH|a operator b IHa IHb|children IH|children IH
                 |c t f IHc IHt IHf] using expr_induction; simpl;
    try done; try congruence;
    rewrite ?Hname, map_map; f_equal; by apply map_ext_Forall.
Qed.

Section Renamed.

Context {V F : Type}.
Variable py : python V F.
Variable rename_func : string → option string.

(** The context and function table the renamed expression is evaluated
    with, and those the original is evaluated with. *)
Variable context context' : gmap string V.
Variable functions functions' : gmap string F.

Abbreviation renamed := (rename_variables rename_func).

Definition agree (e : expr V) : Prop :=
  (∀ x, x ∈ variables e →
        map_variable py context functions (rename_variable rename_func x)
        = map_variable py context' functions' x)
  ∧ (∀ f, f ∈ callees e →
          functions !! rename_variable rename_func f = functions' !! f).

Lemma agree_children (children : list (expr V)) :
  (∀ x, x ∈ concat (map variables children) →
        map_variable py context functions (rename_variable rename_func x)
        = map_variable py context' functions' x) →
  (∀ f, f ∈ concat (map callees children) →
        functions !! rename_variable rename_func f = functions' !! f) →
  Forall agree children.
Proof.
  intros Hv Hf. apply Forall_forall. intros c Hc. split.
  - intros x Hx. apply Hv. apply list_elem_of_In, in_concat.
    exists (variables c). split; [|by apply list_elem_of_In].
    apply in_map. by apply list_elem_of_In.
  - intros f Hin. apply Hf. apply list_elem_of_In, in_concat.
    exists (callees c). split; [|by apply list_elem_of_In].
    apply in_map. by apply list_elem_of_In.
Qed.

Lemma map_renamed (children : list (expr V)) :
  Forall (λ e, agree e →
               evaluate py context functions (renamed e)
               = evaluate py context' functions' e) children →
  Forall agree children →
  map (evaluate py context functions) (map renamed children)
  = map (evaluate py context' functions') children.
Proof.
  induction 1 as [|c rest Hc _ IH]; intros Ha; [done|].
  apply Forall_cons in Ha as [Ha1 Ha2]. simpl. by rewrite Hc, IH.
Qed.

Lemma renamed_value (e : expr V) :
  agree e →
  evaluate py context functions (renamed e)
  = evaluate py context' functions' e.
Proof.
  induction e as [c|name|children IH|children IH|a b IHa IHb|a b IHa IHb
                 |f parameters IH|a operator b IHa IHb|children IH|children IH
                 |c t f IHc IHt IHf] using expr_induction;
    intros [Hv Hf]; simpl in *.
  - done.
  - f_equal. apply Hv. by apply list_elem_of_singleton.
  - by rewrite (map_renamed _ IH (agree_children _ Hv Hf)).
  - by rewrite (map_renamed _ IH (agree_children _ Hv Hf)).
  - rewrite IHa, IHb; [done|..]; split; intros x Hx;
      (apply Hv || apply Hf); apply elem_of_app; auto.
  - rewrite IHa, IHb; [done|..]; split; intros x Hx;
      (apply Hv || apply Hf); apply elem_of_app; auto.
  - unfold map_generic_call. rewrite (Hf f) by by left.
    rewrite (map_renamed _ IH); [done|].
    apply agree_children; [done|]. intros g Hg. apply Hf. by right.
  - rewrite IHa, IHb; [done|..]; split; intros x Hx;
      (apply Hv || apply Hf); apply elem_of_app; auto.
  - by rewrite (map_renamed _ IH (agree_children _ Hv Hf)).
  - by rewrite (map_renamed _ IH (agree_children _ Hv Hf)).
  - rewrite IHc, IHt, IHf; [done|..]; split; intros x Hx;
      (apply Hv || apply Hf); rewrite !elem_of_app; auto.
Qed.

End Renamed.

(** X18: The renamed expression has, in a context and function table, the
    value and the failures the original has in a context and function
    table that resolve each variable and each called function as the
    former resolve its new name. *)
Theorem rename_variables_evaluate {V F : Type} (py : python V F)
    (rename_func : string → option string)
    (context context' : gmap string V) (functions functions' : gmap string F)
    (e : expr V) :
  (∀ x, x ∈ variables e →
        map_variable py context functions (rename_variable rename_func x)
        = map_variable py context' functions' x) →
  (∀ f, f ∈ callees e →
        functions !! rename_variable rename_func f = functions' !! f) →
  evaluate py context functions (rename_variables rename_func e)
  = evaluate py context' functions' e.
Proof. intros Hv Hf. by apply renamed_value. Qed.

Lemma rename_variables_evaluate_witness :
  evaluate ints {[ "y" := PyInt 5 ]} {[ "g" := Double ]}
    (rename_variables (λ name, if String.eqb name "x" then Some "y"
                               else if String.eqb name "f" then Some "g"
                               else None)
       (Sum [Var "x"; Call "f" [Var "x"]]))
  = evaluate ints {[ "x" := PyInt 5 ]} {[ "f" := Double ]}
      (Sum [Var "x"; Call "f" [Var "x"]]).
Proof.
  apply (rename_variables_evaluate ints).
  - intros x Hx. simpl in Hx.
    apply elem_of_cons in Hx as [->|Hx]; [reflexivity|].
    apply elem_of_cons in Hx as [->|Hx]; [reflexivity|].
    by apply elem_of_nil in Hx.
  - intros f Hf. simpl in Hf.
    apply elem_of_cons in Hf as [->|Hf]; [reflexivity|].
    by apply elem_of_nil in Hf.
Defined.

(** X19: Evaluation depends on the context and the function table only through
    what the variables of the expression resolve to and which functions
    the names it calls stand for. *)
Theorem evaluate_frame {V F : Type} (py : python V F)
    (context context' : gmap string V) (functions functions' : gmap string F)
    (e : expr V) :
  (∀ x, x ∈ variables e →
        map_variable py context functions x
        = map_variable py context' functions' x) →
  (∀ f, f ∈ callees e → functions !! f = functions' !! f) →
  evaluate py context functions e = evaluate py context' functions' e.
Proof.
  intros Hv Hf. rewrite <- (rename_variables_none e) at 1.
  by apply renamed_value.
Qed.

Lemma evaluate_frame_witness :
  evaluate ints {[ "x" := PyInt 5 ]} {[ "f" := Double ]}
    (Call "f" [Var "x"])
  = evaluate ints {[ "x" := PyInt 5; "y" := PyInt 7 ]}
      {[ "f" := Double; "x" := Negate ]} (Call "f" [Var "x"]).
Proof.
  apply (evaluate_frame ints).
  - intros x Hx. simpl in Hx.
    apply elem_of_cons in Hx as [->|Hx]; [reflexivity|].
    by apply elem_of_nil in Hx.
  - intros f Hf. simpl in Hf.
    apply elem_of_cons in Hf as [->|Hf]; [reflexivity|].
    by apply elem_of_nil in Hf.
Defined.

(** *** The backticks *)

Lemma substring_all (s : string) : String.substring 0 (String.length s) s = s.
Proof. induction s as [|c s IH]; simpl; [done|]. by rewrite IH. Qed.

Lemma substring_prefix (a b : string) :
  String.substring 0 (String.length a) (a +:+ b) = a.
Proof.
  induction a as [|c a IH]; simpl; [by destruct b|]. by rewrite IH.
Qed.

Lemma substring_suffix (a b : string) :
  String.substring (String.length a) (String.length b) (a +:+ b) = b.
Proof. induction a as [|c a IH]; simpl; [apply substring_all|done]. Qed.

Lemma length_append (a b : string) :
  String.length (a +:+ b) = String.length a + String.length b.
Proof. induction a as [|c a IH]; simpl; [done|]. by rewrite IH. Qed.

Lemma unquote (c : Ascii.ascii) (name : string) :
  let q := String c "" in
  let quoted := q +:+ name +:+ q in
  startswith quoted q = true
  ∧ endswith quoted q = true
  ∧ String.substring 1 (String.length quoted - 2) quoted = name.
Proof.
  intros q quoted. subst quoted q.
  change (String c "" +:+ name +:+ String c "")
    with (String c (name +:+ String c "")).
  split; [|split].
  - rewrite ExecNumpyFacts.startswith_cons, ExecNumpyFacts.startswith_empty.
    by destruct (Ascii.ascii_dec c c).
  - unfold endswith. cbn [String.length]. rewrite length_append.
    cbn [String.length].
    replace (S (String.length name + 1) - 1) with (S (String.length name))
      by lia.
    cbn [String.substring].
    pose proof (substring_suffix name (String c "")) as Hs.
    cbn [String.length] in Hs. rewrite Hs, String.eqb_refl, andb_true_r.
    apply Nat.leb_le. lia.
  - cbn [String.length]. rewrite length_append. cbn [String.length].
    replace (S (String.length name + 1) - 2) with (String.length name)
      by lia.
    cbn [String.substring]. apply substring_prefix.
Qed.

(** X20: A name between a pair of backticks is returned without them,
    whatever it is; a name that does not start with a backtick is
    returned as it is; the name that is a single backtick becomes the
    empty name. *)
Theorem remove_backticks_quoted :
  (∀ name, remove_backticks ("`" +:+ name +:+ "`") = name)
  ∧ (∀ name, startswith name "`" = false → remove_backticks name = name)
  ∧ remove_backticks "`" = "".
Proof.
  split; [|split].
  - intros name. unfold remove_backticks.
    destruct (unquote (Ascii.Ascii false false false false false true true
                                   false) name) as (H1 & H2 & H3).
    cbv zeta in H1, H2, H3. by rewrite H1, H2, H3.
  - intros name Hs. unfold remove_backticks. by rewrite Hs.
  - reflexivity.
Qed.

Lemma remove_backticks_quoted_witness : remove_backticks "x" = "x".
Proof.
  apply (proj1 (proj2 remove_backticks_quoted) "x"). reflexivity.
Defined.

End RenamingFacts.

(** ** Kind inference and the tables *)

Module InferenceFrame.
Import Data DataFacts.

Lemma kind_expr_induction {C : Type} (P : expr C → Prop) :
  (∀ c, P (Constant c)) →
  (∀ name, P (Var name)) →
  (∀ children, Forall P children → P (Sum children)) →
  (∀ children, Forall P children → P (Product children)) →
  (∀ a b, P a → P b → P (Quotient a b)) →
  (∀ a b, P a → P b → P (Power a b)) →
  (∀ f parameters, Forall P parameters → P (Call f parameters)) →
  (∀ a operator b, P a → P b → P (Comparison a operator b)) →
  (∀ children, Forall P children → P (LogicalOr children)) →
  (∀ children, Forall P children → P (LogicalAnd children)) →
  (∀ child, P child → P (LogicalNot child)) →
  (∀ children, Forall P children → P (Max children)) →
  (∀ children, Forall P children → P (Min children)) →
  (∀ a i, P a → P i → P (Subscript a i)) →
  ∀ e, P e.
Proof.
  intros HC HV HS HP HQ HW HF HM HO HA HN HX HI HB.
  fix IH 1. intros e.
  destruct e as [c|name|children|children|a b|a b|f children|a operator b
                |children|children|child|children|children|a i];
    [apply HC|apply HV|apply HS|apply HP|apply HQ|apply HW|apply HF
    |apply HM|apply HO|apply HA|apply HN|apply HX|apply HI|apply HB];
    try apply IH.
  all: revert children; fix IHl 1; intros [|child rest]; constructor;
    [apply IH|apply IHl].
Qed.

(** The variables whose kinds the mapper looks up for an expression.  The
    operands of a comparison, of [max] and of [min], the base of a power
    and the index of a subscript are not visited. *)
Fixpoint inspected {C : Type} (e : expr C) : list string :=
  match e with
  | Var name => [name]
  | Sum children | Product children | LogicalOr children
  | LogicalAnd children | Call _ children => concat (map inspected children)
  | Quotient a b => inspected a ++ inspected b
  | Power _ exponent => inspected exponent
  | LogicalNot child => inspected child
  | Subscript aggregate _ => inspected aggregate
  | Constant _ | Comparison _ _ _ | Max _ | Min _ => []
  end.

(** What [map_variable] finds for a name: the entry of the global table,
    or else that of the local one. *)
Definition resolve (global_tbl local_tbl : gmap string kind) (name : string)
  : option kind :=
  match global_tbl !! name with
  | Some k => Some k
  | None => local_tbl !! name
  end.

Section Frame.

Context {C : Type}.
Variable is_complex : C → bool.
Variable function_registry : gmap string (list kind → result kind).
Variable global_tbl local_tbl global_tbl' local_tbl' : gmap string kind.

Abbreviation infer := (rec is_complex function_registry global_tbl local_tbl).
Abbreviation infer' :=
  (rec is_complex function_registry global_tbl' local_tbl').

Definition same_on (names : list string) : Prop :=
  ∀ x, x ∈ names → resolve global_tbl local_tbl x
                   = resolve global_tbl' local_tbl' x.

Lemma map_infer_frame (children : list (expr C)) :
  Forall (λ e, same_on (inspected e) → infer e = infer' e) children →
  same_on (concat (map inspected children)) →
  map infer children = map infer' children.
Proof.
  induction 1 as [|c rest Hc _ IH]; intros Hs; [done|]. simpl in *.
  rewrite Hc, IH; [done|..]; intros x Hx; apply Hs, elem_of_app; auto.
Qed.

Lemma infer_frame (e : expr C) :
  same_on (inspected e) → infer e = infer' e.
Proof.
  induction e as [c|name|children IH|children IH|a b IHa IHb|a b IHa IHb
                 |f parameters IH|a operator b IHa IHb|children IH|children IH
                 |child IH|children IH|children IH|a i IHa IHi]
    using kind_expr_induction; intros Hs; simpl in *; try done.
  - specialize (Hs name). unfold resolve in Hs.
    assert (name ∈ [name]) as Hin by by left. specialize (Hs Hin).
    destruct (global_tbl !! name), (global_tbl' !! name); simpl in *;
      try congruence;
      destruct (local_tbl !! name), (local_tbl' !! name); congruence.
  - by rewrite (map_infer_frame _ IH Hs).
  - by rewrite (map_infer_frame _ IH Hs).
  - rewrite IHa, IHb; [done|..]; intros x Hx; apply Hs, elem_of_app; auto.
  - by rewrite IHb.
  - by rewrite (map_infer_frame _ IH Hs).
  - by rewrite (map_infer_frame _ IH Hs).
  - by rewrite (map_infer_frame _ IH Hs).
  - by rewrite IH.
  - by rewrite IHa.
Qed.

End Frame.

(** X21: The outcome of kind inference depends on the two tables only through
    what they hold for the variables the mapper looks up, where the
    global table goes first; the variables of comparison operands, of
    the operands of [max] and [min], of the base of a power and of the
    index of a subscript are not among them. *)
Theorem kind_inference_frame {C : Type} (is_complex : C → bool)
    (function_registry : gmap string (list kind → result kind))
    (global_tbl local_tbl global_tbl' local_tbl' : gmap string kind)
    (e : expr C) :
  (∀ x, x ∈ inspected e →
        resolve global_tbl local_tbl x = resolve global_tbl' local_tbl' x) →
  rec is_complex function_registry global_tbl local_tbl e
  = rec is_complex function_registry global_tbl' local_tbl' e.
Proof. apply infer_frame. Qed.

Lemma kind_inference_frame_witness :
  rec (λ _ : Z, false) ∅ {[ "a" := Some Boolean ]} ∅
    (Sum [Power (Var "a") (Var "n"); Var "n"])
  = rec (λ _ : Z, false) ∅ ∅ {[ "a" := Some (Array true) ]}
      (Sum [Power (Var "a") (Var "n"); Var "n"]).
Proof.
  apply (kind_inference_frame (λ _ : Z, false) ∅).
  intros x Hx. simpl in Hx.
  apply elem_of_cons in Hx as [->|Hx]; [reflexivity|].
  apply elem_of_cons in Hx as [->|Hx]; [reflexivity|].
  by apply elem_of_nil in Hx.
Defined.

End InferenceFrame.

(** ** The steps of a run with a fixed step size *)

Module FixedStep.
Import ExecNumpy ExecNumpyFacts.

(** A natural number as a rational. *)
Definition nq (n : nat) : Q := inject_Z (Z.of_nat n).

Lemma nq_0 : (nq 0 == 0)%Q.
Proof. reflexivity. Qed.

Lemma nq_S (n : nat) : (nq (S n) == nq n + 1)%Q.
Proof.
  unfold nq. rewrite Nat2Z.inj_succ, <- Z.add_1_r, inject_Z_plus. reflexivity.
Qed.

Lemma nq_nonneg (n : nat) : (0 <= nq n)%Q.
Proof.
  unfold nq. change 0%Q with (inject_Z 0). rewrite <- Zle_Qle. lia.
Qed.

(** The turn [it] completed a step, at a time equal to [q]. *)
Definition completed_at (it : iteration) (q : Q) : Prop :=
  ∃ v, last (yielded it) = Some (StepCompleted (Number v)) ∧ (v == q)%Q.

Section Schedule.

Variable step_plan : state → execution.
Variable t_end : Q.

(** The states the step plan is given in the run at hand. *)
Variable reachable : state → Prop.

(** The step size. *)
Variable d : Q.
Hypothesis d_positive : (0 < d)%Q.

(** From such a state, with a step that does not pass [t_end], every
    execution of the step plan completes, advances [<t>] by [<dt>] and
    leaves [<dt>] as it is. *)
Hypothesis plan_steps : ∀ (s : state) (t dt : Q),
  reachable s →
  number_at s "<t>" = Ok t → number_at s "<dt>" = Ok dt →
  (t + dt <= t_end)%Q →
  ∃ events after t' dt',
    step_plan s = Finished events after
    ∧ number_at after "<t>" = Ok t' ∧ (t' == t + dt)%Q
    ∧ number_at after "<dt>" = Ok dt' ∧ (dt' == dt)%Q
    ∧ reachable (discard after).

(** Clamping [<dt>] leaves such a state one. *)
Hypothesis clamp_reachable : ∀ (s : state) (t : Q),
  reachable s → number_at s "<t>" = Ok t → (t <= t_end)%Q →
  reachable (<["<dt>" := Number (t_end - t)]> s).

(** A turn in which the step plan completes. *)
Lemma run_body_finished (s after : state) (last_step : bool)
    (events : list StateComputed) (t' : Q) :
  step_plan s = Finished events after →
  number_at after "<t>" = Ok t' →
  run_body step_plan s last_step
  = (map Computed events ++ [StepCompleted (Number t')],
     if last_step then Break (discard after)
     else Next (discard after) last_step).
Proof.
  intros Hplan Ht'. unfold run_body. rewrite Hplan.
  apply number_at_lookup in Ht'.
  rewrite lookup_discard. simpl. by rewrite Ht'.
Qed.

Lemma last_turn (s : state) (t dt : Q) :
  reachable s →
  number_at s "<t>" = Ok t → number_at s "<dt>" = Ok dt →
  (t <= t_end)%Q → (t_end <= t + dt)%Q →
  ∃ it final,
    (∀ fuel, 0 < fuel →
             run_loop step_plan fuel t_end s false = ([it], Stopped final))
    ∧ completed_at it t_end.
Proof.
  intros Hs Ht Hdt Hle Hge.
  set (s1 := <["<dt>" := Number (t_end - t)]> s).
  assert (adjust t_end s false = Ok (s1, true)) as Hadj.
  { unfold adjust. rewrite Ht, Hdt. simpl.
    assert (Qle_bool t_end (t + dt) = true) as -> by by apply Qle_bool_iff.
    by assert (Qle_bool t t_end = true) as -> by by apply Qle_bool_iff. }
  assert (number_at s1 "<t>" = Ok t) as Ht1.
  { unfold number_at, s1 in *. by rewrite lookup_insert_ne. }
  assert (number_at s1 "<dt>" = Ok (t_end - t)%Q) as Hdt1.
  { unfold number_at, s1. by rewrite lookup_insert_eq. }
  destruct (plan_steps s1 t (t_end - t)%Q
              (clamp_reachable s t Hs Ht Hle) Ht1 Hdt1)
    as (events & after & t' & dt' & Hplan & Ht' & Heq & _); [lra|].
  exists {| started := s1; marked_last := true;
            yielded := map Computed events ++ [StepCompleted (Number t')] |},
         (discard after).
  split.
  - intros [|fuel] Hfuel; [lia|]. simpl. rewrite Hadj.
    by rewrite (run_body_finished s1 after true events t' Hplan Ht').
  - exists t'. simpl. rewrite last_snoc. split; [done|]. lra.
Qed.

Lemma schedule (n : nat) : ∀ (s : state) (t dt : Q),
  reachable s →
  number_at s "<t>" = Ok t → number_at s "<dt>" = Ok dt → (dt == d)%Q →
  (t_end <= t + (nq n + 1) * d)%Q →
  (n = 0 → (t <= t_end)%Q) →
  (0 < n → (t + nq n * d < t_end)%Q) →
  ∃ its final,
    (∀ fuel, n < fuel →
             run_loop step_plan fuel t_end s false = (its, Stopped final))
    ∧ length its = S n
    ∧ ∀ i it, its !! i = Some it →
              completed_at it (if decide (i < n) then t + (nq i + 1) * d
                               else t_end).
Proof.
  induction n as [|n IH]; intros s t dt Hs Ht Hdt Hd Hup H0 Hlow.
  - destruct (last_turn s t dt Hs Ht Hdt) as (it & final & Hrun & Hit).
    { by apply H0. }
    { rewrite nq_0 in Hup. lra. }
    exists [it], final. split; [done|]. split; [done|].
    intros [|i] it' Hi; simpl in Hi; [|done]. injection Hi as <-.
    by rewrite decide_False by lia.
  - assert (t + nq (S n) * d < t_end)%Q as Hlt by (apply Hlow; lia).
    pose proof (nq_S n) as HS. pose proof (nq_nonneg n) as Hn.
    assert (0 <= nq n * d)%Q as Hnd by (apply Qmult_le_0_compat; lra).
    assert (nq (S n) * d == nq n * d + d)%Q as Hmul by (rewrite HS; ring).
    assert (adjust t_end s false = Ok (s, false)) as Hadj.
    { unfold adjust. rewrite Ht, Hdt. simpl.
      destruct (Qle_bool t_end (t + dt)) eqn:E; [|done].
      apply Qle_bool_iff in E. lra. }
    destruct (plan_steps s t dt Hs Ht Hdt)
      as (events & after & t' & dt' & Hplan & Ht' & Heq & Hdt' & Heq' & Hs');
      [lra|].
    assert (number_at (discard after) "<t>" = Ok t') as Ht2
      by by rewrite number_at_discard.
    assert (number_at (discard after) "<dt>" = Ok dt') as Hdt2
      by by rewrite number_at_discard.
    destruct (IH (discard after) t' dt' Hs' Ht2 Hdt2)
      as (its & final & Hrun & Hlen & Hits).
    { lra. }
    { assert ((nq (S n) + 1) * d == (nq n + 1) * d + d)%Q as Hup'
        by (rewrite HS; ring).
      lra. }
    { intros _. lra. }
    { intros _. lra. }
    exists ({| started := s; marked_last := false;
               yielded := map Computed events
                          ++ [StepCompleted (Number t')] |} :: its), final.
    split; [|split].
    + intros [|fuel] Hfuel; [lia|]. simpl. rewrite Hadj.
      rewrite (run_body_finished s after false events t' Hplan Ht').
      rewrite (Hrun fuel) by lia. done.
    + simpl. by rewrite Hlen.
    + intros [|i] it Hi; simpl in Hi.
      * injection Hi as <-. rewrite decide_True by lia.
        exists t'. simpl. rewrite last_snoc. split; [done|].
        rewrite nq_0. lra.
      * destruct (Hits i it Hi) as (v & Hv & Hq). exists v. split; [done|].
        destruct (decide (i < n)) as [Hi'|Hi'].
        -- rewrite decide_True by lia. rewrite Hq.
           pose proof (nq_S i) as HSi.
           assert ((nq (S i) + 1) * d == (nq i + 1) * d + d)%Q as ->
             by (rewrite HSi; ring).
           lra.
        -- by rewrite decide_False by lia.
Qed.

End Schedule.

(** X22: Let the numbers be exact ([int] or [Fraction]).  Of the states the
    step plan is given in the run, let every execution with a step that
    does not pass [t_end] complete, advance [<t>] by [<dt>] and leave
    [<dt>] as it is, and let [run] start at time [t] with a positive step
    [dt] such that [n] full steps end before [t_end] and one more reaches
    it.  Then [run] takes [n + 1] steps and returns: step number [i]
    completes at [t + (i + 1) * dt] for [i < n], and the last one at
    [t_end]. *)
Theorem fixed_step_schedule (step_plan : state → execution) (t_end : Q)
    (reachable : state → Prop) (s : state) (t dt : Q) (n : nat) :
  (∀ (s : state) (t dt : Q),
     reachable s →
     number_at s "<t>" = Ok t → number_at s "<dt>" = Ok dt →
     (t + dt <= t_end)%Q →
     ∃ events after t' dt',
       step_plan s = Finished events after
       ∧ number_at after "<t>" = Ok t' ∧ (t' == t + dt)%Q
       ∧ number_at after "<dt>" = Ok dt' ∧ (dt' == dt)%Q
       ∧ reachable (discard after)) →
  (∀ (s : state) (t : Q),
     reachable s → number_at s "<t>" = Ok t → (t <= t_end)%Q →
     reachable (<["<dt>" := Number (t_end - t)]> s)) →
  reachable s →
  number_at s "<t>" = Ok t → number_at s "<dt>" = Ok dt →
  (0 < dt)%Q →
  (t_end <= t + (nq n + 1) * dt)%Q →
  (n = 0 → (t <= t_end)%Q) →
  (0 < n → (t + nq n * dt < t_end)%Q) →
  ∃ its final,
    (∀ fuel, n < fuel →
             run (ar := exact_arithmetic) step_plan fuel t_end s
             = (its, Stopped final))
    ∧ length its = S n
    ∧ ∀ i it, its !! i = Some it →
              completed_at it (if decide (i < n) then t + (nq i + 1) * dt
                               else t_end).
Proof.
  intros Hplan Hclamp Hs Ht Hdt Hpos Hup H0 Hlow.
  by apply (schedule step_plan t_end reachable dt Hpos Hplan Hclamp n s t dt).
Qed.

(** The states of a run of the fixed-step plan: those that hold [<t>]
    and [<dt>] as numbers. *)
Definition timed (s : state) : Prop :=
  ∃ t dt, number_at s "<t>" = Ok t ∧ number_at s "<dt>" = Ok dt.

Lemma plan_advance_steps (s : state) (t dt : Q) :
  timed s →
  number_at s "<t>" = Ok t → number_at s "<dt>" = Ok dt →
  (t + dt <= 5 # 2)%Q →
  ∃ events after t' dt',
    plan_advance s = Finished events after
    ∧ number_at after "<t>" = Ok t' ∧ (t' == t + dt)%Q
    ∧ number_at after "<dt>" = Ok dt' ∧ (dt' == dt)%Q
    ∧ timed (discard after).
Proof.
  intros _ Ht Hdt _. unfold plan_advance. rewrite Ht, Hdt.
  assert (number_at (<["<t>" := Number (t + dt)]> s) "<t>" = Ok (t + dt)%Q)
    as Ht'.
  { unfold number_at. by rewrite lookup_insert_eq. }
  assert (number_at (<["<t>" := Number (t + dt)]> s) "<dt>" = Ok dt) as Hdt'.
  { unfold number_at in *. by rewrite lookup_insert_ne. }
  exists [], (<["<t>" := Number (t + dt)]> s), (t + dt)%Q, dt.
  split; [done|]. split; [done|]. split; [reflexivity|].
  split; [done|]. split; [reflexivity|].
  exists (t + dt)%Q, dt. by rewrite !number_at_discard.
Qed.

Lemma plan_advance_clamp (s : state) (t : Q) :
  timed s → number_at s "<t>" = Ok t → (t <= 5 # 2)%Q →
  timed (<["<dt>" := Number ((5 # 2) - t)]> s).
Proof.
  intros _ Ht _. exists t, ((5 # 2) - t)%Q. unfold number_at in *.
  by rewrite lookup_insert_eq, lookup_insert_ne.
Qed.

Lemma fixed_step_schedule_witness :
  ∃ its final,
    (∀ fuel, 2 < fuel → run plan_advance fuel (5 # 2) state0 = (its, Stopped final))
    ∧ length its = 3.
Proof.
  destruct (fixed_step_schedule plan_advance (5 # 2) timed state0 0 1 2)
    as (its & final & Hrun & Hlen & _).
  - exact plan_advance_steps.
  - exact plan_advance_clamp.
  - exists 0%Q, 1%Q. split; reflexivity.
  - reflexivity.
  - reflexivity.
  - reflexivity.
  - vm_compute. discriminate.
  - intros H. discriminate H.
  - intros _. reflexivity.
  - exists its, final. split; [exact Hrun|exact Hlen].
Defined.

End FixedStep.
